(** * ATSVG: the raster-to-vector tracing engine

    A shallow embedding of the tracing pipeline of the repository and of
    the pure parts of its callers:

    - [ImageTracer], the browser engine of [src/js/imagetrace.js]
      (quantize, medianCut, createIndexedImage, layerSeparation, tracePaths,
      simplifyPath, pathToSvg, generateSvg, the preprocessing stages and
      trace);
    - [NodeTracer], the [ImageTracer] class of the Node library
      ([src/examples/usage.js]: quantizeColors, getPalette, mapToPalette,
      simplifyPath, toGrayscale, toMonochrome, createColorRects, mergeRects
      and trace);
    - [Converter], the browser converter of [src/js/converter.js]
      (removeWhiteBackground and the options traceToSVG hands to the
      engine);
    - [NodeConverter], the class [ATSVGConverter] of the Node library
      ([src/examples/usage.js]: removeWhiteBackgroundSharp and the text
      escaping of renderPDFPage).

    Conventions.  A pixel buffer (a [Uint8ClampedArray]) is a [list Z] of
    bytes; reading past its end yields [undefined], modelled by [None].
    JavaScript numbers that stay integral (bytes, indices, coordinates,
    channel sums) are [Z] or [nat]; numbers computed with fractions
    (distances, luma, blur weights, scale) are binary64 floats ([PrimFloat]).
    In-place mutation is explicit state passing: a function that writes into
    the caller's buffer returns the buffer's new contents.  Limits of a
    particular engine (the largest argument list of [Math.max(...values)],
    memory) are not modelled; the one exception is unbounded recursion,
    which every engine ends with a RangeError. *)

From Stdlib Require Import String Ascii.
From Stdlib Require Import ZArith List Lia Bool Permutation DecimalString.
From Stdlib Require Import Floats.
From Stdlib Require Import Numbers.Cyclic.Int63.Uint63.
Import ListNotations.

Open Scope Z_scope.

Set Warnings "-inexact-float".

(** ** Typed-array reads and writes *)

(** [data[i]]: [None] stands for [undefined] (index out of range). *)
Definition rd (data : list Z) (i : nat) : option Z := nth_error data i.

(** [data[i] = v] on a typed array: a write past the end is ignored. *)
Fixpoint wr {A : Type} (l : list A) (i : nat) (v : A) : list A :=
  match l, i with
  | [], _ => []
  | _ :: t, O => v :: t
  | h :: t, S i' => h :: wr t i' v
  end.

(** ** Colours and channels *)

Record color : Type := mkColor { col_r : Z; col_g : Z; col_b : Z; col_a : Z }.

Inductive channel : Type := Cr | Cg | Cb.

(** The channels in the order of the source's [['r', 'g', 'b']]. *)
Definition channels : list channel := [Cr; Cg; Cb].

(** [Math.round(s / n)] for an integral sum [s] and a positive count [n]:
    [Math.round] rounds halves up, so the result is [floor (s/n + 1/2)]. *)
Definition round_div (s : Z) (n : Z) : Z := (2 * s + n) / (2 * n).

(** ** The splitting step shared by both median-cut loops

    [medianCut] (imagetrace.js) and [quantizeColors] (usage.js) run the same
    loop body over different pixel records; it is written once, over a pixel
    type [P] with a channel accessor [get] (the source's [p[channel]]). *)

Section MedianCutCore.

Variable P : Type.
Variable get : channel -> P -> Z.

(** [Math.max(...values) - Math.min(...values)] with
    [values = box.map(p => p[channel])]; it is only evaluated on boxes of
    two or more pixels. *)
Definition channel_range (ch : channel) (box : list P) : Z :=
  match map (get ch) box with
  | [] => 0
  | v :: vs => fold_left Z.max vs v - fold_left Z.min vs v
  end.

(** The scan state: [(maxRange, maxBox, maxChannel)]. *)
Definition scan_state : Type := (Z * nat * channel)%type.

Definition scan_channel (box : list P) (i : nat) (st : scan_state)
    (ch : channel) : scan_state :=
  let range := channel_range ch box in
  if fst (fst st) <? range then (range, i, ch) else st.

Definition scan_box (st : scan_state) (ib : nat * list P) : scan_state :=
  if (length (snd ib) <? 2)%nat then st
  else fold_left (scan_channel (snd ib) (fst ib)) channels st.

Definition scan (boxes : list (list P)) : scan_state :=
  fold_left scan_box (combine (seq 0 (length boxes)) boxes) (0, 0%nat, Cr).

(** [box.sort((a, b) => a[ch] - b[ch])]: the stable ascending sort. *)
Fixpoint insert_by (ch : channel) (x : P) (l : list P) : list P :=
  match l with
  | [] => [x]
  | y :: l' => if get ch x <=? get ch y then x :: l else y :: insert_by ch x l'
  end.

Definition sort_by (ch : channel) (l : list P) : list P :=
  fold_right (insert_by ch) [] l.

(** [boxes.splice(i, 1, x, y)]. *)
Definition splice2 (boxes : list (list P)) (i : nat) (x y : list P)
    : list (list P) :=
  firstn i boxes ++ x :: y :: skipn (S i) boxes.

(** One iteration of the loop body; [None] is the [break] on
    [maxRange === 0]. *)
Definition split_step (boxes : list (list P)) : option (list (list P)) :=
  let st := scan boxes in
  if fst (fst st) =? 0 then None
  else
    let box := sort_by (snd st) (nth (snd (fst st)) boxes []) in
    let mid := (length box / 2)%nat in
    Some (splice2 boxes (snd (fst st)) (firstn mid box) (skipn mid box)).

End MedianCutCore.

Arguments channel_range {P}.
Arguments scan {P}.
Arguments sort_by {P}.
Arguments insert_by {P}.
Arguments splice2 {P}.
Arguments split_step {P}.
Arguments scan_box {P}.
Arguments scan_channel {P}.

(** ** Numbers *)

(** An integral JavaScript number as a binary64 float (exact below 2^53). *)
Definition Z2F (z : Z) : float :=
  if z <? 0 then PrimFloat.opp (PrimFloat.of_uint63 (Uint63.of_Z (- z)))
  else PrimFloat.of_uint63 (Uint63.of_Z z).

(** [data[i]] used as a number: [undefined] converts to NaN. *)
Definition rdF (d : list Z) (i : nat) : float :=
  match rd d i with Some v => Z2F v | None => nan end.

(** [Math.round]: the nearest integer, halves towards +infinity, computed
    exactly from the mantissa and exponent; NaN and infinities are
    returned as they are. *)
Definition Math_round (x : float) : float :=
  match Prim2SF x with
  | S754_finite s m e =>
      if 0 <=? e then x
      else
        let q := 2 ^ (- e) in
        let n := if s then Z.neg m else Z.pos m in
        Z2F ((2 * n + q) / (2 * q))
  | _ => x
  end.

(** The conversion a [Uint8ClampedArray] applies to a stored number: NaN
    becomes 0, the value is clamped to 0..255 and rounded to the nearest
    integer, halves to even. *)
Definition toUint8Clamp (x : float) : Z :=
  match Prim2SF x with
  | S754_nan => 0
  | S754_zero _ => 0
  | S754_infinity s => if s then 0 else 255
  | S754_finite s m e =>
      if s then 0
      else if 0 <=? e then Z.min 255 (Z.pos m * 2 ^ e)
      else
        let q := 2 ^ (- e) in
        let f := Z.pos m / q in
        let rem := Z.pos m mod q in
        if 255 <=? f then 255
        else if 2 * rem <? q then f
        else if q <? 2 * rem then f + 1
        else if Z.even f then f else f + 1
  end.

(** The host functions the engine calls and the repository does not
    define.  [Math.exp] is implementation-approximated in ECMAScript;
    [Number_toString] is the number-to-string conversion of template
    literals, [Number_toFixed x d] is [x.toFixed(d)] for [0 <= d <= 100]
    (outside that range [toFixed] throws, which the model writes out). *)
Record JsHost : Type := mkJsHost {
  Math_exp : float -> float;
  Number_toString : float -> string;
  Number_toFixed : float -> Z -> string
}.

Inductive error : Type :=
| RangeError_toFixed      (* toFixed() digits argument out of range *)
| RangeError_callStack.   (* maximum call stack size exceeded *)

(** What a call does: return a value, throw, or (for a loop modelled with
    fuel) exhaust its fuel. *)
Inductive outcome (A : Type) : Type :=
| Returns (v : A)
| Throws (e : error)
| OutOfFuel.

Arguments Returns {A} v.
Arguments Throws {A} e.
Arguments OutOfFuel {A}.

Definition bind {A B : Type} (o : outcome A) (f : A -> outcome B) : outcome B :=
  match o with
  | Returns v => f v
  | Throws e => Throws e
  | OutOfFuel => OutOfFuel
  end.

(** The double-quote character, and string concatenation of a list. *)
Definition dq : string := String (ascii_of_nat 34) EmptyString.

Definition nl : string := String (ascii_of_nat 10) EmptyString.

Definition sconcat (l : list string) : string :=
  fold_right String.append EmptyString l.

(** A path point [{x, y}]; [origin] is the default of list reads that are
    always in range. *)
Definition point : Type := (Z * Z)%type.

Definition origin : point := (0, 0).

(** The values of [i] in [for (let i = 0; i < len; i += 4)]. *)
Definition pixel_starts (len : nat) : list nat :=
  map (fun k => (4 * k)%nat) (seq 0 ((len + 3) / 4)).

(** * The browser engine: src/js/imagetrace.js *)

Module ImageTracer.

(** [ImageData]: the pixel buffer and its declared dimensions. *)
Record ImageData : Type :=
  mkImageData { data : list Z; width : nat; height : nat }.

(** [colorMode]: ['grayscale'], ['monochrome'], or anything else, which
    trace treats as ['color']. *)
Inductive ColorMode : Type := ModeColor | ModeGrayscale | ModeMonochrome.

(** The options the engine reads.  The other keys of [defaultOptions]
    (colorsampling, mincolorratio, colorquantcycles, qtres,
    rightangleenhance, strokewidth, linefilter, blurdelta) are never read. *)
Record Options : Type := mkOptions {
  numberofcolors : Z;
  pathomit : Z;
  ltres : float;
  scale : float;
  roundcoords : Z;
  viewbox : bool;
  desc : bool;
  blurradius : Z;
  colorMode : ColorMode;
  threshold : float
}.

Definition defaultOptions : Options :=
  {| numberofcolors := 16; pathomit := 8; ltres := 1%float;
     scale := 1%float; roundcoords := 1; viewbox := false; desc := false;
     blurradius := 0; colorMode := ModeColor; threshold := 128%float |}.

(** *** quantize and medianCut *)

(** The body of quantize's loop at offset [i]: the pixel is pushed when
    its alpha is positive ([undefined > 0] is false). *)
Definition quantize_push (d : list Z) (i : nat) : list color :=
  match rd d (i + 3) with
  | Some a =>
      if 0 <? a
      then [mkColor (nth i d 0) (nth (i + 1) d 0) (nth (i + 2) d 0) a]
      else []
  | None => []
  end.

Definition quantize_pixels (d : list Z) : list color :=
  flat_map (quantize_push d) (pixel_starts (length d)).

Definition chan (ch : channel) (p : color) : Z :=
  match ch with Cr => col_r p | Cg => col_g p | Cb => col_b p end.

(** The [while] loop of medianCut.  [npixels] is [pixels.length]; every
    iteration needs one unit of [fuel], and [None] means the fuel ran out
    before the loop condition failed. *)
Fixpoint medianCut_loop (fuel : nat) (npixels : nat) (numColors : Z)
    (boxes : list (list color)) : option (list (list color)) :=
  if (Z.of_nat (length boxes) <? numColors) && (length boxes <? npixels)%nat
  then
    match fuel with
    | O => None
    | S fuel' =>
        match split_step chan boxes with
        | None => Some boxes
        | Some boxes' => medianCut_loop fuel' npixels numColors boxes'
        end
    end
  else Some boxes.

Definition gray : color := mkColor 128 128 128 255.

Definition sum_by (f : color -> Z) (box : list color) : Z :=
  fold_left (fun acc p => acc + f p) box 0.

(** The callback of [boxes.map]: the rounded channel averages of a box. *)
Definition box_average (box : list color) : color :=
  if (length box =? 0)%nat then gray
  else
    let n := Z.of_nat (length box) in
    mkColor (round_div (sum_by col_r box) n) (round_div (sum_by col_g box) n)
            (round_div (sum_by col_b box) n) (round_div (sum_by col_a box) n).

Definition medianCut (pixels : list color) (numColors : Z)
    : option (list color) :=
  if (length pixels =? 0)%nat || (numColors <? 1) then Some [gray]
  else
    option_map (map box_average)
      (medianCut_loop (length pixels) (length pixels) numColors [pixels]).

Definition quantize (imgd : ImageData) (options : Options)
    : option (list color) :=
  let pixels := quantize_pixels (data imgd) in
  if (length pixels =? 0)%nat then Some [mkColor 0 0 0 0]
  else medianCut pixels (numberofcolors options).

(** *** createIndexedImage *)

Record IndexedImage : Type :=
  mkIndexedImage { array : list Z; iwidth : nat; iheight : nat }.

(** [dr * dr + dg * dg + db * db]; [None] is NaN (a channel read
    [undefined]). *)
Definition dist2 (r g b : option Z) (p : color) : option Z :=
  match r, g, b with
  | Some r, Some g, Some b =>
      Some ((r - col_r p) * (r - col_r p) + (g - col_g p) * (g - col_g p)
            + (b - col_b p) * (b - col_b p))
  | _, _, _ => None
  end.

(** The palette search state [(minDist, colorIdx)]; [minDist = None] is
    [Infinity].  [dist < minDist] is false for a NaN [dist]. *)
Definition closest_step (r g b : option Z) (st : option Z * nat)
    (jp : nat * color) : option Z * nat :=
  match dist2 r g b (snd jp) with
  | None => st
  | Some dist =>
      match fst st with
      | None => (Some dist, fst jp)
      | Some minDist => if dist <? minDist then (Some dist, fst jp) else st
      end
  end.

Definition closest (palette : list color) (r g b : option Z) : nat :=
  snd (fold_left (closest_step r g b)
         (combine (seq 0 (length palette)) palette) (None, 0%nat)).

(** [indexed[i]] after the loop body for pixel [i]; [undefined < 128] is
    false. *)
Definition index_of_pixel (d : list Z) (palette : list color) (i : nat) : Z :=
  let idx := (i * 4)%nat in
  match rd d (idx + 3) with
  | Some a =>
      if a <? 128 then -1
      else Z.of_nat (closest palette (rd d idx) (rd d (idx + 1)) (rd d (idx + 2)))
  | None =>
      Z.of_nat (closest palette (rd d idx) (rd d (idx + 1)) (rd d (idx + 2)))
  end.

Definition createIndexedImage (imgd : ImageData) (palette : list color)
    : IndexedImage :=
  {| array := map (index_of_pixel (data imgd) palette)
                  (seq 0 (width imgd * height imgd));
     iwidth := width imgd; iheight := height imgd |}.

(** *** layerSeparation *)

Record Layer : Type := mkLayer {
  l_array : list Z; l_width : nat; l_height : nat; l_color : color
}.

(** The inner loop's state [(layer, hasPixels)] after index [i]. *)
Definition mark_layer (colorIdx : Z) (st : list Z * bool) (iv : nat * Z)
    : list Z * bool :=
  if snd iv =? colorIdx then (wr (fst st) (fst iv) 1, true) else st.

Definition build_layer (indexed : IndexedImage) (colorIdx : nat)
    : list Z * bool :=
  fold_left (mark_layer (Z.of_nat colorIdx))
    (combine (seq 0 (length (array indexed))) (array indexed))
    (repeat 0 (iwidth indexed * iheight indexed)%nat, false).

Definition layer_of (indexed : IndexedImage) (palette : list color)
    (colorIdx : nat) : list Layer :=
  if snd (build_layer indexed colorIdx)
  then [mkLayer (fst (build_layer indexed colorIdx)) (iwidth indexed)
          (iheight indexed) (nth colorIdx palette (mkColor 0 0 0 0))]
  else [].

Definition layerSeparation (indexed : IndexedImage) (palette : list color)
    : list Layer :=
  flat_map (layer_of indexed palette) (seq 0 (length palette)).

(** *** tracePaths *)

(** The direction vectors: right, down, left, up. *)
Definition dx (d : nat) : Z := nth d [1; 0; -1; 0] 0.
Definition dy (d : nat) : Z := nth d [0; 1; 0; -1] 0.

(** [array[z]] of a typed array at a computed index: 0 where the read is
    [undefined] (only truthiness is tested). *)
Definition rdZ (l : list Z) (z : Z) : Z :=
  if z <? 0 then 0 else nth (Z.to_nat z) l 0.

(** [array[z] = v] at a computed index. *)
Definition wrZ (l : list Z) (z : Z) (v : Z) : list Z :=
  if z <? 0 then l else wr l (Z.to_nat z) v.

Definition getPixel (layer : Layer) (x y : Z) : Z :=
  let w := Z.of_nat (l_width layer) in
  let h := Z.of_nat (l_height layer) in
  if (x <? 0) || (w <=? x) || (y <? 0) || (h <=? y) then 0
  else rdZ (l_array layer) (y * w + x).

(** Truthiness of a number. *)
Definition truthy (v : Z) : bool := negb (v =? 0).

Definition isEdge (layer : Layer) (x y : Z) : bool :=
  if negb (truthy (getPixel layer x y)) then false
  else negb (truthy (getPixel layer (x - 1) y))
       || negb (truthy (getPixel layer (x + 1) y))
       || negb (truthy (getPixel layer x (y - 1)))
       || negb (truthy (getPixel layer x (y + 1))).

(** The inner [for (let i = 0; i < 4; i++)] of the walk, from candidate
    [i] on: the first neighbour that is set and an edge pixel, with the
    direction that reached it. *)
Fixpoint next_edge_from (layer : Layer) (cx cy : Z) (dir : nat)
    (cands : list nat) : option (Z * Z * nat) :=
  match cands with
  | [] => None
  | i :: rest =>
      let newDir := ((dir + 3 + i) mod 4)%nat in
      let nx := cx + dx newDir in
      let ny := cy + dy newDir in
      if truthy (getPixel layer nx ny) && isEdge layer nx ny
      then Some (nx, ny, newDir)
      else next_edge_from layer cx cy dir rest
  end.

Definition next_edge (layer : Layer) (cx cy : Z) (dir : nat)
    : option (Z * Z * nat) :=
  next_edge_from layer cx cy dir [0; 1; 2; 3]%nat.

(** The [do ... while] walk.  [k] is [maxSteps - steps], the number of
    steps still allowed: [steps++] turns [S k'] into [k'], and
    [steps < maxSteps] reads [k' <> 0].  At [k = 0] on entry ([maxSteps] is
    0) the body runs once, as a do-while does, and the loop exits. *)
Fixpoint walk (layer : Layer) (startX startY : Z) (k : nat) (cx cy : Z)
    (dir : nat) (path : list point) (visited : list Z)
    : list point * list Z :=
  let path := path ++ [(cx, cy)] in
  let visited := wrZ visited (cy * Z.of_nat (l_width layer) + cx) 1 in
  match next_edge layer cx cy dir with
  | None => (path, visited)
  | Some (nx, ny, newDir) =>
      match k with
      | O => (path, visited)
      | S k' =>
          if (negb ((nx =? startX) && (ny =? startY))) && negb (k' =? 0)%nat
          then walk layer startX startY k' nx ny newDir path visited
          else (path, visited)
      end
  end.

(** The body of the two scanning loops at pixel [(x, y)], on the state
    [(paths, visited)]. *)
Definition trace_at (layer : Layer) (options : Options)
    (st : list (list point) * list Z) (xy : Z * Z)
    : list (list point) * list Z :=
  let w := Z.of_nat (l_width layer) in
  let x := fst xy in
  let y := snd xy in
  if truthy (getPixel layer x y)
     && negb (truthy (rdZ (snd st) (y * w + x)))
     && isEdge layer x y
  then
    let maxSteps := (l_width layer * l_height layer * 4)%nat in
    let res := walk layer x y maxSteps x y 0%nat [] (snd st) in
    (if pathomit options <=? Z.of_nat (length (fst res))
     then fst st ++ [fst res] else fst st,
     snd res)
  else st.

(** The pixels in scanning order: rows top to bottom, left to right. *)
Definition grid (w h : nat) : list (Z * Z) :=
  flat_map (fun y => map (fun x => (Z.of_nat x, Z.of_nat y)) (seq 0 w))
           (seq 0 h).

Definition tracePaths (layer : Layer) (options : Options)
    : list (list point) :=
  fst (fold_left (trace_at layer options)
         (grid (l_width layer) (l_height layer))
         ([], repeat 0 (l_width layer * l_height layer)%nat)).

(** *** simplifyPath *)

Definition perpendicularDistance (p lineStart lineEnd : point) : float :=
  let px := Z2F (fst p) in
  let py := Z2F (snd p) in
  let sx := Z2F (fst lineStart) in
  let sy := Z2F (snd lineStart) in
  let dx := (Z2F (fst lineEnd) - sx)%float in
  let dy := (Z2F (snd lineEnd) - sy)%float in
  if PrimFloat.eqb dx 0 && PrimFloat.eqb dy 0
  then PrimFloat.sqrt ((px - sx) * (px - sx) + (py - sy) * (py - sy))%float
  else
    let t := (((px - sx) * dx + (py - sy) * dy) / (dx * dx + dy * dy))%float in
    let nearestX := (sx + t * dx)%float in
    let nearestY := (sy + t * dy)%float in
    PrimFloat.sqrt ((px - nearestX) * (px - nearestX)
                    + (py - nearestY) * (py - nearestY))%float.

(** The scan for the farthest interior point: [(maxDist, maxIdx)] after
    [for (let i = 1; i < points.length - 1; i++)]. *)
Definition farthest_step (points : list point) (st : float * nat) (i : nat)
    : float * nat :=
  let dist :=
    perpendicularDistance (nth i points origin) (nth 0 points origin)
      (nth (length points - 1) points origin) in
  if PrimFloat.ltb (fst st) dist then (dist, i) else st.

Definition farthest (points : list point) : float * nat :=
  fold_left (farthest_step points) (seq 1 (length points - 2))
            (0%float, 0%nat).

(** The recursion, with one unit of [fuel] per nested call; [None] means
    the fuel ran out. *)
Fixpoint simplifyPath_fuel (fuel : nat) (points : list point)
    (tolerance : float) : option (list point) :=
  if (length points <=? 2)%nat then Some points
  else
    match fuel with
    | O => None
    | S fuel' =>
        let maxIdx := snd (farthest points) in
        if PrimFloat.ltb tolerance (fst (farthest points))
        then
          match simplifyPath_fuel fuel' (firstn (maxIdx + 1) points) tolerance,
                simplifyPath_fuel fuel' (skipn maxIdx points) tolerance with
          | Some lft, Some rgt => Some (removelast lft ++ rgt)
          | _, _ => None
          end
        else Some [nth 0 points origin; nth (length points - 1) points origin]
    end.

(** [simplifyPath]: [length points] nested calls are enough whenever the
    recursion ends at all ([simplifyPath_fuel_enough] below), so [None] is
    the recursion that never returns. *)
Definition simplifyPath (points : list point) (tolerance : float)
    : option (list point) :=
  simplifyPath_fuel (length points) points tolerance.

(** *** pathToSvg and generateSvg *)

Section Emitter.

Variable host : JsHost.

(** The local function [r] of pathToSvg: [(val * scale).toFixed(round)]. *)
Definition r_coord (options : Options) (val : Z) : string :=
  Number_toFixed host (Z2F val * scale options)%float (roundcoords options).

Definition pathToSvg (path : list point) (options : Options)
    : outcome string :=
  if (length path =? 0)%nat then Returns EmptyString
  else
    match simplifyPath path (ltres options) with
    | None => Throws RangeError_callStack
    | Some simplified =>
        if (length simplified <? 2)%nat then Returns EmptyString
        else if (roundcoords options <? 0) || (100 <? roundcoords options)
        then Throws RangeError_toFixed
        else
          let r := r_coord options in
          Returns
            (sconcat
               (("M " ++ r (fst (nth 0 simplified origin)) ++ " "
                      ++ r (snd (nth 0 simplified origin)))%string
                :: map (fun p => (" L " ++ r (fst p) ++ " " ++ r (snd p))%string)
                       (tl simplified)
                ++ [" Z"%string]))
    end.

(** The fill attribute [rgba(r,g,b,a/255)] of a layer colour. *)
Definition fill_of (c : color) : string :=
  ("rgba(" ++ Number_toString host (Z2F (col_r c)) ++ ","
     ++ Number_toString host (Z2F (col_g c)) ++ ","
     ++ Number_toString host (Z2F (col_b c)) ++ ","
     ++ Number_toString host (Z2F (col_a c) / 255)%float ++ ")")%string.

(** One [<path .../>] line. *)
Definition path_element (fill d : string) : string :=
  ("<path fill=" ++ dq ++ fill ++ dq ++ " d=" ++ dq ++ d ++ dq ++ "/>" ++ nl)%string.

(** The inner [for (const path of paths)]: the path elements of one layer,
    in order; a path whose [d] is empty emits nothing. *)
Fixpoint layer_elements (fill : string) (paths : list (list point))
    (options : Options) : outcome (list string) :=
  match paths with
  | [] => Returns []
  | path :: rest =>
      bind (pathToSvg path options) (fun d =>
      bind (layer_elements fill rest options) (fun elems =>
      Returns (if (String.length d =? 0)%nat then elems
               else path_element fill d :: elems)))
  end.

(** The outer [for (const layer of layers)]. *)
Fixpoint document_elements (layers : list Layer) (options : Options)
    : outcome (list string) :=
  match layers with
  | [] => Returns []
  | layer :: rest =>
      bind (layer_elements (fill_of (l_color layer))
              (tracePaths layer options) options) (fun here =>
      bind (document_elements rest options) (fun others =>
      Returns (here ++ others)))
  end.

Definition svg_header (w h : nat) (options : Options) : string :=
  let ws := Number_toString host (Math_round (Z2F (Z.of_nat w) * scale options)%float) in
  let hs := Number_toString host (Math_round (Z2F (Z.of_nat h) * scale options)%float) in
  ("<svg xmlns=" ++ dq ++ "http://www.w3.org/2000/svg" ++ dq
     ++ " width=" ++ dq ++ ws ++ dq ++ " height=" ++ dq ++ hs ++ dq
     ++ (if viewbox options
         then " viewBox=" ++ dq ++ "0 0 " ++ ws ++ " " ++ hs ++ dq
         else "")
     ++ ">" ++ nl
     ++ (if desc options then "<desc>Created with ATSVG</desc>" ++ nl else ""))%string.

Definition generateSvg (layers : list Layer) (w h : nat) (options : Options)
    : outcome string :=
  bind (document_elements layers options) (fun elems =>
  Returns (svg_header w h options ++ sconcat elems ++ "</svg>")%string).

(** *** Preprocessing: toGrayscale, toMonochrome, blur *)

(** The in-place loop body of toGrayscale at offset [i]. *)
Definition gray_step (d : list Z) (i : nat) : list Z :=
  let gray :=
    toUint8Clamp
      (Math_round (0.299 * rdF d i + 0.587 * rdF d (i + 1)
                   + 0.114 * rdF d (i + 2))%float) in
  wr (wr (wr d i gray) (i + 1) gray) (i + 2) gray.

Definition toGrayscale (d : list Z) : list Z :=
  fold_left gray_step (pixel_starts (length d)) d.

(** The in-place loop body of toMonochrome at offset [i]. *)
Definition mono_step (thr : float) (d : list Z) (i : nat) : list Z :=
  let gray :=
    (0.299 * rdF d i + 0.587 * rdF d (i + 1) + 0.114 * rdF d (i + 2))%float in
  let val := if PrimFloat.leb thr gray then 255 else 0 in
  wr (wr (wr d i val) (i + 1) val) (i + 2) val.

Definition toMonochrome (d : list Z) (thr : float) : list Z :=
  fold_left (mono_step thr) (pixel_starts (length d)) d.

(** The normalised kernel of blur, for an integral [radius >= 1]. *)
Definition blur_kernel (radius : Z) : list float :=
  let size := Z.to_nat (radius * 2 + 1) in
  let raw :=
    map (fun i =>
           let x := Z.of_nat i - radius in
           Math_exp host
             (PrimFloat.opp (Z2F (x * x)) / Z2F (2 * radius * radius))%float)
        (seq 0 size) in
  let sum := fold_left PrimFloat.add raw 0%float in
  map (fun v => (v / sum)%float) raw.

(** [Math.min(n - 1, Math.max(0, v))]. *)
Definition clamp_coord (n : Z) (v : Z) : Z := Z.min (n - 1) (Z.max 0 v).

(** [src[z]] as a number, at a computed offset. *)
Definition rdFZ (src : list Z) (z : Z) : float :=
  if z <? 0 then nan else rdF src (Z.to_nat z).

(** One channel's weighted sum: [c] is the channel offset 0..3, [idxs] the
    source offsets [idx] for [k = 0 .. size - 1]. *)
Definition weighted (src : list Z) (kernel : list float) (idxs : list Z)
    (c : Z) : float :=
  fold_left
    (fun (acc : float) (ki : nat * Z) =>
       PrimFloat.add acc
         (PrimFloat.mul (rdFZ src (snd ki + c)) (nth (fst ki) kernel nan)))
    (combine (seq 0 (length idxs)) idxs) 0%float.

(** Stores the four channel sums at pixel offset [idx] of [dst]. *)
Definition store_pixel (dst src : list Z) (kernel : list float)
    (idxs : list Z) (idx : Z) : list Z :=
  wrZ (wrZ (wrZ (wrZ dst idx (toUint8Clamp (weighted src kernel idxs 0)))
                (idx + 1) (toUint8Clamp (weighted src kernel idxs 1)))
           (idx + 2) (toUint8Clamp (weighted src kernel idxs 2)))
      (idx + 3) (toUint8Clamp (weighted src kernel idxs 3)).

(** The horizontal pass at pixel [(x, y)]: reads [src], writes [dst]. *)
Definition blur_h_at (w : nat) (radius : Z) (kernel : list float)
    (src dst : list Z) (xy : Z * Z) : list Z :=
  let wz := Z.of_nat w in
  let idxs :=
    map (fun k => (snd xy * wz + clamp_coord wz (fst xy + Z.of_nat k - radius)) * 4)
        (seq 0 (length kernel)) in
  store_pixel dst src kernel idxs ((snd xy * wz + fst xy) * 4).

(** The vertical pass at pixel [(x, y)]: reads [src], writes [dst]. *)
Definition blur_v_at (w h : nat) (radius : Z) (kernel : list float)
    (src dst : list Z) (xy : Z * Z) : list Z :=
  let wz := Z.of_nat w in
  let idxs :=
    map (fun k => (clamp_coord (Z.of_nat h) (snd xy + Z.of_nat k - radius) * wz + fst xy) * 4)
        (seq 0 (length kernel)) in
  store_pixel dst src kernel idxs ((snd xy * wz + fst xy) * 4).

(** [blur(imgd, radius)]: the contents of [imgd.data] when it returns.
    [output] is the copy [new Uint8ClampedArray(data)]; the horizontal pass
    reads [data] and writes [output], the vertical pass reads [output] and
    writes [data]. *)
Definition blur (imgd : ImageData) (radius : Z) : list Z :=
  if radius <? 1 then data imgd
  else
    let w := width imgd in
    let h := height imgd in
    let kernel := blur_kernel radius in
    let output :=
      fold_left (blur_h_at w radius kernel (data imgd)) (grid w h) (data imgd) in
    fold_left (blur_v_at w h radius kernel output) (grid w h) (data imgd).

(** *** trace *)

(** [trace(imgd, options)], with [options] already merged over
    [defaultOptions].  The first component is the contents of the caller's
    buffer [imgd.data] after the call, the second what the call returns.
    A [Throws] is an error the code runs into on every engine; an engine's
    own limits (the number of arguments [Math.max(...values)] may spread,
    the depth a recursion that ends may reach) are not modelled, as said in
    the conventions above. *)
Definition trace (imgd : ImageData) (options : Options)
    : list Z * outcome string :=
  let d1 :=
    if 0 <? blurradius options then blur imgd (blurradius options)
    else data imgd in
  let d2 :=
    match colorMode options with
    | ModeGrayscale => toGrayscale d1
    | ModeMonochrome => toMonochrome d1 (threshold options)
    | ModeColor => d1
    end in
  let opts :=
    match colorMode options with
    | ModeMonochrome =>
        mkOptions 2 (pathomit options) (ltres options) (scale options)
          (roundcoords options) (viewbox options) (desc options)
          (blurradius options) (colorMode options) (threshold options)
    | _ => options
    end in
  let img := mkImageData d2 (width imgd) (height imgd) in
  (d2,
   match quantize img opts with
   | None => OutOfFuel
   | Some palette =>
       generateSvg (layerSeparation (createIndexedImage img palette) palette)
         (width imgd) (height imgd) opts
   end).

End Emitter.

End ImageTracer.

(** * The Node library's tracer: class ImageTracer of src/examples/usage.js *)

Module NodeTracer.

(** A pixel pushed by getPalette, [{r, g, b}]. *)
Record pixel : Type := mkPixel { px_r : Z; px_g : Z; px_b : Z }.

(** A palette entry, [{r, g, b, count}]. *)
Record entry : Type := mkEntry { e_r : Z; e_g : Z; e_b : Z; count : Z }.

(** [traceMode]: ['grayscale'], ['monochrome'], or anything else
    (['color'], ['posterize']), for which trace keeps the bytes as they
    are. *)
Inductive TraceMode : Type := TraceColor | TraceGrayscale | TraceMonochrome.

(** The options trace reads ([blurRadius] and [pathSimplify] are stored by
    the constructor and never read). *)
Record Options : Type := mkOptions {
  colorCount : Z;
  threshold : float;
  traceMode : TraceMode
}.

Definition chan (ch : channel) (p : pixel) : Z :=
  match ch with Cr => px_r p | Cg => px_g p | Cb => px_b p end.

(** The [while (buckets.length < numColors)] loop; a split needs one unit
    of [fuel], and [None] means the fuel ran out. *)
Fixpoint quantizeColors_loop (fuel : nat) (numColors : Z)
    (buckets : list (list pixel)) : option (list (list pixel)) :=
  if Z.of_nat (length buckets) <? numColors
  then
    match split_step chan buckets with
    | None => Some buckets
    | Some buckets' =>
        match fuel with
        | O => None
        | S fuel' => quantizeColors_loop fuel' numColors buckets'
        end
    end
  else Some buckets.

Definition sum_by (f : pixel -> Z) (bucket : list pixel) : Z :=
  fold_left (fun acc p => acc + f p) bucket 0.

Definition bucket_average (bucket : list pixel) : entry :=
  if (length bucket =? 0)%nat then mkEntry 0 0 0 0
  else
    let n := Z.of_nat (length bucket) in
    mkEntry (round_div (sum_by px_r bucket) n) (round_div (sum_by px_g bucket) n)
            (round_div (sum_by px_b bucket) n) n.

Definition quantizeColors (pixels : list pixel) (numColors : Z)
    : option (list entry) :=
  if (length pixels =? 0)%nat || (numColors <? 1)
  then Some [mkEntry 128 128 128 0]
  else
    option_map
      (fun buckets => filter (fun c => 0 <? count c) (map bucket_average buckets))
      (quantizeColors_loop (length pixels) numColors [pixels]).

(** The body of getPalette's loop at offset [i]. *)
Definition getPalette_push (d : list Z) (i : nat) : list pixel :=
  match rd d (i + 3) with
  | Some a =>
      if 128 <? a
      then [mkPixel (nth i d 0) (nth (i + 1) d 0) (nth (i + 2) d 0)]
      else []
  | None => []
  end.

Definition getPalette_pixels (d : list Z) : list pixel :=
  flat_map (getPalette_push d) (pixel_starts (length d)).

Definition getPalette (d : list Z) (width height : nat) (numColors : Z)
    : option (list entry) :=
  quantizeColors (getPalette_pixels d) numColors.

(** *** mapToPalette *)

(** The value an [Int16Array] keeps of a stored integer. *)
Definition store16 (v : Z) : Z := (v + 32768) mod 65536 - 32768.

Definition dist2 (r g b : option Z) (c : entry) : option Z :=
  match r, g, b with
  | Some r, Some g, Some b =>
      Some ((r - e_r c) * (r - e_r c) + (g - e_g c) * (g - e_g c)
            + (b - e_b c) * (b - e_b c))
  | _, _, _ => None
  end.

Definition nearest_step (r g b : option Z) (st : option Z * nat)
    (jc : nat * entry) : option Z * nat :=
  match dist2 r g b (snd jc) with
  | None => st
  | Some dist =>
      match fst st with
      | None => (Some dist, fst jc)
      | Some minDist => if dist <? minDist then (Some dist, fst jc) else st
      end
  end.

Definition nearest (palette : list entry) (r g b : option Z) : nat :=
  snd (fold_left (nearest_step r g b)
         (combine (seq 0 (length palette)) palette) (None, 0%nat)).

(** The value stored for the pixel at offset [i]. *)
Definition pixel_index (d : list Z) (palette : list entry) (i : nat) : Z :=
  match rd d (i + 3) with
  | Some a =>
      if a <? 128 then -1
      else Z.of_nat (nearest palette (rd d i) (rd d (i + 1)) (rd d (i + 2)))
  | None => Z.of_nat (nearest palette (rd d i) (rd d (i + 1)) (rd d (i + 2)))
  end.

Definition mapToPalette (d : list Z) (palette : list entry) : list Z :=
  fold_left
    (fun indexed i => wr indexed (i / 4) (store16 (pixel_index d palette i)))
    (pixel_starts (length d)) (repeat 0 (length d / 4)%nat).

(** *** simplifyPath *)

Definition getSqSegDist (p p1 p2 : point) : float :=
  let px := Z2F (fst p) in
  let py := Z2F (snd p) in
  let x := Z2F (fst p1) in
  let y := Z2F (snd p1) in
  let dx := (Z2F (fst p2) - x)%float in
  let dy := (Z2F (snd p2) - y)%float in
  let xy :=
    if negb (PrimFloat.eqb dx 0) || negb (PrimFloat.eqb dy 0)
    then
      let t := (((px - x) * dx + (py - y) * dy) / (dx * dx + dy * dy))%float in
      if PrimFloat.ltb 1 t then (Z2F (fst p2), Z2F (snd p2))
      else if PrimFloat.ltb 0 t then ((x + dx * t)%float, (y + dy * t)%float)
      else (x, y)
    else (x, y) in
  ((px - fst xy) * (px - fst xy) + (py - snd xy) * (py - snd xy))%float.

(** The scan of simplifyDPStep: [(maxSqDist, index)] after
    [for (let i = first + 1; i < last; i++)]. *)
Definition dp_scan_step (points : list point) (first last : nat)
    (st : float * nat) (i : nat) : float * nat :=
  let sqDist :=
    getSqSegDist (nth i points origin) (nth first points origin)
      (nth last points origin) in
  if PrimFloat.ltb (fst st) sqDist then (sqDist, i) else st.

Definition dp_scan (points : list point) (first last : nat) (sqTolerance : float)
    : float * nat :=
  fold_left (dp_scan_step points first last)
    (seq (first + 1) (last - first - 1)) (sqTolerance, 0%nat).

(** simplifyDPStep, threading the array [simplified] it pushes to; one
    unit of [fuel] per nested call. *)
Fixpoint simplifyDPStep (fuel : nat) (points : list point) (first last : nat)
    (sqTolerance : float) (simplified : list point) : option (list point) :=
  match fuel with
  | O => None
  | S fuel' =>
      let st := dp_scan points first last sqTolerance in
      let index := snd st in
      if PrimFloat.ltb sqTolerance (fst st)
      then
        match (if (1 <? index - first)%nat
               then simplifyDPStep fuel' points first index sqTolerance simplified
               else Some simplified) with
        | None => None
        | Some s1 =>
            let s2 := s1 ++ [nth index points origin] in
            if (1 <? last - index)%nat
            then simplifyDPStep fuel' points index last sqTolerance s2
            else Some s2
        end
      else Some simplified
  end.

Definition simplifyPath (path : list point) (tolerance : float)
    : option (list point) :=
  if (length path <=? 2)%nat then Some path
  else
    let last := (length path - 1)%nat in
    option_map (fun simplified => simplified ++ [nth last path origin])
      (simplifyDPStep (length path) path 0 last (tolerance * tolerance)%float
         [nth 0 path origin]).

(** *** toGrayscale and toMonochrome: both fill a new array *)

Definition gray_step (d : list Z) (result : list Z) (i : nat) : list Z :=
  let gray :=
    toUint8Clamp
      (Math_round (0.299 * rdF d i + 0.587 * rdF d (i + 1)
                   + 0.114 * rdF d (i + 2))%float) in
  wr (wr (wr (wr result i gray) (i + 1) gray) (i + 2) gray) (i + 3)
     (toUint8Clamp (rdF d (i + 3))).

Definition toGrayscale (d : list Z) : list Z :=
  fold_left (gray_step d) (pixel_starts (length d)) (repeat 0 (length d)).

Definition mono_step (d : list Z) (thr : float) (result : list Z) (i : nat)
    : list Z :=
  let gray :=
    (0.299 * rdF d i + 0.587 * rdF d (i + 1) + 0.114 * rdF d (i + 2))%float in
  let val := if PrimFloat.ltb thr gray then 255 else 0 in
  wr (wr (wr (wr result i val) (i + 1) val) (i + 2) val) (i + 3)
     (toUint8Clamp (rdF d (i + 3))).

Definition toMonochrome (d : list Z) (thr : float) : list Z :=
  fold_left (mono_step d thr) (pixel_starts (length d)) (repeat 0 (length d)).

(** *** createColorRects and mergeRects *)

Record rect : Type := mkRect { rc_x : Z; rc_y : Z; rc_w : Z; rc_h : Z }.

(** The inner loop body at column [x] of row [y], on [(rects, runStart)]. *)
Definition run_step (indexed : list Z) (width : nat) (colorIdx : Z) (y : nat)
    (st : list rect * Z) (x : nat) : list rect * Z :=
  let isColor :=
    (x <? width)%nat
    && match nth_error indexed (y * width + x) with
       | Some v => v =? colorIdx
       | None => false
       end in
  if isColor && (snd st =? -1) then (fst st, Z.of_nat x)
  else if negb isColor && negb (snd st =? -1)
  then (fst st ++ [mkRect (snd st) (Z.of_nat y) (Z.of_nat x - snd st) 1], -1)
  else st.

Definition row_rects (indexed : list Z) (width : nat) (colorIdx : Z)
    (rects : list rect) (y : nat) : list rect :=
  fst (fold_left (run_step indexed width colorIdx y) (seq 0 (width + 1))
         (rects, -1)).

(** [rects.sort((a, b) => a.y - b.y || a.x - b.x)]: stable, by row then
    column. *)
Definition rect_le (a b : rect) : bool :=
  (rc_y a <? rc_y b) || ((rc_y a =? rc_y b) && (rc_x a <=? rc_x b)).

Fixpoint insert_rect (a : rect) (l : list rect) : list rect :=
  match l with
  | [] => [a]
  | b :: l' => if rect_le a b then a :: l else b :: insert_rect a l'
  end.

Definition sort_rects (l : list rect) : list rect :=
  fold_right insert_rect [] l.

(** The merge loop body, on [(merged, current)]. *)
Definition merge_step (st : list rect * rect) (rc : rect)
    : list rect * rect :=
  let current := snd st in
  if (rc_x rc =? rc_x current) && (rc_w rc =? rc_w current)
     && (rc_y rc =? rc_y current + rc_h current)
  then (fst st, mkRect (rc_x current) (rc_y current) (rc_w current)
                  (rc_h current + rc_h rc))
  else (fst st ++ [current], rc).

Definition mergeRects (rects : list rect) : list rect :=
  match sort_rects rects with
  | [] => []
  | first :: rest =>
      let st := fold_left merge_step rest ([], first) in
      fst st ++ [snd st]
  end.

Definition createColorRects (indexed : list Z) (width height : nat)
    (colorIdx : nat) : list rect :=
  mergeRects
    (fold_left (row_rects indexed width (Z.of_nat colorIdx)) (seq 0 height) []).

(** *** trace *)

Section Emitter.

Variable host : JsHost.

Definition num (z : Z) : string := Number_toString host (Z2F z).

Definition rect_element (rc : rect) : string :=
  ("    <rect x=" ++ dq ++ num (rc_x rc) ++ dq ++ " y=" ++ dq ++ num (rc_y rc)
     ++ dq ++ " width=" ++ dq ++ num (rc_w rc) ++ dq ++ " height=" ++ dq
     ++ num (rc_h rc) ++ dq ++ "/>" ++ nl)%string.

Definition rect_path_data (rc : rect) : string :=
  ("M" ++ num (rc_x rc) ++ " " ++ num (rc_y rc) ++ "h" ++ num (rc_w rc)
     ++ "v" ++ num (rc_h rc) ++ "h" ++ num (- rc_w rc) ++ "z")%string.

(** The group emitted for palette entry [i], or nothing when it has no
    rectangle. *)
Definition color_group (indexed : list Z) (width height : nat)
    (palette : list entry) (i : nat) : string :=
  let c := nth i palette (mkEntry 0 0 0 0) in
  let rects := createColorRects indexed width height i in
  if (0 <? length rects)%nat
  then
    ("  <g fill=" ++ dq ++ "rgb(" ++ num (e_r c) ++ "," ++ num (e_g c) ++ ","
       ++ num (e_b c) ++ ")" ++ dq ++ " shape-rendering=" ++ dq ++ "crispEdges"
       ++ dq ++ ">" ++ nl
       ++ (if (100 <? length rects)%nat
           then "    <path d=" ++ dq ++ sconcat (map rect_path_data rects)
                  ++ dq ++ "/>" ++ nl
           else sconcat (map rect_element rects))
       ++ "  </g>" ++ nl)%string
  else EmptyString.

(** [trace(data, width, height, options)], with [options] already merged
    over the constructor's.  The first component is the contents of the
    caller's [data] after the call (trace only reads it).  The code has no
    [throw] and no recursion on this path; an engine's limit on the
    arguments [Math.min(...values)] may spread is not modelled. *)
Definition trace (d : list Z) (width height : nat) (opts : Options)
    : list Z * outcome string :=
  let processedData :=
    match traceMode opts with
    | TraceGrayscale => toGrayscale d
    | TraceMonochrome => toMonochrome d (threshold opts)
    | TraceColor => d
    end in
  let numColors :=
    match traceMode opts with
    | TraceMonochrome => 2
    | _ => colorCount opts
    end in
  (d,
   match getPalette processedData width height numColors with
   | None => OutOfFuel
   | Some palette =>
       let indexed := mapToPalette processedData palette in
       let ws := num (Z.of_nat width) in
       let hs := num (Z.of_nat height) in
       Returns
         ("<svg xmlns=" ++ dq ++ "http://www.w3.org/2000/svg" ++ dq
            ++ " width=" ++ dq ++ ws ++ dq ++ " height=" ++ dq ++ hs ++ dq
            ++ " viewBox=" ++ dq ++ "0 0 " ++ ws ++ " " ++ hs ++ dq ++ ">" ++ nl
            ++ "  <title>Traced with ATSVG</title>" ++ nl
            ++ sconcat (map (color_group indexed width height palette)
                          (seq 0 (length palette)))
            ++ "</svg>")%string
   end).

End Emitter.

End NodeTracer.

(** * The converters

    [Converter] is the browser converter of [src/js/converter.js], the
    caller of the engine above; [NodeConverter] is the class
    [ATSVGConverter] of the Node library ([src/examples/usage.js]), the
    caller of [NodeTracer].  Only their pure parts are modelled: the
    background removal loop, the options traceToSVG builds for the engine,
    and the text escaping of renderPDFPage.  Decoding, canvases, Sharp,
    PDF.js and Mammoth are outside the repository. *)

(** [v >= threshold] for a byte read from the buffer; [undefined >= t] is
    false. *)
Definition at_least (v : option Z) (threshold : Z) : bool :=
  match v with
  | Some v => threshold <=? v
  | None => false
  end.

(** The loop body shared by removeWhiteBackground (converter.js) and
    removeWhiteBackgroundSharp (usage.js), at offset [i]. *)
Definition clear_white_step (threshold : Z) (d : list Z) (i : nat) : list Z :=
  if at_least (rd d i) threshold && at_least (rd d (i + 1)) threshold
     && at_least (rd d (i + 2)) threshold
  then wr d (i + 3) 0
  else d.

Module Converter.

(** [removeWhiteBackground(ctx, width, height, tolerance)]: the contents of
    the image data it puts back on the canvas, [data] being what
    [getImageData] returned.  The tolerance is an integer (the application
    parses it with [parseInt]). *)
Definition removeWhiteBackground (data : list Z) (tolerance : Z) : list Z :=
  fold_left (clear_white_step (255 - tolerance)) (pixel_starts (length data)) data.

(** The [traceMode] key of the converter's options: the three values
    traceToSVG's [switch] names, or anything else (the default case). *)
Inductive TraceModeName : Type :=
| NameGrayscale | NameMonochrome | NamePosterize | NameOther.

(** The keys of the converter's options that traceToSVG reads.  A number
    key is [None] when it is absent, [undefined] or NaN; [colorCount] and
    [blurRadius] are integers (the application parses them with
    [parseInt]). *)
Record Options : Type := mkOptions {
  colorCount : option Z;
  blurRadius : option Z;
  pathSimplify : option float;
  threshold : option float;
  addViewBox : bool;
  preserveMetadata : bool;
  traceMode : TraceModeName
}.

(** [v || dflt] on an integer: 0, NaN and [undefined] are falsy. *)
Definition or_default (v : option Z) (dflt : Z) : Z :=
  match v with
  | Some v => if v =? 0 then dflt else v
  | None => dflt
  end.

(** [v || dflt] on a number with a fraction: +0, -0 and NaN are falsy. *)
Definition or_default_float (v : option float) (dflt : float) : float :=
  match v with
  | Some v =>
      if PrimFloat.eqb v 0 || negb (PrimFloat.eqb v v) then dflt else v
  | None => dflt
  end.

(** The object [traceOptions] after the [switch], merged over the
    engine's [defaultOptions] as trace does ([pathomit] and [roundcoords]
    are not set by the converter). *)
Definition traceOptions (options : Options) : ImageTracer.Options :=
  ImageTracer.mkOptions
    match traceMode options with
    | NamePosterize => Z.min (or_default (colorCount options) 8) 8
    | _ => or_default (colorCount options) 16
    end
    (ImageTracer.pathomit ImageTracer.defaultOptions)
    (or_default_float (pathSimplify options) 1)
    1%float
    (ImageTracer.roundcoords ImageTracer.defaultOptions)
    (addViewBox options)
    (preserveMetadata options)
    (or_default (blurRadius options) 0)
    match traceMode options with
    | NameGrayscale => ImageTracer.ModeGrayscale
    | NameMonochrome => ImageTracer.ModeMonochrome
    | _ => ImageTracer.ModeColor
    end
    (or_default_float (threshold options) 128).

(** [traceToSVG(canvas, options)], that is
    [ImageTracer.traceCanvas(canvas, traceOptions)]: [canvas] is the image
    data [getImageData] returns for the whole canvas.  The result is that
    image data's buffer after the call and what the call returns. *)
Definition traceToSVG (host : JsHost) (canvas : ImageTracer.ImageData)
    (options : Options) : list Z * outcome string :=
  ImageTracer.trace host canvas (traceOptions options).

End Converter.

Module NodeConverter.

(** [removeWhiteBackgroundSharp(image, tolerance)]: the raw buffer handed
    back to Sharp, [data] being the raw RGBA buffer of the image.  The
    tolerance is an integer (the command line parses it with
    [parseInt]). *)
Definition removeWhiteBackgroundSharp (data : list Z) (tolerance : Z) : list Z :=
  fold_left (clear_white_step (255 - tolerance)) (pixel_starts (length data)) data.

(** [s.replace(/c/g, r)] for a pattern of one literal character.  A
    string is its sequence of bytes; the four characters replaced below
    are ASCII, so the bytes of every other character pass unchanged. *)
Fixpoint replace_all (c : ascii) (r : string) (s : string) : string :=
  match s with
  | EmptyString => EmptyString
  | String a s' =>
      if Ascii.eqb a c then (r ++ replace_all c r s')%string
      else String a (replace_all c r s')
  end.

Definition quote_char : ascii := ascii_of_nat 34.

(** The local [text] of renderPDFPage: the four chained [replace] calls
    on [item.str]. *)
Definition escaped_text (str : string) : string :=
  replace_all quote_char "&quot;"
    (replace_all ">" "&gt;"
       (replace_all "<" "&lt;" (replace_all "&" "&amp;" str))).

End NodeConverter.

(** * Vocabulary of the statements *)

Definition rgb_of (p : color) : Z * Z * Z := (col_r p, col_g p, col_b p).

Definition rgb_eq_dec (u v : Z * Z * Z) : {u = v} + {u <> v}.
Proof. repeat decide equality. Defined.

(** The number of distinct RGB triples among the pixels, [key] giving a
    pixel's triple. *)
Definition distinct_by {P : Type} (key : P -> Z * Z * Z) (pixels : list P)
    : nat :=
  length (nodup rgb_eq_dec (map key pixels)).

Definition distinct_colors (pixels : list color) : nat :=
  distinct_by rgb_of pixels.

(** The pixel stored at position [k] of a buffer, and its alpha. *)
Definition pixel_at (d : list Z) (k : nat) : color :=
  mkColor (nth (4 * k) d 0) (nth (4 * k + 1) d 0) (nth (4 * k + 2) d 0)
          (nth (4 * k + 3) d 0).

Definition alpha_at (d : list Z) (k : nat) : option Z := rd d (4 * k + 3).

(** The pixels of a buffer whose alpha is above [cutoff], in buffer
    order: the spec's "opaque pixels (alpha above cutoff)". *)
Definition pixels_above (cutoff : Z) (d : list Z) : list color :=
  map (pixel_at d)
    (filter (fun k => match alpha_at d k with
                      | Some a => cutoff <? a
                      | None => false
                      end)
       (seq 0 ((length d + 3) / 4))).

(** [arr[j] === c]. *)
Definition hits (c : Z) (arr : list Z) (j : nat) : bool :=
  match nth_error arr j with
  | Some v => v =? c
  | None => false
  end.

(** A set pixel none of whose four neighbours is set. *)
Definition isolated (layer : ImageTracer.Layer) (x y : Z) : bool :=
  ImageTracer.truthy (ImageTracer.getPixel layer x y)
  && negb (ImageTracer.truthy (ImageTracer.getPixel layer (x - 1) y))
  && negb (ImageTracer.truthy (ImageTracer.getPixel layer (x + 1) y))
  && negb (ImageTracer.truthy (ImageTracer.getPixel layer x (y - 1)))
  && negb (ImageTracer.truthy (ImageTracer.getPixel layer x (y + 1))).

(** Some four-neighbour of [q] is set. *)
Definition has_set_neighbour (layer : ImageTracer.Layer) (q : point) : bool :=
  ImageTracer.truthy (ImageTracer.getPixel layer (fst q - 1) (snd q))
  || ImageTracer.truthy (ImageTracer.getPixel layer (fst q + 1) (snd q))
  || ImageTracer.truthy (ImageTracer.getPixel layer (fst q) (snd q - 1))
  || ImageTracer.truthy (ImageTracer.getPixel layer (fst q) (snd q + 1)).

(** The path passes through the pixel [(x, y)]. *)
Definition passes_through (x y : Z) (path : list point) : bool :=
  existsb (fun q => (fst q =? x) && (snd q =? y)) path.

(** Pixel [i] is set in the mask of layer [L]. *)
Definition in_layer (i : nat) (L : ImageTracer.Layer) : bool :=
  nth i (ImageTracer.l_array L) 0 =? 1.

(** What a returned simplification looks like, whatever the tolerance. *)
Definition simplified_of (points r : list point) : Prop :=
  (length r <= length points)%nat /\
  ((length points <= 2)%nat -> r = points) /\
  ((2 <= length points)%nat ->
   (2 <= length r)%nat /\ nth 0 r origin = nth 0 points origin /\
   last r origin = last points origin).

(** The triple of a pixel pushed by getPalette. *)
Definition rgb_of_pixel (p : NodeTracer.pixel) : Z * Z * Z :=
  (NodeTracer.px_r p, NodeTracer.px_g p, NodeTracer.px_b p).

(** The pixel getPalette pushes for a buffer pixel: its alpha is dropped. *)
Definition pixel_of_color (c : color) : NodeTracer.pixel :=
  NodeTracer.mkPixel (col_r c) (col_g c) (col_b c).

(** The invariant the scan keeps: a positive [maxRange] is the range of
    channel [maxChannel] of box [maxBox], a box of two or more pixels. *)
Definition scan_inv (P : Type) (get : channel -> P -> Z)
    (boxes : list (list P)) (st : Z * nat * channel) : Prop :=
  0 <= fst (fst st) /\
  (0 < fst (fst st) ->
   exists box, nth_error boxes (snd (fst st)) = Some box /\
               (2 <= length box)%nat /\
               channel_range get (snd st) box = fst (fst st)).

(** A box that holds a pixel. *)
Definition nonempty (P : Type) (box : list P) : Prop := box <> [].

(** The options with the blur switched off. *)
Definition without_blur (o : ImageTracer.Options) : ImageTracer.Options :=
  ImageTracer.mkOptions (ImageTracer.numberofcolors o) (ImageTracer.pathomit o)
    (ImageTracer.ltres o) (ImageTracer.scale o) (ImageTracer.roundcoords o)
    (ImageTracer.viewbox o) (ImageTracer.desc o) 0 (ImageTracer.colorMode o)
    (ImageTracer.threshold o).

(** Two option records that the tracer and the emitter cannot tell
    apart. *)
Definition same_emitter (o1 o2 : ImageTracer.Options) : Prop :=
  ImageTracer.pathomit o1 = ImageTracer.pathomit o2 /\
  ImageTracer.ltres o1 = ImageTracer.ltres o2 /\
  ImageTracer.scale o1 = ImageTracer.scale o2 /\
  ImageTracer.roundcoords o1 = ImageTracer.roundcoords o2 /\
  ImageTracer.viewbox o1 = ImageTracer.viewbox o2 /\
  ImageTracer.desc o1 = ImageTracer.desc o2.

(** The pixel [(x, y)] that byte [j] of a buffer belongs to, in an image
    [w] pixels wide. *)
Definition pixel_of (w : nat) (j : nat) : Z * Z :=
  (Z.of_nat ((j / 4) mod w), Z.of_nat ((j / 4) / w)).

(** The offsets of the pixels a blur of radius [radius] weighs for the
    pixel [(x, y)]: the neighbours along the row, columns clamped to the
    image, and the neighbours along the column, rows clamped. *)
Definition row_taps (w : nat) (radius : Z) (xy : Z * Z) : list Z :=
  map (fun k =>
         (snd xy * Z.of_nat w
          + ImageTracer.clamp_coord (Z.of_nat w) (fst xy + Z.of_nat k - radius)) * 4)
      (seq 0 (Z.to_nat (radius * 2 + 1))).

Definition column_taps (w h : nat) (radius : Z) (xy : Z * Z) : list Z :=
  map (fun k =>
         (ImageTracer.clamp_coord (Z.of_nat h) (snd xy + Z.of_nat k - radius)
          * Z.of_nat w + fst xy) * 4)
      (seq 0 (Z.to_nat (radius * 2 + 1))).

(** The number of the pixel at a grid position, and the body of either
    pass of blur at that position: the four stores of the weighted sums. *)
Definition number (w : nat) (xy : Z * Z) : nat :=
  Z.to_nat (snd xy * Z.of_nat w + fst xy).

Definition pass_at (w : nat) (src : list Z) (kernel : list float)
    (taps : Z * Z -> list Z) (dst : list Z) (xy : Z * Z) : list Z :=
  ImageTracer.store_pixel dst src kernel (taps xy)
    ((snd xy * Z.of_nat w + fst xy) * 4).

(** One pass of the blur, byte by byte: byte [j] of a pixel of the grid is
    the weighted sum over the pixel's taps of the same channel of [src],
    stored as a clamped byte; a byte past the grid is the byte of [dst]. *)
Definition blur_pass (host : JsHost) (taps : Z * Z -> list Z) (w h : nat)
    (radius : Z) (src dst : list Z) : list Z :=
  map (fun j =>
         if (j / 4 <? w * h)%nat
         then toUint8Clamp
                (ImageTracer.weighted src (ImageTracer.blur_kernel host radius)
                   (taps (pixel_of w j)) (Z.of_nat (j mod 4)))
         else nth j dst 0)
      (seq 0 (length dst)).

(** The blurred image: the pass along the columns of the pass along the
    rows of the original bytes. *)
Definition blurred (host : JsHost) (imgd : ImageTracer.ImageData) (radius : Z)
    : list Z :=
  let w := ImageTracer.width imgd in
  let h := ImageTracer.height imgd in
  let d := ImageTracer.data imgd in
  blur_pass host (column_taps w h radius) w h radius
    (blur_pass host (row_taps w radius) w h radius d d) d.

(** The [d] attribute of the contour down column [x] of a two-row image:
    from [(x, 0)] to [(x, 1)] and closed. *)
Definition column_contour (host : JsHost) (options : ImageTracer.Options)
    (x : Z) : string :=
  let r := ImageTracer.r_coord host options in
  sconcat [("M " ++ r x ++ " " ++ r 0)%string;
           (" L " ++ r x ++ " " ++ r 1)%string; " Z"%string].

(** ** A host and inputs for the examples *)

(** The Taylor series of the exponential, in binary64; blur only passes
    arguments in [-1/2, 0], where the series is accurate to the last
    digits. *)
Definition exp_series (x : float) : float :=
  fold_right (fun n acc => (1 + x / Z2F (Z.of_nat n) * acc)%float) 1%float
             (seq 1 24).

Definition show_Z (z : Z) : string := NilZero.string_of_int (Z.to_int z).

Fixpoint zeros (k : nat) : string :=
  match k with
  | O => EmptyString
  | S k' => String "0"%char (zeros k')
  end.

(** The decimal digits of [n / 10^d] with [d] fractional digits. *)
Definition fixed_digits (n : Z) (d : Z) : string :=
  let k := Z.to_nat d in
  let s := show_Z n in
  let s := (zeros (S k - String.length s) ++ s)%string in
  if (k =? 0)%nat then s
  else (substring 0 (String.length s - k) s ++ "."
          ++ substring (String.length s - k) k s)%string.

(** [x.toFixed(d)] for a finite [x] below 10^21: the nearest multiple of
    [10^-d] to the exact value of [x], the larger one on a tie. *)
Definition exact_toFixed (x : float) (d : Z) : string :=
  match Prim2SF x with
  | S754_nan => "NaN"%string
  | S754_infinity s => if s then "-Infinity"%string else "Infinity"%string
  | S754_zero _ => fixed_digits 0 d
  | S754_finite s m e =>
      let num := if 0 <=? e then Z.pos m * 2 ^ e else Z.pos m in
      let den := if 0 <=? e then 1 else 2 ^ (- e) in
      ((if s then "-" else "")
         ++ fixed_digits ((2 * num * 10 ^ d + den) / (2 * den)) d)%string
  end.

(** Number-to-string on integral values; a value with a fraction is
    printed with six decimals, which is not ECMAScript's shortest form
    (no statement below prints one). *)
Definition show_number (x : float) : string :=
  match Prim2SF x with
  | S754_finite s m e =>
      if 0 <=? e then show_Z ((if s then -1 else 1) * Z.pos m * 2 ^ e)
      else if Z.pos m mod 2 ^ (- e) =? 0
      then show_Z ((if s then -1 else 1) * (Z.pos m / 2 ^ (- e)))
      else exact_toFixed x 6
  | S754_zero _ => "0"%string
  | _ => exact_toFixed x 0
  end.

Definition host0 : JsHost := mkJsHost exp_series show_number exact_toFixed.

Definition red_px : list Z := [255; 0; 0; 255].
Definition blue_px : list Z := [0; 0; 255; 255].
Definition red : color := mkColor 255 0 0 255.
Definition blue : color := mkColor 0 0 255 255.

(** The 2x2 buffer with a red left column and a blue right column. *)
Definition scenario_image : ImageTracer.ImageData :=
  ImageTracer.mkImageData (red_px ++ blue_px ++ red_px ++ blue_px) 2 2.

(** colorCount 2, scale 1, precision 0, the rest at the defaults, with the
    minimum path length as a parameter (8 by default). *)
Definition scenario_with (pathomit : Z) : ImageTracer.Options :=
  ImageTracer.mkOptions 2 pathomit 1%float 1%float 0 false false 0
    ImageTracer.ModeColor 128%float.

Definition scenario_options : ImageTracer.Options := scenario_with 8.

Definition blue_layer : ImageTracer.Layer :=
  ImageTracer.mkLayer [0; 1; 0; 1] 2 2 blue.

Definition red_layer : ImageTracer.Layer :=
  ImageTracer.mkLayer [1; 0; 1; 0] 2 2 red.

(** A 1x1 image carrying 8 bytes, and a 2x2 image carrying 4. *)
Definition long_image : ImageTracer.ImageData :=
  ImageTracer.mkImageData (red_px ++ blue_px) 1 1.

Definition short_image : ImageTracer.ImageData :=
  ImageTracer.mkImageData red_px 2 2.

(** A fully transparent 1x1 image, and one translucent pixel (alpha 64). *)
Definition transparent_image : ImageTracer.ImageData :=
  ImageTracer.mkImageData [10; 20; 30; 0] 1 1.

Definition translucent_image : ImageTracer.ImageData :=
  ImageTracer.mkImageData [10; 20; 30; 64] 1 1.

(** Three black pixels and a red one: two distinct colours. *)
Definition three_black_one_red : list color :=
  [mkColor 0 0 0 255; mkColor 0 0 0 255; mkColor 0 0 0 255; mkColor 255 0 0 255].

(** Three collinear points, and a 5x1 opaque red row traced with a
    negative tolerance. *)
Definition collinear3 : list point := [(0, 0); (1, 0); (2, 0)].

Definition row5_image : ImageTracer.ImageData :=
  ImageTracer.mkImageData (red_px ++ red_px ++ red_px ++ red_px ++ red_px) 5 1.

Definition negative_tolerance_options : ImageTracer.Options :=
  ImageTracer.mkOptions 16 8 (-1)%float 1%float 1 false false 0
    ImageTracer.ModeColor 128%float.

(** The scenario's options with a blur of radius 1. *)
Definition blur_options : ImageTracer.Options :=
  ImageTracer.mkOptions 2 8 1%float 1%float 0 false false 1
    ImageTracer.ModeColor 128%float.

(** A 3x3 mask whose only set pixel is the centre. *)
Definition dot_layer : ImageTracer.Layer :=
  ImageTracer.mkLayer [0; 0; 0; 0; 1; 0; 0; 0; 0] 3 3 red.

(** ** Vocabulary of the further properties *)

(** The four fields of a colour record. *)
Definition color_fields : list (color -> Z) := [col_r; col_g; col_b; col_a].

(** The three fields of a pixel pushed by getPalette, and of an entry. *)
Definition pixel_fields : list ((NodeTracer.pixel -> Z) * (NodeTracer.entry -> Z)) :=
  [(NodeTracer.px_r, NodeTracer.e_r); (NodeTracer.px_g, NodeTracer.e_g);
   (NodeTracer.px_b, NodeTracer.e_b)].

(** The triple of a palette entry of usage.js. *)
Definition rgb_of_entry (e : NodeTracer.entry) : Z * Z * Z :=
  (NodeTracer.e_r e, NodeTracer.e_g e, NodeTracer.e_b e).

(** The squared distance of the colour [(r, g, b)] to a triple. *)
Definition sqdist (r g b : Z) (t : Z * Z * Z) : Z :=
  (r - fst (fst t)) * (r - fst (fst t))
  + (g - snd (fst t)) * (g - snd (fst t))
  + (b - snd t) * (b - snd t).

(** [j] is the first position of [triples] at the least squared distance
    from [(r, g, b)]: the palette entry a linear search with a strict
    comparison settles on. *)
Definition first_nearest (r g b : Z) (triples : list (Z * Z * Z)) (j : nat)
    : Prop :=
  (j < length triples)%nat /\
  (forall k, (k < length triples)%nat ->
     sqdist r g b (nth j triples (0, 0, 0))
     <= sqdist r g b (nth k triples (0, 0, 0))) /\
  (forall k, (k < j)%nat ->
     sqdist r g b (nth j triples (0, 0, 0))
     < sqdist r g b (nth k triples (0, 0, 0))).

(** The invariant of the palette search after the entries [pre], for a
    distance [D]: the state [(minDist, index)] is still the initial one, or
    [index] is the first position of [pre] at the least distance
    [minDist]. *)
Definition search_inv {A : Type} (D : A -> Z) (d0 : A) (pre : list A)
    (st : option Z * nat) : Prop :=
  match fst st with
  | None => pre = [] /\ snd st = 0%nat
  | Some m =>
      (snd st < length pre)%nat /\ D (nth (snd st) pre d0) = m /\
      (forall k, (k < length pre)%nat -> m <= D (nth k pre d0)) /\
      (forall k, (k < snd st)%nat -> m < D (nth k pre d0))
  end.

(** The rectangle [rc] covers the pixel [(x, y)]. *)
Definition covers (rc : NodeTracer.rect) (x y : Z) : bool :=
  (NodeTracer.rc_x rc <=? x) && (x <? NodeTracer.rc_x rc + NodeTracer.rc_w rc)
  && (NodeTracer.rc_y rc <=? y) && (y <? NodeTracer.rc_y rc + NodeTracer.rc_h rc).

(** How many of the rectangles cover the pixel [(x, y)]. *)
Definition cover_count (rects : list NodeTracer.rect) (x y : Z) : nat :=
  length (filter (fun rc => covers rc x y) rects).

(** The pixel in column [x] of row [y] exists and is indexed [c]. *)
Definition cell (indexed : list Z) (width : nat) (c : Z) (x y : nat) : bool :=
  (x <? width)%nat && hits c indexed (y * width + x).

(** The same at integer coordinates, inside a [width] x [height] grid. *)
Definition cell_in (indexed : list Z) (width height : nat) (c : Z) (x y : Z)
    : bool :=
  (0 <=? x) && (0 <=? y) && (y <? Z.of_nat height)
  && cell indexed width c (Z.to_nat x) (Z.to_nat y).

(** The state of the run-length loop on row [y] before column [n]: the
    rectangles [new] pushed for this row cover exactly the matching pixels
    left of the open run (or left of [n] when no run is open), and an open
    run holds only matching pixels. *)
Definition run_inv (indexed : list Z) (width : nat) (c : Z) (y n : nat)
    (new : list NodeTracer.rect) (run : Z) : Prop :=
  Forall (fun rc => NodeTracer.rc_h rc = 1 /\ 1 <= NodeTracer.rc_w rc) new /\
  (run = -1 \/
   (0 <= run < Z.of_nat n /\
    forall x, (Z.to_nat run <= x < n)%nat -> cell indexed width c x y = true)) /\
  forall cx cy,
    cover_count new cx cy
    = if (cy =? Z.of_nat y) && (0 <=? cx)
         && (cx <? (if run =? -1 then Z.of_nat n else run))
         && cell indexed width c (Z.to_nat cx) y
      then 1%nat else 0%nat.

(** Two pixels that share a side. *)
Definition adjacent (p q : point) : bool :=
  Z.abs (fst p - fst q) + Z.abs (snd p - snd q) =? 1.

(** Every point of [rest] shares a side with the one before it, [p] being
    before the first. *)
Fixpoint stepwise (p : point) (rest : list point) : bool :=
  match rest with
  | [] => true
  | q :: rest' => adjacent p q && stepwise q rest'
  end.

Definition connected (path : list point) : bool :=
  match path with
  | [] => true
  | p :: rest => stepwise p rest
  end.

(** [q] is a set pixel of the layer's grid with a four-neighbour that is
    unset or outside the grid. *)
Definition on_edge (layer : ImageTracer.Layer) (q : point) : bool :=
  ImageTracer.isEdge layer (fst q) (snd q).

(** [q] lies inside the layer's grid and is set in its mask. *)
Definition set_inside (layer : ImageTracer.Layer) (q : point) : Prop :=
  0 <= fst q < Z.of_nat (ImageTracer.l_width layer) /\
  0 <= snd q < Z.of_nat (ImageTracer.l_height layer) /\
  ImageTracer.rdZ (ImageTracer.l_array layer)
    (snd q * Z.of_nat (ImageTracer.l_width layer) + fst q) <> 0.

(** [l1] is [l2] with some elements left out, the others in order. *)
Inductive Subseq {A : Type} : list A -> list A -> Prop :=
| Subseq_nil : Subseq [] []
| Subseq_skip (x : A) (l1 l2 : list A) : Subseq l1 l2 -> Subseq l1 (x :: l2)
| Subseq_take (x : A) (l1 l2 : list A) : Subseq l1 l2 -> Subseq (x :: l1) (x :: l2).

(** The points [points[a .. b-1]]. *)
Definition segment (points : list point) (a b : nat) : list point :=
  firstn (b - a) (skipn a points).

(** The weighted sum [0.299 r + 0.587 g + 0.114 b] of pixel [k], as both
    tracers compute it; a channel read past the end is NaN. *)
Definition luma (d : list Z) (k : nat) : float :=
  (0.299 * rdF d (4 * k) + 0.587 * rdF d (4 * k + 1)
   + 0.114 * rdF d (4 * k + 2))%float.

(** The byte toGrayscale stores for pixel [k]. *)
Definition gray_level (d : list Z) (k : nat) : Z :=
  toUint8Clamp (Math_round (luma d k)).

(** A buffer of bytes. *)
Definition bytes (d : list Z) : Prop := Forall (fun v => 0 <= v <= 255) d.

(** What a pixel-wise loop leaves at channel [c] of pixel [k]: the alpha
    byte as it was, and [v k] in the three colour bytes that exist. *)
Definition recoloured (d : list Z) (v : nat -> Z) (k c : nat) : option Z :=
  if (c =? 3)%nat then nth_error d (4 * k + 3)
  else if (4 * k + c <? length d)%nat then Some (v k) else None.

(** The invariant of a pixel-wise loop before pixel [s]: the accumulator
    has the length of the initial array and still equals it from offset
    [4 s] on. *)
Definition untouched_from (init acc : list Z) (s : nat) : Prop :=
  length acc = length init /\
  forall j, (4 * s <= j)%nat -> nth_error acc j = nth_error init j.

(** The byte toMonochrome stores: white or black. *)
Definition white_if (b : bool) : Z := if b then 255 else 0.

(** What the copying loops of usage.js leave at channel [c] of pixel [k]:
    the alpha byte read back through the clamped array, and [v k] in the
    three colour bytes. *)
Definition filled (d : list Z) (v : nat -> Z) (k c : nat) : option Z :=
  if (4 * k + c <? length d)%nat
  then Some (if (c =? 3)%nat then toUint8Clamp (rdF d (4 * k + 3)) else v k)
  else None.

(** Pixel [k] has its three colour bytes, each at least [threshold]. *)
Definition whitish (d : list Z) (threshold : Z) (k : nat) : bool :=
  at_least (rd d (4 * k)) threshold && at_least (rd d (4 * k + 1)) threshold
  && at_least (rd d (4 * k + 2)) threshold.

(** What the background removal leaves at channel [c] of pixel [k]. *)
Definition cleared (d : list Z) (threshold : Z) (k c : nat) : option Z :=
  if (c =? 3)%nat && whitish d threshold k
  then (if (4 * k + 3 <? length d)%nat then Some 0 else None)
  else nth_error d (4 * k + c).

(** Every alpha byte of the buffer is below the 128 cutoff. *)
Definition all_transparent (d : list Z) : Prop :=
  forall k a, nth_error d (4 * k + 3) = Some a -> a < 128.

(** The document of usage.js for a canvas on which nothing is drawn. *)
Definition node_empty_document (host : JsHost) (width height : nat) : string :=
  let ws := NodeTracer.num host (Z.of_nat width) in
  let hs := NodeTracer.num host (Z.of_nat height) in
  ("<svg xmlns=" ++ dq ++ "http://www.w3.org/2000/svg" ++ dq
     ++ " width=" ++ dq ++ ws ++ dq ++ " height=" ++ dq ++ hs ++ dq
     ++ " viewBox=" ++ dq ++ "0 0 " ++ ws ++ " " ++ hs ++ dq ++ ">" ++ nl
     ++ "  <title>Traced with ATSVG</title>" ++ nl
     ++ "</svg>")%string.

(** The options switch the blur off. *)
Definition no_blur (o : ImageTracer.Options) : Prop := ImageTracer.blurradius o <= 0.

(** The image trace quantizes, after its preprocessing stages, and the
    options it quantizes with (monochrome forces two colours). *)
Definition trace_image (host : JsHost) (imgd : ImageTracer.ImageData)
    (options : ImageTracer.Options) : ImageTracer.ImageData :=
  ImageTracer.mkImageData (fst (ImageTracer.trace host imgd options))
    (ImageTracer.width imgd) (ImageTracer.height imgd).

Definition trace_options (options : ImageTracer.Options) : ImageTracer.Options :=
  match ImageTracer.colorMode options with
  | ImageTracer.ModeMonochrome =>
      ImageTracer.mkOptions 2 (ImageTracer.pathomit options)
        (ImageTracer.ltres options) (ImageTracer.scale options)
        (ImageTracer.roundcoords options) (ImageTracer.viewbox options)
        (ImageTracer.desc options) (ImageTracer.blurradius options)
        (ImageTracer.colorMode options) (ImageTracer.threshold options)
  | _ => options
  end.

(** The layers trace hands to generateSvg for the palette [palette]. *)
Definition trace_layers (host : JsHost) (imgd : ImageTracer.ImageData)
    (options : ImageTracer.Options) (palette : list color)
    : list ImageTracer.Layer :=
  ImageTracer.layerSeparation
    (ImageTracer.createIndexedImage (trace_image host imgd options) palette)
    palette.

(** A path of two or more points. *)
Definition drawable (path : list point) : bool := (2 <=? length path)%nat.

(** The entity that stands for a character in XML text. *)
Definition entity (a : ascii) : string :=
  if Ascii.eqb a "&" then "&amp;"
  else if Ascii.eqb a "<" then "&lt;"
  else if Ascii.eqb a ">" then "&gt;"
  else if Ascii.eqb a NodeConverter.quote_char then "&quot;"
  else String a EmptyString.

(** The characters of [s], each replaced by [f] of it. *)
Fixpoint flat_chars (f : ascii -> string) (s : string) : string :=
  match s with
  | EmptyString => EmptyString
  | String a s' => (f a ++ flat_chars f s')%string
  end.

(** The character [c] occurs in [s]. *)
Fixpoint occurs (c : ascii) (s : string) : bool :=
  match s with
  | EmptyString => false
  | String a s' => Ascii.eqb a c || occurs c s'
  end.

(** ** Inputs of the further examples *)

(** The palette of usage.js for the 2x2 scenario. *)
Definition scenario_entries : list NodeTracer.entry :=
  [NodeTracer.mkEntry 0 0 255 2; NodeTracer.mkEntry 255 0 0 2].

(** Two one-row rectangles, one on top of the other. *)
Definition stacked_rects : list NodeTracer.rect :=
  [NodeTracer.mkRect 0 1 2 1; NodeTracer.mkRect 0 0 2 1].

(** A white pixel, and a two-pixel buffer whose alphas are below the
    cutoff. *)
Definition white_px : list Z := [255; 255; 255; 255].

Definition faint_image : ImageTracer.ImageData :=
  ImageTracer.mkImageData [255; 0; 0; 127; 0; 0; 255; 0] 2 1.

(** Converter options asking for a posterized trace with 20 colours and a
    simplification of 2. *)
Definition posterize_options : Converter.Options :=
  Converter.mkOptions (Some 20) None (Some 2%float) None true false
    Converter.NamePosterize.

(** The mask of a 5x1 row, every pixel set: one contour of 8 points. *)
Definition row5_layer : ImageTracer.Layer :=
  ImageTracer.mkLayer [1; 1; 1; 1; 1] 5 1 red.

(** * Properties of the splitting step *)

Section MedianCutFacts.

Variable P : Type.
Variable get : channel -> P -> Z.

Lemma fold_max_ge (vs : list Z) (v : Z) :
  v <= fold_left Z.max vs v /\ forall u, In u vs -> u <= fold_left Z.max vs v.
Proof.
  revert v; induction vs as [|w vs IH]; intros v; simpl.
  - split; [lia | intros u []].
  - destruct (IH (Z.max v w)) as [H1 H2]. split; [lia|].
    intros u [<-|Hu]; [lia | auto].
Qed.

Lemma fold_min_le (vs : list Z) (v : Z) :
  fold_left Z.min vs v <= v /\ forall u, In u vs -> fold_left Z.min vs v <= u.
Proof.
  revert v; induction vs as [|w vs IH]; intros v; simpl.
  - split; [lia | intros u []].
  - destruct (IH (Z.min v w)) as [H1 H2]. split; [lia|].
    intros u [<-|Hu]; [lia | auto].
Qed.

Lemma channel_range_nonneg (ch : channel) (box : list P) :
  0 <= channel_range get ch box.
Proof.
  unfold channel_range. destruct (map (get ch) box) as [|v vs]; [lia|].
  pose proof (fold_max_ge vs v) as [H1 _].
  pose proof (fold_min_le vs v) as [H2 _]. lia.
Qed.

(** A box of range 0 on a channel is constant on that channel. *)
Lemma channel_range_zero (ch : channel) (box : list P) :
  channel_range get ch box <= 0 ->
  forall p q, In p box -> In q box -> get ch p = get ch q.
Proof.
  unfold channel_range. intros H p q Hp Hq.
  apply (in_map (get ch)) in Hp, Hq.
  destruct (map (get ch) box) as [|v vs]; [destruct Hp|].
  pose proof (fold_max_ge vs v) as [M1 M2].
  pose proof (fold_min_le vs v) as [m1 m2].
  assert (B : forall u, In u (v :: vs) ->
              fold_left Z.min vs v <= u <= fold_left Z.max vs v).
  { intros u [<-|Hu]; [lia|]. split; auto. }
  pose proof (B _ Hp). pose proof (B _ Hq). lia.
Qed.

Lemma scan_channel_inv boxes box i st ch :
  nth_error boxes i = Some box -> (2 <= length box)%nat ->
  scan_inv P get boxes st -> scan_inv P get boxes (scan_channel get box i st ch).
Proof.
  intros Hi Hlen [H0 H1]. unfold scan_channel.
  destruct (fst (fst st) <? channel_range get ch box) eqn:E; [|split; assumption].
  apply Z.ltb_lt in E. split; simpl; [lia|]. intros _. eauto.
Qed.

Lemma scan_channel_mono box i st ch :
  fst (fst st) <= fst (fst (scan_channel get box i st ch)) /\
  channel_range get ch box <= fst (fst (scan_channel get box i st ch)).
Proof.
  unfold scan_channel.
  destruct (fst (fst st) <? channel_range get ch box) eqn:E; simpl.
  - apply Z.ltb_lt in E. lia.
  - apply Z.ltb_ge in E. lia.
Qed.

Lemma scan_box_inv boxes st i box :
  nth_error boxes i = Some box ->
  scan_inv P get boxes st -> scan_inv P get boxes (scan_box get st (i, box)).
Proof.
  intros Hi Hst. unfold scan_box; simpl.
  destruct (length box <? 2)%nat eqn:E; [assumption|].
  apply Nat.ltb_ge in E. unfold channels; simpl.
  repeat apply scan_channel_inv; assumption.
Qed.

Lemma scan_box_mono st i box :
  fst (fst st) <= fst (fst (scan_box get st (i, box))) /\
  ((2 <= length box)%nat ->
   forall ch, channel_range get ch box <= fst (fst (scan_box get st (i, box)))).
Proof.
  unfold scan_box; simpl.
  destruct (length box <? 2)%nat eqn:E.
  - apply Nat.ltb_lt in E. split; [lia | intros; lia].
  - unfold channels; simpl.
    pose proof (scan_channel_mono box i st Cr) as [A1 A2].
    pose proof (scan_channel_mono box i (scan_channel get box i st Cr) Cg) as [B1 B2].
    pose proof (scan_channel_mono box i
                  (scan_channel get box i (scan_channel get box i st Cr) Cg) Cb)
      as [C1 C2].
    split; [lia|]. intros _ [| |]; lia.
Qed.

Lemma scan_fold_inv boxes l st :
  (forall i box, In (i, box) l -> nth_error boxes i = Some box) ->
  scan_inv P get boxes st -> scan_inv P get boxes (fold_left (scan_box get) l st).
Proof.
  revert st; induction l as [|[i box] l IH]; intros st Hl Hst; simpl; [assumption|].
  apply IH; [intros; apply Hl; right; assumption|].
  apply scan_box_inv; [apply Hl; left; reflexivity | assumption].
Qed.

Lemma scan_fold_mono l st :
  fst (fst st) <= fst (fst (fold_left (scan_box get) l st)) /\
  forall i box ch, In (i, box) l -> (2 <= length box)%nat ->
    channel_range get ch box <= fst (fst (fold_left (scan_box get) l st)).
Proof.
  revert st; induction l as [|[i box] l IH]; intros st; simpl.
  - split; [lia | intros ? ? ? []].
  - destruct (IH (scan_box get st (i, box))) as [H1 H2].
    pose proof (scan_box_mono st i box) as [M1 M2].
    split; [lia|]. intros j b ch [E|Hin] Hlen.
    + inversion E; subst. specialize (M2 Hlen ch). lia.
    + eauto.
Qed.

Lemma in_combine_seq {A : Type} (l : list A) (s i : nat) (x : A) :
  In (i, x) (combine (seq s (length l)) l) ->
  (s <= i)%nat /\ nth_error l (i - s) = Some x.
Proof.
  revert s; induction l as [|y l IH]; intros s; simpl; [intros []|].
  intros [E|Hin].
  - inversion E; subst. rewrite Nat.sub_diag. split; [lia | reflexivity].
  - apply IH in Hin as [H1 H2]. split; [lia|].
    replace (i - s)%nat with (S (i - S s)) by lia. exact H2.
Qed.

Lemma combine_seq_in {A : Type} (l : list A) (s : nat) (x : A) :
  In x l -> exists i, In (i, x) (combine (seq s (length l)) l).
Proof.
  revert s; induction l as [|y l IH]; intros s; simpl; [intros []|].
  intros [->|Hin].
  - exists s. left; reflexivity.
  - destruct (IH (S s) Hin) as [i Hi]. exists i. right; exact Hi.
Qed.

Lemma scan_spec (boxes : list (list P)) :
  scan_inv P get boxes (scan get boxes) /\
  forall box ch, In box boxes -> (2 <= length box)%nat ->
    channel_range get ch box <= fst (fst (scan get boxes)).
Proof.
  unfold scan. split.
  - apply scan_fold_inv.
    + intros i box Hin. apply in_combine_seq in Hin as [_ H].
      rewrite Nat.sub_0_r in H. exact H.
    + split; simpl; lia.
  - intros box ch Hin Hlen.
    destruct (combine_seq_in boxes 0 box Hin) as [i Hi].
    eapply (proj2 (scan_fold_mono _ _)); eassumption.
Qed.

(** *** The sort *)

Lemma insert_by_perm ch (x : P) l : Permutation (insert_by get ch x l) (x :: l).
Proof.
  induction l as [|y l IH]; simpl; [reflexivity|].
  destruct (get ch x <=? get ch y); [reflexivity|].
  rewrite IH. apply perm_swap.
Qed.

Lemma sort_by_perm ch (l : list P) : Permutation (sort_by get ch l) l.
Proof.
  induction l as [|x l IH]; simpl; [reflexivity|].
  rewrite insert_by_perm. constructor. exact IH.
Qed.

Lemma sort_by_length ch (l : list P) : length (sort_by get ch l) = length l.
Proof. apply Permutation_length, sort_by_perm. Qed.

(** *** One split *)

Lemma splice2_length (boxes : list (list P)) i x y :
  (i < length boxes)%nat -> length (splice2 boxes i x y) = S (length boxes).
Proof.
  intros Hi. unfold splice2. rewrite length_app. cbn [length].
  rewrite firstn_length_le by lia. rewrite length_skipn. lia.
Qed.

Lemma nth_split_at {A : Type} (l : list A) i (x d : A) :
  nth_error l i = Some x -> l = firstn i l ++ x :: skipn (S i) l.
Proof.
  revert i; induction l as [|y l IH]; intros [|i]; simpl; try discriminate.
  - intros E; inversion E; reflexivity.
  - intros E. f_equal. apply IH; assumption.
Qed.

(** What a successful split does to the list of boxes. *)
Lemma split_step_spec (boxes boxes' : list (list P)) :
  split_step get boxes = Some boxes' ->
  length boxes' = S (length boxes) /\
  Permutation (concat boxes') (concat boxes) /\
  (Forall (nonempty P) boxes -> Forall (nonempty P) boxes') /\
  (exists box, In box boxes /\ (2 <= length box)%nat).
Proof.
  unfold split_step. intros H.
  destruct (fst (fst (scan get boxes)) =? 0) eqn:E; [discriminate|].
  apply Z.eqb_neq in E.
  destruct (scan_spec boxes) as [[H0 H1] _].
  destruct H1 as (box & Hnth & Hlen & _); [lia|].
  set (i := snd (fst (scan get boxes))) in *.
  set (ch := snd (scan get boxes)) in *.
  assert (Hi : (i < length boxes)%nat)
    by (apply nth_error_Some; rewrite Hnth; discriminate).
  rewrite (nth_error_nth _ _ [] Hnth) in H.
  inversion H; subst boxes'; clear H.
  pose proof (sort_by_length ch box) as SL.
  set (sorted := sort_by get ch box) in *.
  set (mid := (length sorted / 2)%nat).
  assert (Hmid : (1 <= mid < length sorted)%nat).
  { subst mid. rewrite SL. split.
    - apply Nat.div_le_lower_bound; lia.
    - apply Nat.Div0.div_lt_upper_bound; lia. }
  assert (F1 : nonempty P (firstn mid sorted)).
  { intros C. apply (f_equal (@length P)) in C.
    rewrite firstn_length_le in C by lia. cbn [length] in C. lia. }
  assert (F2 : nonempty P (skipn mid sorted)).
  { intros C. apply (f_equal (@length P)) in C.
    rewrite length_skipn in C. cbn [length] in C. lia. }
  split; [apply splice2_length; exact Hi|].
  split; [|split].
  - unfold splice2.
    rewrite (nth_split_at boxes i box [] Hnth) at 3.
    rewrite !concat_app. simpl.
    apply Permutation_app_head.
    rewrite app_assoc. apply Permutation_app_tail.
    rewrite firstn_skipn. apply sort_by_perm.
  - intros Hne. unfold splice2.
    rewrite (nth_split_at boxes i box [] Hnth) in Hne.
    apply Forall_app in Hne as [Ha Hb]. inversion Hb; subst.
    apply Forall_app; split; [assumption|].
    constructor; [exact F1|constructor; [exact F2|assumption]].
  - exists box. split; [eapply nth_error_In; eassumption | assumption].
Qed.

(** When the scan finds no positive range, every box of two or more
    pixels is constant on every channel. *)
Lemma split_step_none (boxes : list (list P)) :
  split_step get boxes = None ->
  forall box ch p q, In box boxes -> In p box -> In q box ->
    get ch p = get ch q.
Proof.
  unfold split_step. intros H box ch p q Hbox Hp Hq.
  destruct (fst (fst (scan get boxes)) =? 0) eqn:E; [|discriminate].
  apply Z.eqb_eq in E.
  destruct (Nat.le_gt_cases 2 (length box)) as [L|L].
  - apply (channel_range_zero ch box); try assumption.
    rewrite <- E. apply scan_spec; assumption.
  - destruct box as [|a [|b box]]; simpl in *; try lia; try tauto.
    destruct Hp as [<-|[]], Hq as [<-|[]]. reflexivity.
Qed.

(** *** Distinct colours *)

Variable key : P -> Z * Z * Z.
Hypothesis key_ext :
  forall p q, (forall ch, get ch p = get ch q) -> key p = key q.

Lemma distinct_le_length (pixels : list P) :
  (distinct_by key pixels <= length pixels)%nat.
Proof.
  unfold distinct_by.
  rewrite <- (length_map key pixels).
  apply NoDup_incl_length; [apply NoDup_nodup|].
  intros x Hx. apply nodup_In in Hx. exact Hx.
Qed.

(** Boxes that are each of one colour hold at most as many colours as
    there are boxes. *)
Lemma distinct_le_boxes (pixels : list P) (boxes : list (list P)) :
  Permutation (concat boxes) pixels ->
  (forall box p q, In box boxes -> In p box -> In q box -> key p = key q) ->
  (distinct_by key pixels <= length boxes)%nat.
Proof.
  intros Pm Uni. unfold distinct_by.
  destruct pixels as [|p0 pixels0]; [simpl; lia|].
  rewrite <- (length_map (fun box => key (hd p0 box)) boxes).
  apply NoDup_incl_length; [apply NoDup_nodup|].
  intros c Hc. apply nodup_In in Hc. apply in_map_iff in Hc as (p & <- & Hp).
  apply (Permutation_in _ (Permutation_sym Pm)) in Hp.
  apply in_concat in Hp as (box & Hbox & Hp).
  apply in_map_iff. exists box. split; [|exact Hbox].
  apply (Uni box); try assumption.
  destruct box; [destruct Hp | left; reflexivity].
Qed.

(** When the loop stops because no box has a positive range, there are at
    least as many boxes as colours. *)
Lemma split_none_distinct (pixels : list P) (boxes : list (list P)) :
  split_step get boxes = None ->
  Permutation (concat boxes) pixels ->
  (distinct_by key pixels <= length boxes)%nat.
Proof.
  intros Hs Pm. apply distinct_le_boxes; [exact Pm|].
  intros box p q Hbox Hp Hq. apply key_ext. intros ch.
  eapply split_step_none; eassumption.
Qed.

(** Boxes that are all non-empty are no more than their pixels. *)
Lemma nonempty_boxes_length (boxes : list (list P)) :
  Forall (nonempty P) boxes -> (length boxes <= length (concat boxes))%nat.
Proof.
  induction 1 as [|box boxes Hb _ IH]; simpl; [lia|].
  rewrite length_app. destruct box; [unfold nonempty in Hb; congruence|].
  simpl; lia.
Qed.

(** ... and strictly fewer when one of them holds two pixels. *)
Lemma nonempty_boxes_length_lt (boxes : list (list P)) (box : list P) :
  Forall (nonempty P) boxes -> In box boxes -> (2 <= length box)%nat ->
  (length boxes < length (concat boxes))%nat.
Proof.
  induction 1 as [|b boxes Hb Hbs IH]; simpl; [intros []|].
  rewrite length_app. intros [->|Hin] Hlen.
  - pose proof (nonempty_boxes_length boxes Hbs). lia.
  - specialize (IH Hin Hlen).
    destruct b; [unfold nonempty in Hb; congruence | simpl; lia].
Qed.

End MedianCutFacts.

(** * Properties of the browser engine *)

Module ImageTracerFacts.

Import ImageTracer.

(** *** quantize and medianCut *)

(** The loop never runs out of fuel when it is given one unit per pixel
    that is not yet a box of its own. *)
Lemma medianCut_loop_total (fuel npixels : nat) (numColors : Z)
    (boxes : list (list color)) :
  (npixels <= length boxes + fuel)%nat ->
  exists r, medianCut_loop fuel npixels numColors boxes = Some r.
Proof.
  revert boxes; induction fuel as [|fuel IH]; intros boxes Hf; simpl.
  - destruct (Z.of_nat (length boxes) <? numColors); simpl; [|eauto].
    destruct (length boxes <? npixels)%nat eqn:E; [|eauto].
    apply Nat.ltb_lt in E. lia.
  - destruct ((Z.of_nat (length boxes) <? numColors)
              && (length boxes <? npixels)%nat); [|eauto].
    destruct (split_step chan boxes) as [boxes'|] eqn:S; [|eauto].
    apply IH. apply split_step_spec in S as (L & _). lia.
Qed.

(** What the loop returns: between the boxes it started from and the
    requested count, a rearrangement of the same pixels, and one of the
    three exits of the source. *)
Lemma medianCut_loop_spec (fuel npixels : nat) (numColors : Z)
    (boxes r : list (list color)) :
  medianCut_loop fuel npixels numColors boxes = Some r ->
  (length boxes <= length r)%nat /\
  Z.of_nat (length r) <= Z.max (Z.of_nat (length boxes)) numColors /\
  Permutation (concat r) (concat boxes) /\
  (Forall (nonempty color) boxes -> Forall (nonempty color) r) /\
  (numColors <= Z.of_nat (length r) \/ (npixels <= length r)%nat
   \/ split_step chan r = None).
Proof.
  revert boxes; induction fuel as [|fuel IH]; intros boxes; simpl.
  - destruct (Z.of_nat (length boxes) <? numColors) eqn:E1; simpl.
    + destruct (length boxes <? npixels)%nat eqn:E2; [discriminate|].
      intros H; inversion H; subst. apply Nat.ltb_ge in E2.
      repeat split; auto; lia.
    + intros H; inversion H; subst. apply Z.ltb_ge in E1.
      repeat split; auto; lia.
  - destruct (Z.of_nat (length boxes) <? numColors) eqn:E1; simpl.
    + destruct (length boxes <? npixels)%nat eqn:E2.
      * destruct (split_step chan boxes) as [boxes'|] eqn:S.
        -- intros H. apply IH in H as (A & B & C & D & E).
           apply split_step_spec in S as (L & Pm & Ne & _).
           apply Z.ltb_lt in E1.
           repeat split; try lia.
           ++ rewrite C. exact Pm.
           ++ auto.
           ++ exact E.
        -- intros H; inversion H; subst.
           repeat split; auto; lia.
      * intros H; inversion H; subst. apply Nat.ltb_ge in E2.
        repeat split; auto; lia.
    + intros H; inversion H; subst. apply Z.ltb_ge in E1.
      repeat split; auto; lia.
Qed.

Lemma medianCut_some (pixels : list color) (numColors : Z) :
  exists palette, medianCut pixels numColors = Some palette.
Proof.
  unfold medianCut.
  destruct ((length pixels =? 0)%nat || (numColors <? 1)); [eauto|].
  destruct (medianCut_loop_total (length pixels) (length pixels) numColors
              [pixels]) as [r Hr]; [simpl; lia|].
  rewrite Hr. simpl. eauto.
Qed.

Lemma medianCut_length (pixels palette : list color) (numColors : Z) :
  medianCut pixels numColors = Some palette ->
  (1 <= length palette)%nat /\
  Z.of_nat (length palette) <= Z.max 1 numColors.
Proof.
  unfold medianCut.
  destruct ((length pixels =? 0)%nat || (numColors <? 1)).
  - intros H; inversion H; subst; simpl. lia.
  - destruct (medianCut_loop (length pixels) (length pixels) numColors [pixels])
      as [r|] eqn:Hr; simpl; [|discriminate].
    intros H; inversion H; subst. rewrite length_map.
    apply medianCut_loop_spec in Hr as (A & B & _). simpl in A, B. lia.
Qed.

Lemma quantize_some (imgd : ImageData) (options : Options) :
  exists palette, quantize imgd options = Some palette.
Proof.
  unfold quantize.
  destruct (length (quantize_pixels (data imgd)) =? 0)%nat; [eauto|].
  apply medianCut_some.
Qed.

Lemma quantize_length (imgd : ImageData) (options : Options)
    (palette : list color) :
  quantize imgd options = Some palette ->
  (1 <= length palette)%nat /\
  Z.of_nat (length palette) <= Z.max 1 (numberofcolors options).
Proof.
  unfold quantize.
  destruct (length (quantize_pixels (data imgd)) =? 0)%nat.
  - intros H; inversion H; subst; simpl. lia.
  - apply medianCut_length.
Qed.

Lemma rgb_of_ext (p q : color) :
  (forall ch, chan ch p = chan ch q) -> rgb_of p = rgb_of q.
Proof.
  intros H. unfold rgb_of.
  pose proof (H Cr) as R1. pose proof (H Cg) as R2. pose proof (H Cb) as R3.
  simpl in R1, R2, R3. congruence.
Qed.

Lemma medianCut_distinct (pixels palette : list color) (numColors : Z) :
  pixels <> [] ->
  Z.of_nat (distinct_colors pixels) < numColors ->
  medianCut pixels numColors = Some palette ->
  (distinct_colors pixels <= length palette)%nat /\
  Z.of_nat (length palette) <= numColors /\
  (length palette <= length pixels)%nat.
Proof.
  intros Hne Hd. unfold medianCut.
  assert (E0 : (length pixels =? 0)%nat = false)
    by (destruct pixels; [congruence | reflexivity]).
  rewrite E0. simpl orb.
  destruct (numColors <? 1) eqn:E1.
  { apply Z.ltb_lt in E1. lia. }
  destruct (medianCut_loop (length pixels) (length pixels) numColors [pixels])
    as [r|] eqn:Hr; simpl; [|discriminate].
  intros H; inversion H; subst palette; clear H. rewrite length_map.
  apply medianCut_loop_spec in Hr as (A & B & C & D & E).
  simpl in A, B, C. rewrite app_nil_r in C.
  assert (Ne : Forall (nonempty color) r).
  { apply D. constructor; [exact Hne | constructor]. }
  assert (Len : (length r <= length pixels)%nat).
  { rewrite <- (Permutation_length C). apply nonempty_boxes_length. exact Ne. }
  apply Z.ltb_ge in E1.
  split; [|split; [lia | exact Len]].
  destruct E as [E|[E|E]].
  - lia.
  - pose proof (distinct_le_length color rgb_of pixels).
    unfold distinct_colors in *. lia.
  - apply (split_none_distinct color chan rgb_of rgb_of_ext pixels r E C).
Qed.

(** *** The pixels quantize collects *)

Lemma quantize_pixels_above (d : list Z) :
  quantize_pixels d = pixels_above 0 d.
Proof.
  unfold quantize_pixels, pixels_above, pixel_starts.
  induction (seq 0 ((length d + 3) / 4)) as [|k ks IH]; [reflexivity|].
  cbn [map flat_map filter]. rewrite IH.
  unfold quantize_push, alpha_at, rd.
  destruct (nth_error d (4 * k + 3)) as [a|] eqn:E; [|reflexivity].
  destruct (0 <? a); [|reflexivity].
  cbn [map app]. unfold pixel_at. rewrite (nth_error_nth _ _ 0 E). reflexivity.
Qed.

(** *** Typed-array writes *)

Lemma wr_length {A : Type} (l : list A) (i : nat) (v : A) :
  length (wr l i v) = length l.
Proof.
  revert i; induction l as [|h t IH]; intros [|i]; simpl; auto.
Qed.

Lemma nth_wr {A : Type} (l : list A) (i j : nat) (v d : A) :
  nth j (wr l i v) d =
  if (j =? i)%nat && (i <? length l)%nat then v else nth j l d.
Proof.
  revert i j; induction l as [|h t IH]; intros [|i] [|j]; simpl; auto;
    try (rewrite andb_false_r; reflexivity).
Qed.

(** *** createIndexedImage *)

Lemma closest_lt (palette : list color) (r g b : option Z) :
  palette <> [] -> (closest palette r g b < length palette)%nat.
Proof.
  intros Hne. unfold closest.
  assert (H0 : (snd (@None Z, 0%nat) < length palette)%nat).
  { destruct palette; [congruence | simpl; lia]. }
  revert H0.
  assert (Hin : forall j p, In (j, p) (combine (seq 0 (length palette)) palette) ->
                            (j < length palette)%nat).
  { intros j p H. apply in_combine_seq in H as [_ H].
    apply nth_error_Some. rewrite Nat.sub_0_r in H. rewrite H. discriminate. }
  revert Hin. generalize (combine (seq 0 (length palette)) palette).
  generalize (@None Z, 0%nat).
  intros st l; revert st; induction l as [|[j p] l IH]; intros st Hin H0;
    simpl; [exact H0|].
  apply IH; [intros; eapply Hin; right; eassumption|].
  unfold closest_step; simpl.
  destruct (dist2 r g b p); [|exact H0].
  destruct (fst st); [destruct (_ <? _)|]; simpl; try exact H0;
    eapply Hin; left; reflexivity.
Qed.

(** An indexed value is -1 exactly for a pixel whose alpha is below
    128. *)
Lemma index_of_pixel_transparent (d : list Z) (palette : list color) (i : nat) :
  index_of_pixel d palette i = -1 <->
  exists a, rd d (i * 4 + 3) = Some a /\ a < 128.
Proof.
  unfold index_of_pixel.
  destruct (rd d (i * 4 + 3)) as [a|] eqn:E.
  - destruct (a <? 128) eqn:L.
    + apply Z.ltb_lt in L. split; [intros _; eauto | reflexivity].
    + apply Z.ltb_ge in L. split; [lia|].
      intros (a' & Ea & La). inversion Ea; subst. lia.
  - split; [lia|]. intros (a' & Ea & _). discriminate.
Qed.

(** ... and otherwise a palette index. *)
Lemma index_of_pixel_spec (d : list Z) (palette : list color) (i : nat) :
  palette <> [] ->
  (index_of_pixel d palette i = -1 <->
   exists a, rd d (i * 4 + 3) = Some a /\ a < 128) /\
  (index_of_pixel d palette i = -1 \/
   0 <= index_of_pixel d palette i < Z.of_nat (length palette)).
Proof.
  intros Hne. unfold index_of_pixel.
  pose proof (closest_lt palette (rd d (i * 4)) (rd d (i * 4 + 1))
                (rd d (i * 4 + 2)) Hne) as Hc.
  destruct (rd d (i * 4 + 3)) as [a|] eqn:E.
  - destruct (a <? 128) eqn:L.
    + apply Z.ltb_lt in L. split; [|left; reflexivity].
      split; [intros _; eauto | reflexivity].
    + apply Z.ltb_ge in L. split; [|right; lia].
      split; [lia|]. intros (a' & Ea & La). inversion Ea; subst. lia.
  - split; [|right; lia].
    split; [lia|]. intros (a' & Ea & _). discriminate.
Qed.

Lemma createIndexedImage_array (imgd : ImageData) (palette : list color) :
  length (array (createIndexedImage imgd palette))
  = (width imgd * height imgd)%nat /\
  forall i, (i < width imgd * height imgd)%nat ->
    nth_error (array (createIndexedImage imgd palette)) i
    = Some (index_of_pixel (data imgd) palette i).
Proof.
  unfold createIndexedImage; simpl. split.
  - rewrite length_map, length_seq. reflexivity.
  - intros i Hi. rewrite nth_error_map, nth_error_seq.
    destruct (Nat.ltb_spec i (width imgd * height imgd)); [reflexivity | lia].
Qed.

(** *** layerSeparation *)

Lemma mark_layer_cases (c : Z) (st : list Z * bool) (s : nat) (v : Z) :
  ((v =? c) = true /\ mark_layer c st (s, v) = (wr (fst st) s 1, true)) \/
  ((v =? c) = false /\ mark_layer c st (s, v) = st).
Proof.
  unfold mark_layer; cbn [fst snd]. destruct (v =? c); auto.
Qed.

Lemma mark_fold (c : Z) (arr : list Z) (s : nat) (st : list Z * bool) :
  let res := fold_left (mark_layer c) (combine (seq s (length arr)) arr) st in
  length (fst res) = length (fst st) /\
  (forall j, nth j (fst res) 0 =
             if (s <=? j)%nat && hits c arr (j - s) && (j <? length (fst st))%nat
             then 1 else nth j (fst st) 0) /\
  snd res = snd st || existsb (fun v => v =? c) arr.
Proof.
  revert s st; induction arr as [|v t IH]; intros s st.
  - cbn. split; [reflexivity|]. split; [|rewrite orb_false_r; reflexivity].
    intros j. unfold hits. rewrite nth_error_nil.
    rewrite andb_false_r. reflexivity.
  - cbn [length seq combine fold_left existsb].
    destruct (IH (S s) (mark_layer c st (s, v))) as (L & N & B). clear IH.
    cbv zeta.
    set (st' := mark_layer c st (s, v)) in *.
    assert (Len : length (fst st') = length (fst st)).
    { destruct (mark_layer_cases c st s v) as [[_ E]|[_ E]]; fold st' in E;
        rewrite E; [apply wr_length | reflexivity]. }
    split; [rewrite L; exact Len|]. split.
    + intros j. rewrite N, Len.
      destruct (Compare_dec.lt_eq_lt_dec j s) as [[H|H]|H].
      * destruct (Nat.leb_spec (S s) j); [lia|].
        destruct (Nat.leb_spec s j); [lia|]. cbn [andb].
        destruct (mark_layer_cases c st s v) as [[_ E]|[_ E]]; fold st' in E;
          rewrite E; [|reflexivity].
        cbn [fst]. rewrite nth_wr.
        destruct (Nat.eqb_spec j s); [lia | reflexivity].
      * subst j. destruct (Nat.leb_spec (S s) s); [lia|].
        rewrite Nat.leb_refl, Nat.sub_diag. cbn [andb]. unfold hits.
        cbn [nth_error].
        destruct (mark_layer_cases c st s v) as [[Ev E]|[Ev E]]; fold st' in E;
          rewrite E, Ev; [|reflexivity].
        cbn [fst andb]. rewrite nth_wr, Nat.eqb_refl. reflexivity.
      * destruct (Nat.leb_spec (S s) j); [|lia].
        destruct (Nat.leb_spec s j); [|lia]. cbn [andb].
        replace (j - s)%nat with (S (j - S s)) by lia.
        unfold hits at 2. cbn [nth_error]. fold (hits c t (j - S s)).
        destruct (hits c t (j - S s) && (j <? length (fst st))%nat);
          [reflexivity|].
        destruct (mark_layer_cases c st s v) as [[_ E]|[_ E]]; fold st' in E;
          rewrite E; [|reflexivity].
        cbn [fst]. rewrite nth_wr.
        destruct (Nat.eqb_spec j s); [lia | reflexivity].
    + rewrite B.
      destruct (mark_layer_cases c st s v) as [[Ev E]|[Ev E]]; fold st' in E;
        rewrite E, Ev; cbn [snd orb]; [rewrite orb_true_r|]; reflexivity.
Qed.

Lemma build_layer_spec (indexed : IndexedImage) (colorIdx : nat) :
  let n := (iwidth indexed * iheight indexed)%nat in
  length (fst (build_layer indexed colorIdx)) = n /\
  (forall j, nth j (fst (build_layer indexed colorIdx)) 0 =
             if hits (Z.of_nat colorIdx) (array indexed) j && (j <? n)%nat
             then 1 else 0) /\
  snd (build_layer indexed colorIdx)
  = existsb (fun v => v =? Z.of_nat colorIdx) (array indexed).
Proof.
  unfold build_layer.
  destruct (mark_fold (Z.of_nat colorIdx) (array indexed) 0
              (repeat 0 (iwidth indexed * iheight indexed)%nat, false))
    as (L & N & B).
  simpl in *. rewrite repeat_length in *.
  split; [exact L|]. split; [|exact B].
  intros j. rewrite N, Nat.sub_0_r. 
  destruct (hits _ _ j && (j <? _)%nat); [reflexivity|].
  apply nth_repeat.
Qed.

(** *** The boundary walk *)

Lemma isolated_no_neighbour (layer : Layer) (x y : Z) :
  isolated layer x y = true -> has_set_neighbour layer (x, y) = false.
Proof.
  unfold isolated, has_set_neighbour; cbn [fst snd]. intros H.
  repeat (apply andb_prop in H as [H ?]).
  repeat match goal with
         | E : negb _ = true |- _ => apply negb_true_iff in E; rewrite E
         end.
  reflexivity.
Qed.

(** The four candidate steps. *)
Lemma step_cases (d : nat) :
  (d < 4)%nat ->
  (dx d = 1 /\ dy d = 0) \/ (dx d = 0 /\ dy d = 1) \/
  (dx d = -1 /\ dy d = 0) \/ (dx d = 0 /\ dy d = -1).
Proof.
  intros H. destruct d as [|[|[|[|d]]]]; try lia; unfold dx, dy; cbn [nth]; auto.
Qed.

Lemma next_edge_from_spec (layer : Layer) (cx cy : Z) (dir : nat)
    (cands : list nat) (nx ny : Z) (nd : nat) :
  next_edge_from layer cx cy dir cands = Some (nx, ny, nd) ->
  (nd < 4)%nat /\ nx = cx + dx nd /\ ny = cy + dy nd /\
  truthy (getPixel layer nx ny) = true.
Proof.
  induction cands as [|i rest IH]; cbn [next_edge_from]; [discriminate|].
  set (newDir := ((dir + 3 + i) mod 4)%nat).
  assert (Hd : (newDir < 4)%nat) by (apply Nat.mod_upper_bound; lia).
  clearbody newDir.
  destruct (truthy (getPixel layer _ _) && isEdge layer _ _) eqn:E.
  - intros H; inversion H; subst. apply andb_prop in E as [E _]. auto.
  - exact IH.
Qed.

Lemma isolated_no_next (layer : Layer) (x y : Z) (dir : nat) (cands : list nat) :
  isolated layer x y = true -> next_edge_from layer x y dir cands = None.
Proof.
  intros H. apply isolated_no_neighbour in H.
  unfold has_set_neighbour in H; cbn [fst snd] in H.
  apply orb_false_elim in H as [H H4].
  apply orb_false_elim in H as [H H3].
  apply orb_false_elim in H as [H1 H2].
  induction cands as [|i rest IH]; cbn [next_edge_from]; [reflexivity|].
  set (nd := ((dir + 3 + i) mod 4)%nat).
  assert (Hnd : (nd < 4)%nat) by (apply Nat.mod_upper_bound; lia).
  clearbody nd.
  destruct (step_cases nd Hnd) as [[Ex Ey]|[[Ex Ey]|[[Ex Ey]|[Ex Ey]]]];
    rewrite Ex, Ey, ?Z.add_0_r;
    replace (x + -1) with (x - 1) by lia; replace (y + -1) with (y - 1) by lia;
    rewrite ?H1, ?H2, ?H3, ?H4; cbn [andb]; exact IH.
Qed.

(** Every point the walk pushes after the current one was reached from a
    set pixel next to it. *)
Lemma walk_points (layer : Layer) (sx sy : Z) (k : nat) :
  forall cx cy dir path visited,
    truthy (getPixel layer cx cy) = true ->
    exists rest,
      fst (walk layer sx sy k cx cy dir path visited) = path ++ (cx, cy) :: rest /\
      Forall (fun q => has_set_neighbour layer q = true) rest.
Proof.
  induction k as [|k IH]; intros cx cy dir path visited Hc; cbn [walk].
  - destruct (next_edge layer cx cy dir) as [[[nx ny] nd]|];
      exists []; cbn [fst]; (split; [reflexivity | apply Forall_nil]).
  - destruct (next_edge layer cx cy dir) as [[[nx ny] nd]|] eqn:E;
      [|exists []; cbn [fst]; (split; [reflexivity | apply Forall_nil])].
    destruct (negb ((nx =? sx) && (ny =? sy)) && negb (k =? 0)%nat);
      [|exists []; cbn [fst]; (split; [reflexivity | apply Forall_nil])].
    apply next_edge_from_spec in E as (Hnd & Ex & Ey & Hn).
    destruct (IH nx ny nd (path ++ [(cx, cy)])
                (wrZ visited (cy * Z.of_nat (l_width layer) + cx) 1) Hn)
      as (rest & Hw & Hr).
    exists ((nx, ny) :: rest). rewrite Hw, <- app_assoc. split; [reflexivity|].
    constructor; [|exact Hr].
    unfold has_set_neighbour; cbn [fst snd].
    subst nx ny.
    destruct (step_cases nd Hnd) as [[Sx Sy]|[[Sx Sy]|[[Sx Sy]|[Sx Sy]]]];
      rewrite Sx, Sy, ?Z.add_0_r.
    + replace (cx + 1 - 1) with cx by lia. rewrite Hc. reflexivity.
    + replace (cy + 1 - 1) with cy by lia. rewrite Hc.
      rewrite !orb_true_r. reflexivity.
    + replace (cx + -1 + 1) with cx by lia. rewrite Hc.
      rewrite !orb_true_r. reflexivity.
    + replace (cy + -1 + 1) with cy by lia. rewrite Hc.
      rewrite !orb_true_r. reflexivity.
Qed.

(** The walk started at an isolated pixel pushes that pixel and stops. *)
Lemma walk_isolated (layer : Layer) (x y : Z) (k dir : nat)
    (path : list point) (visited : list Z) :
  isolated layer x y = true ->
  fst (walk layer x y k x y dir path visited) = path ++ [(x, y)].
Proof.
  intros H. destruct k; cbn [walk]; unfold next_edge;
    rewrite (isolated_no_next layer x y dir _ H); reflexivity.
Qed.

(** A traced path that passes through an isolated pixel is that pixel
    alone. *)
Lemma tracePaths_isolated (layer : Layer) (options : Options) (x y : Z) :
  isolated layer x y = true ->
  forall path, In path (tracePaths layer options) ->
    In (x, y) path -> path = [(x, y)].
Proof.
  intros Hiso. unfold tracePaths.
  assert (H0 : forall path, In path (@nil (list point)) ->
                 In (x, y) path -> path = [(x, y)]) by (intros ? []).
  revert H0.
  generalize (repeat 0 (l_width layer * l_height layer)%nat).
  generalize (@nil (list point)).
  induction (grid (l_width layer) (l_height layer)) as [|[x0 y0] g IH];
    intros paths visited H0; cbn [fold_left]; [exact H0|].
  unfold trace_at at 2; cbn [fst snd].
  destruct (truthy (getPixel layer x0 y0)) eqn:Hp; cbn [andb]; [|apply IH; exact H0].
  destruct (negb (truthy (rdZ visited (y0 * Z.of_nat (l_width layer) + x0)))
            && isEdge layer x0 y0); [|apply IH; exact H0].
  apply IH. intros path Hin Hxy.
  set (res := walk layer x0 y0 (l_width layer * l_height layer * 4) x0 y0 0
                [] visited) in *.
  assert (Hnew : In (x, y) (fst res) -> fst res = [(x, y)]).
  { intros Hm.
    destruct (walk_points layer x0 y0 (l_width layer * l_height layer * 4)
                x0 y0 0%nat [] visited Hp) as (rest & Hw & Hr).
    fold res in Hw. cbn [app] in Hw. rewrite Hw in Hm.
    destruct Hm as [Hm|Hm].
    - inversion Hm; subst x0 y0. unfold res.
      rewrite (walk_isolated layer x y _ _ _ _ Hiso). reflexivity.
    - rewrite Forall_forall in Hr. apply Hr in Hm.
      rewrite (isolated_no_neighbour layer x y Hiso) in Hm. discriminate. }
  destruct (pathomit options <=? Z.of_nat (length (fst res))).
  - apply in_app_or in Hin as [Hin|[<-|[]]]; auto.
  - auto.
Qed.

(** *** The serializer on short paths *)

Lemma pathToSvg_short (host : JsHost) (options : Options)
    (path simplified : list point) :
  simplifyPath path (ltres options) = Some simplified ->
  (length simplified < 2)%nat ->
  pathToSvg host path options = Returns EmptyString.
Proof.
  intros Hs Hl. unfold pathToSvg. rewrite Hs.
  destruct (length path =? 0)%nat; [reflexivity|].
  destruct (Nat.ltb_spec (length simplified) 2); [reflexivity | lia].
Qed.

Lemma pathToSvg_single (host : JsHost) (options : Options) (p : point) :
  pathToSvg host [p] options = Returns EmptyString.
Proof. reflexivity. Qed.

Lemma passes_through_In (x y : Z) (path : list point) :
  passes_through x y path = true <-> In (x, y) path.
Proof.
  unfold passes_through. rewrite existsb_exists. split.
  - intros ([qx qy] & Hin & Hq). cbn [fst snd] in Hq.
    apply andb_prop in Hq as [Hx Hy].
    apply Z.eqb_eq in Hx, Hy. subst. exact Hin.
  - intros Hin. exists (x, y). cbn [fst snd].
    rewrite !Z.eqb_refl. split; [exact Hin | reflexivity].
Qed.

(** The emitter's output for a layer is that of its paths other than the
    single-point paths at [(x, y)]. *)
Lemma layer_elements_without (host : JsHost) (options : Options)
    (fill : string) (x y : Z) (paths : list (list point)) :
  (forall path, In path paths -> In (x, y) path -> path = [(x, y)]) ->
  layer_elements host fill paths options
  = layer_elements host fill
      (filter (fun path => negb (passes_through x y path)) paths) options.
Proof.
  induction paths as [|path paths IH]; intros H; [reflexivity|].
  cbn [filter]. destruct (passes_through x y path) eqn:E; cbn [negb].
  - apply passes_through_In in E. rewrite (H path (or_introl eq_refl) E).
    cbn [layer_elements]. rewrite pathToSvg_single.
    cbn [bind String.length Nat.eqb].
    rewrite <- IH by (intros; apply H; [right|]; assumption).
    destruct (layer_elements host fill paths options); reflexivity.
  - cbn [layer_elements].
    rewrite <- IH by (intros; apply H; [right|]; assumption). reflexivity.
Qed.

(** *** List facts used by the simplifiers *)

Lemma last_nth_pred {A : Type} (l : list A) (d : A) :
  last l d = nth (length l - 1) l d.
Proof.
  induction l as [|x l IH]; [reflexivity|].
  destruct l as [|y l]; [reflexivity|].
  change (last (x :: y :: l) d) with (last (y :: l) d). rewrite IH.
  cbn [length].
  replace (S (S (length l)) - 1)%nat with (S (S (length l) - 1)) by lia.
  reflexivity.
Qed.

Lemma last_app_nonempty {A : Type} (l1 l2 : list A) (d : A) :
  l2 <> [] -> last (l1 ++ l2) d = last l2 d.
Proof.
  intros H. rewrite !last_nth_pred, length_app.
  assert (0 < length l2)%nat by (destruct l2; [congruence | simpl; lia]).
  rewrite app_nth2 by lia. f_equal. lia.
Qed.

Lemma last_skipn {A : Type} (k : nat) (l : list A) (d : A) :
  (k < length l)%nat -> last (skipn k l) d = last l d.
Proof.
  intros H. rewrite !last_nth_pred, nth_skipn, length_skipn. f_equal. lia.
Qed.

Lemma removelast_length {A : Type} (l : list A) :
  length (removelast l) = (length l - 1)%nat.
Proof.
  rewrite removelast_firstn_len, firstn_length_le; lia.
Qed.

(** *** simplifyPath of imagetrace.js *)

(** The farthest-point scan either never updates ([maxIdx] and [maxDist]
    keep their initial 0) or ends on an interior index. *)
Lemma farthest_spec (points : list point) :
  (snd (farthest points) = 0%nat /\ fst (farthest points) = 0%float) \/
  (1 <= snd (farthest points) /\ snd (farthest points) + 2 <= length points)%nat.
Proof.
  unfold farthest.
  assert (Hin : forall i, In i (seq 1 (length points - 2)) ->
                  (1 <= i /\ i + 2 <= length points)%nat).
  { intros i H. apply in_seq in H. lia. }
  revert Hin. generalize (seq 1 (length points - 2)).
  assert (H0 : (snd (0%float, 0%nat) = 0%nat /\ fst (0%float, 0%nat) = 0%float) \/
               (1 <= snd (0%float, 0%nat)
                /\ snd (0%float, 0%nat) + 2 <= length points)%nat)
    by (left; split; reflexivity).
  revert H0. generalize (0%float, 0%nat).
  intros st H0 l; revert st H0; induction l as [|i l IH]; intros st H0 Hin;
    cbn [fold_left]; [exact H0|].
  apply IH; [|intros; apply Hin; right; assumption].
  unfold farthest_step.
  destruct (PrimFloat.ltb (fst st) _); [|exact H0].
  right. cbn [snd]. apply Hin. left; reflexivity.
Qed.

Lemma simplifyPath_fuel_sound (fuel : nat) :
  forall points tolerance r,
    simplifyPath_fuel fuel points tolerance = Some r -> simplified_of points r.
Proof.
  induction fuel as [|fuel IH]; intros points tolerance r;
    cbn [simplifyPath_fuel];
    destruct (Nat.leb_spec (length points) 2) as [Hs|Hl];
    try (intros H; inversion H; subst r; repeat split; auto; lia);
    try discriminate.
  destruct (PrimFloat.ltb tolerance (fst (farthest points))).
  - set (mi := snd (farthest points)).
    assert (Hmi : (mi + 2 <= length points)%nat)
      by (subst mi; destruct (farthest_spec points) as [[-> _]|[_ ?]]; lia).
    destruct (simplifyPath_fuel fuel (firstn (mi + 1) points) tolerance)
      as [lft|] eqn:El; [|discriminate].
    destruct (simplifyPath_fuel fuel (skipn mi points) tolerance)
      as [rgt|] eqn:Er; [|discriminate].
    intros H; inversion H; subst r; clear H.
    apply IH in El as (L1 & L2 & L3). apply IH in Er as (R1 & R2 & R3).
    rewrite firstn_length_le in L1, L2, L3 by lia.
    rewrite length_skipn in R1, R2, R3.
    destruct R3 as (R3 & R4 & R5); [lia|].
    assert (Hr : rgt <> []) by (destruct rgt; [simpl in R3; lia | discriminate]).
    split; [rewrite length_app, removelast_length; lia|].
    split; [lia|]. intros _.
    split; [rewrite length_app; lia|]. split.
    + destruct mi as [|mi'].
      * rewrite L2 by lia. cbn [Nat.add firstn].
        destruct points as [|p0 ps]; [simpl in Hl; lia|].
        cbn [firstn removelast app]. rewrite R4. reflexivity.
      * destruct L3 as (L3 & L4 & _); [lia|].
        rewrite app_nth1 by (rewrite removelast_length; lia).
        rewrite removelast_firstn_len, nth_firstn.
        destruct (Nat.ltb_spec 0 (Nat.pred (length lft))); [|lia].
        rewrite L4, nth_firstn. reflexivity.
    + rewrite last_app_nonempty by exact Hr.
      rewrite R5. apply last_skipn. lia.
  - intros H; inversion H; subst r; clear H.
    split; [simpl; lia|]. split; [lia|]. intros _.
    split; [simpl; lia|]. split; [reflexivity|].
    rewrite (last_nth_pred points). reflexivity.
Qed.

Lemma simplifyPath_fuel_mono (fuel : nat) :
  forall fuel' points tolerance r,
    (fuel <= fuel')%nat ->
    simplifyPath_fuel fuel points tolerance = Some r ->
    simplifyPath_fuel fuel' points tolerance = Some r.
Proof.
  induction fuel as [|fuel IH]; intros fuel' points tolerance r Hle;
    cbn [simplifyPath_fuel].
  - destruct (length points <=? 2)%nat eqn:E; [|discriminate].
    intros H. destruct fuel'; cbn [simplifyPath_fuel]; rewrite E; exact H.
  - destruct fuel' as [|fuel']; [lia|]. cbn [simplifyPath_fuel].
    destruct (length points <=? 2)%nat; [auto|].
    destruct (PrimFloat.ltb tolerance (fst (farthest points))); [|auto].
    destruct (simplifyPath_fuel fuel (firstn _ points) tolerance)
      as [lft|] eqn:El; [|discriminate].
    destruct (simplifyPath_fuel fuel (skipn _ points) tolerance)
      as [rgt|] eqn:Er; [|discriminate].
    assert (F : (fuel <= fuel')%nat) by lia.
    rewrite (IH fuel' _ _ _ F El), (IH fuel' _ _ _ F Er).
    auto.
Qed.

Lemma simplifyPath_fuel_short (fuel : nat) (points : list point)
    (tolerance : float) :
  (length points <= 2)%nat ->
  simplifyPath_fuel fuel points tolerance = Some points.
Proof.
  intros H. destruct fuel; cbn [simplifyPath_fuel];
    destruct (Nat.leb_spec (length points) 2); try lia; reflexivity.
Qed.

(** When the scan leaves [maxIdx] at 0 and the recursion is still taken,
    the right-hand call is the call itself: no amount of fuel suffices. *)
Lemma simplifyPath_fuel_stuck (points : list point) (tolerance : float) :
  (2 < length points)%nat ->
  snd (farthest points) = 0%nat ->
  PrimFloat.ltb tolerance (fst (farthest points)) = true ->
  forall fuel, simplifyPath_fuel fuel points tolerance = None.
Proof.
  intros Hl Hi Ht fuel. induction fuel as [|fuel IH]; cbn [simplifyPath_fuel];
    destruct (Nat.leb_spec (length points) 2); try lia; [reflexivity|].
  rewrite Ht, Hi. change (skipn 0 points) with points. rewrite IH.
  destruct (simplifyPath_fuel fuel (firstn (0 + 1) points) tolerance);
    reflexivity.
Qed.

(** If the recursion returns with some fuel, it returns the same with
    [length points]: [None] from [simplifyPath] is a recursion that never
    returns. *)
Lemma simplifyPath_fuel_enough (fuel : nat) :
  forall points tolerance r,
    simplifyPath_fuel fuel points tolerance = Some r ->
    simplifyPath points tolerance = Some r.
Proof.
  unfold simplifyPath.
  induction fuel as [|fuel IH]; intros points tolerance r H.
  - eapply simplifyPath_fuel_mono; [|exact H]. lia.
  - cbn [simplifyPath_fuel] in H.
    destruct (Nat.leb_spec (length points) 2) as [Hs|Hl].
    + rewrite simplifyPath_fuel_short by exact Hs. exact H.
    + assert (En : exists n, length points = S n)
        by (exists (length points - 1)%nat; lia).
      destruct En as [n En]. rewrite En at 1.
      cbn [simplifyPath_fuel].
      destruct (Nat.leb_spec (length points) 2) as [Hs'|_]; [lia|].
      destruct (PrimFloat.ltb tolerance (fst (farthest points))) eqn:Et;
        [|exact H].
      destruct (farthest_spec points) as [[Hi _]|[Hi1 Hi2]].
      * exfalso.
        pose proof (simplifyPath_fuel_stuck points tolerance ltac:(lia) Hi Et
                      (S fuel)) as Hn.
        cbn [simplifyPath_fuel] in Hn.
        destruct (Nat.leb_spec (length points) 2) as [Hs'|_]; [lia|].
        rewrite Et in Hn. congruence.
      * set (mi := snd (farthest points)) in *.
        destruct (simplifyPath_fuel fuel (firstn (mi + 1) points) tolerance)
          as [lft|] eqn:El; [|discriminate].
        destruct (simplifyPath_fuel fuel (skipn mi points) tolerance)
          as [rgt|] eqn:Er; [|discriminate].
        apply IH in El. apply IH in Er.
        rewrite firstn_length_le in El by lia. rewrite length_skipn in Er.
        assert (F1 : (mi + 1 <= n)%nat) by lia.
        assert (F2 : (length points - mi <= n)%nat) by lia.
        rewrite (simplifyPath_fuel_mono _ n _ _ _ F1 El).
        rewrite (simplifyPath_fuel_mono _ n _ _ _ F2 Er).
        exact H.
Qed.

(** With a tolerance that is not negative the recursion always returns. *)
Lemma simplifyPath_total (tolerance : float) :
  PrimFloat.ltb tolerance 0 = false ->
  forall points, exists r, simplifyPath points tolerance = Some r.
Proof.
  intros Ht. unfold simplifyPath.
  assert (G : forall fuel points, (length points <= fuel)%nat ->
                exists r, simplifyPath_fuel fuel points tolerance = Some r).
  { induction fuel as [|fuel IH]; intros points Hf; cbn [simplifyPath_fuel];
      destruct (Nat.leb_spec (length points) 2) as [Hs|Hl]; eauto; try lia.
    destruct (PrimFloat.ltb tolerance (fst (farthest points))) eqn:Et; [|eauto].
    destruct (farthest_spec points) as [[_ Hd]|[Hi1 Hi2]].
    - rewrite Hd in Et. congruence.
    - set (mi := snd (farthest points)) in *.
      destruct (IH (firstn (mi + 1) points)) as [lft ->];
        [rewrite firstn_length_le; lia|].
      destruct (IH (skipn mi points)) as [rgt ->];
        [rewrite length_skipn; lia|].
      eauto. }
  intros points. apply G. lia.
Qed.

(** *** Typed-array writes keep the length *)

Lemma wrZ_length (l : list Z) (z v : Z) : length (wrZ l z v) = length l.
Proof. unfold wrZ. destruct (z <? 0); [reflexivity | apply wr_length]. Qed.

Lemma fold_left_length {A B : Type} (f : list A -> B -> list A) (l : list B) :
  (forall d b, length (f d b) = length d) ->
  forall d, length (fold_left f l d) = length d.
Proof.
  intros Hf. induction l as [|b l IH]; intros d; simpl; [reflexivity|].
  rewrite IH. apply Hf.
Qed.

Lemma toGrayscale_length (d : list Z) : length (toGrayscale d) = length d.
Proof.
  unfold toGrayscale. apply fold_left_length.
  intros d' i. unfold gray_step. rewrite !wr_length. reflexivity.
Qed.

Lemma toMonochrome_length (d : list Z) (thr : float) :
  length (toMonochrome d thr) = length d.
Proof.
  unfold toMonochrome. apply fold_left_length.
  intros d' i. unfold mono_step. rewrite !wr_length. reflexivity.
Qed.

Lemma blur_length (host : JsHost) (imgd : ImageData) (radius : Z) :
  length (blur host imgd radius) = length (data imgd).
Proof.
  unfold blur. destruct (radius <? 1); [reflexivity|].
  apply fold_left_length.
  intros d' xy. unfold blur_v_at, store_pixel. rewrite !wrZ_length. reflexivity.
Qed.

(** *** The serializer returns *)

Section TraceReturns.

Variable host : JsHost.
Variable options : Options.
Hypothesis tolerance_ok : PrimFloat.ltb (ltres options) 0 = false.
Hypothesis precision_ok : 0 <= roundcoords options <= 100.

Lemma pathToSvg_returns (path : list point) :
  exists d, pathToSvg host path options = Returns d.
Proof.
  unfold pathToSvg.
  destruct (length path =? 0)%nat; [eauto|].
  destruct (simplifyPath_total (ltres options) tolerance_ok path) as [r ->].
  destruct (length r <? 2)%nat; [eauto|].
  destruct (Z.ltb_spec (roundcoords options) 0); [lia|].
  destruct (Z.ltb_spec 100 (roundcoords options)); [lia|].
  cbn [orb]. eauto.
Qed.

Lemma layer_elements_returns (fill : string) (paths : list (list point)) :
  exists elems, layer_elements host fill paths options = Returns elems.
Proof.
  induction paths as [|path paths [elems IH]]; cbn [layer_elements]; [eauto|].
  destruct (pathToSvg_returns path) as [d ->]. rewrite IH. cbn [bind]. eauto.
Qed.

End TraceReturns.

(** *** The layers partition the opaque pixels *)

Lemma hits_existsb (c : Z) (arr : list Z) (j : nat) :
  hits c arr j = true -> existsb (fun v => v =? c) arr = true.
Proof.
  unfold hits. destruct (nth_error arr j) as [v|] eqn:E; [|discriminate].
  intros H. apply existsb_exists. exists v.
  split; [eapply nth_error_In; eassumption | exact H].
Qed.

Lemma existsb_hits (c : Z) (arr : list Z) :
  existsb (fun v => v =? c) arr = true ->
  exists j, (j < length arr)%nat /\ hits c arr j = true.
Proof.
  intros H. apply existsb_exists in H as (v & Hin & Hv).
  apply In_nth_error in Hin as [j Hj]. exists j. split.
  - apply nth_error_Some. rewrite Hj. discriminate.
  - unfold hits. rewrite Hj. exact Hv.
Qed.

(** The layers of colour [c] that hold pixel [i]: one when the pixel's
    index is [c], none otherwise. *)
Lemma layer_of_holds (indexed : IndexedImage) (palette : list color)
    (c i : nat) :
  (i < iwidth indexed * iheight indexed)%nat ->
  length (filter (in_layer i) (layer_of indexed palette c))
  = if hits (Z.of_nat c) (array indexed) i then 1%nat else 0%nat.
Proof.
  intros Hi. unfold layer_of.
  destruct (build_layer_spec indexed c) as (_ & N & B).
  destruct (hits (Z.of_nat c) (array indexed) i) eqn:Hh.
  - rewrite B, (hits_existsb _ _ _ Hh). cbn [filter].
    unfold in_layer at 1; cbn [l_array]. rewrite N, Hh.
    destruct (Nat.ltb_spec i (iwidth indexed * iheight indexed)); [|lia].
    reflexivity.
  - destruct (snd (build_layer indexed c)); [|reflexivity].
    cbn [filter]. unfold in_layer at 1; cbn [l_array]. rewrite N, Hh.
    reflexivity.
Qed.

Lemma count_layers (indexed : IndexedImage) (palette : list color) (i : nat)
    (v : Z) :
  (i < iwidth indexed * iheight indexed)%nat ->
  nth_error (array indexed) i = Some v ->
  forall n s,
    length (filter (in_layer i)
              (flat_map (layer_of indexed palette) (seq s n)))
    = if (Z.of_nat s <=? v) && (v <? Z.of_nat (s + n)) then 1%nat else 0%nat.
Proof.
  intros Hi Hv. induction n as [|n IH]; intros s; cbn [seq flat_map].
  - cbn [filter length].
    destruct (Z.leb_spec (Z.of_nat s) v), (Z.ltb_spec v (Z.of_nat (s + 0)));
      try reflexivity; lia.
  - rewrite filter_app, length_app, IH, layer_of_holds by exact Hi.
    unfold hits. rewrite Hv.
    destruct (Z.eqb_spec v (Z.of_nat s)),
             (Z.leb_spec (Z.of_nat (S s)) v),
             (Z.ltb_spec v (Z.of_nat (S s + n))),
             (Z.leb_spec (Z.of_nat s) v),
             (Z.ltb_spec v (Z.of_nat (s + S n)));
      cbn [andb]; try reflexivity; lia.
Qed.

Lemma layerSeparation_layers (indexed : IndexedImage) (palette : list color)
    (L : Layer) :
  length (array indexed) = (iwidth indexed * iheight indexed)%nat ->
  In L (layerSeparation indexed palette) ->
  length (l_array L) = (iwidth indexed * iheight indexed)%nat /\
  exists i, (i < iwidth indexed * iheight indexed)%nat /\ in_layer i L = true.
Proof.
  intros Hlen HL. unfold layerSeparation in HL.
  apply in_flat_map in HL as (c & _ & HL). unfold layer_of in HL.
  destruct (build_layer_spec indexed c) as (Len & N & B).
  destruct (snd (build_layer indexed c)) eqn:Hs; [|destruct HL].
  destruct HL as [<-|[]]. cbn [l_array]. split; [exact Len|].
  symmetry in B. apply existsb_hits in B as (j & Hj & Hh).
  exists j. split; [lia|]. unfold in_layer; cbn [l_array].
  rewrite N, Hh.
  destruct (Nat.ltb_spec j (iwidth indexed * iheight indexed)); [reflexivity | lia].
Qed.


(** *** The options the emitter reads *)

Lemma fold_left_ext {A B : Type} (f g : A -> B -> A) (l : list B) :
  (forall a b, f a b = g a b) -> forall a, fold_left f l a = fold_left g l a.
Proof.
  intros H. induction l as [|b l IH]; intros a; cbn [fold_left]; [reflexivity|].
  rewrite H. apply IH.
Qed.

Lemma tracePaths_ext (layer : Layer) (o1 o2 : Options) :
  pathomit o1 = pathomit o2 -> tracePaths layer o1 = tracePaths layer o2.
Proof.
  intros H. unfold tracePaths. f_equal. apply fold_left_ext.
  intros st xy. unfold trace_at. rewrite H. reflexivity.
Qed.

Lemma pathToSvg_ext (host : JsHost) (path : list point) (o1 o2 : Options) :
  same_emitter o1 o2 -> pathToSvg host path o1 = pathToSvg host path o2.
Proof.
  intros (_ & H2 & H3 & H4 & _). unfold pathToSvg, r_coord.
  rewrite H2, H3, H4. reflexivity.
Qed.

Lemma layer_elements_ext (host : JsHost) (fill : string)
    (paths : list (list point)) (o1 o2 : Options) :
  same_emitter o1 o2 ->
  layer_elements host fill paths o1 = layer_elements host fill paths o2.
Proof.
  intros H. induction paths as [|path paths IH]; cbn [layer_elements];
    [reflexivity|].
  rewrite (pathToSvg_ext host path o1 o2 H), IH. reflexivity.
Qed.

Lemma document_elements_ext (host : JsHost) (layers : list Layer)
    (o1 o2 : Options) :
  same_emitter o1 o2 ->
  document_elements host layers o1 = document_elements host layers o2.
Proof.
  intros H. induction layers as [|layer layers IH]; cbn [document_elements];
    [reflexivity|].
  rewrite (tracePaths_ext layer o1 o2 (proj1 H)).
  rewrite (layer_elements_ext host _ _ o1 o2 H), IH. reflexivity.
Qed.

Lemma generateSvg_ext (host : JsHost) (layers : list Layer) (w h : nat)
    (o1 o2 : Options) :
  same_emitter o1 o2 ->
  generateSvg host layers w h o1 = generateSvg host layers w h o2.
Proof.
  intros H. unfold generateSvg, svg_header.
  rewrite (document_elements_ext host layers o1 o2 H).
  destruct H as (_ & _ & H3 & _ & H5 & H6). rewrite H3, H5, H6. reflexivity.
Qed.

(** With a positive blur radius, in colour mode, trace returns what it
    returns without blur on the image the blur left in the buffer. *)
Lemma trace_reads_blurred (host : JsHost) (imgd : ImageData) (options : Options) :
  colorMode options = ModeColor ->
  0 < blurradius options ->
  snd (trace host imgd options)
  = snd (trace host
           (mkImageData (blur host imgd (blurradius options)) (width imgd)
              (height imgd))
           (without_blur options)).
Proof.
  intros Hm Hb. unfold trace. cbn [snd colorMode blurradius without_blur data
                                     width height].
  apply Z.ltb_lt in Hb. rewrite Hb, Hm. cbn [Z.ltb Z.compare].
  unfold quantize. cbn [data numberofcolors].
  destruct (length (quantize_pixels _) =? 0)%nat.
  - apply generateSvg_ext. repeat split.
  - destruct (medianCut _ _); [|reflexivity].
    apply generateSvg_ext. repeat split.
Qed.

End ImageTracerFacts.

(** * Properties of the Node library's tracer *)

Module NodeTracerFacts.

Import NodeTracer.

Lemma rgb_of_pixel_ext (p q : pixel) :
  (forall ch, chan ch p = chan ch q) -> rgb_of_pixel p = rgb_of_pixel q.
Proof.
  intros H. unfold rgb_of_pixel.
  pose proof (H Cr) as R1. pose proof (H Cg) as R2. pose proof (H Cb) as R3.
  simpl in R1, R2, R3. congruence.
Qed.

(** *** quantizeColors *)

Lemma quantizeColors_loop_total (fuel : nat) (numColors : Z) :
  forall buckets,
    Forall (nonempty pixel) buckets ->
    (length (concat buckets) <= length buckets + fuel)%nat ->
    exists r, quantizeColors_loop fuel numColors buckets = Some r.
Proof.
  induction fuel as [|fuel IH]; intros buckets Hne Hf;
    cbn [quantizeColors_loop];
    (destruct (Z.of_nat (length buckets) <? numColors); [|eauto]);
    (destruct (split_step chan buckets) as [buckets'|] eqn:S; [|eauto]);
    apply split_step_spec in S as (L & Pm & Ne & box & Hbox & Hlen).
  - pose proof (nonempty_boxes_length_lt pixel buckets box Hne Hbox Hlen). lia.
  - apply IH; [auto|]. rewrite (Permutation_length Pm). lia.
Qed.

Lemma quantizeColors_loop_spec (fuel : nat) (numColors : Z) :
  forall buckets r,
    quantizeColors_loop fuel numColors buckets = Some r ->
    (length buckets <= length r)%nat /\
    Z.of_nat (length r) <= Z.max (Z.of_nat (length buckets)) numColors /\
    Permutation (concat r) (concat buckets) /\
    (Forall (nonempty pixel) buckets -> Forall (nonempty pixel) r) /\
    (numColors <= Z.of_nat (length r) \/ split_step chan r = None).
Proof.
  induction fuel as [|fuel IH]; intros buckets r; cbn [quantizeColors_loop];
    (destruct (Z.ltb_spec (Z.of_nat (length buckets)) numColors) as [E1|E1];
     [|intros H; inversion H; subst; repeat split; auto; lia]);
    (destruct (split_step chan buckets) as [buckets'|] eqn:S;
     [|intros H; inversion H; subst; repeat split; auto; lia]);
    [discriminate|].
  intros H. apply IH in H as (A & B & C & D & E).
  apply split_step_spec in S as (L & Pm & Ne & _).
  repeat split; try lia; auto.
  rewrite C. exact Pm.
Qed.

Lemma bucket_average_count (bucket : list pixel) :
  count (bucket_average bucket) = Z.of_nat (length bucket).
Proof.
  unfold bucket_average. destruct bucket; reflexivity.
Qed.

(** No bucket is dropped by [filter(c => c.count > 0)] when none is
    empty. *)
Lemma filter_nonempty_buckets (buckets : list (list pixel)) :
  Forall (nonempty pixel) buckets ->
  filter (fun c => 0 <? count c) (map bucket_average buckets)
  = map bucket_average buckets.
Proof.
  induction 1 as [|bucket buckets Hb _ IH]; simpl; [reflexivity|].
  rewrite bucket_average_count, IH.
  destruct bucket; [unfold nonempty in Hb; congruence | reflexivity].
Qed.

(** What quantizeColors returns on a non-empty pixel list and a count of
    at least 1: the averages of the final buckets, none dropped. *)
Lemma quantizeColors_buckets (pixels : list pixel) (numColors : Z) :
  pixels <> [] -> 1 <= numColors ->
  exists r,
    quantizeColors_loop (length pixels) numColors [pixels] = Some r /\
    quantizeColors pixels numColors = Some (map bucket_average r) /\
    Forall (nonempty pixel) r.
Proof.
  intros Hne HN. unfold quantizeColors.
  assert (E0 : (length pixels =? 0)%nat = false)
    by (destruct pixels; [congruence | reflexivity]).
  assert (E1 : (numColors <? 1) = false) by (apply Z.ltb_ge; lia).
  rewrite E0, E1. cbn [orb].
  assert (Ne0 : Forall (nonempty pixel) [pixels])
    by (constructor; [exact Hne | constructor]).
  destruct (quantizeColors_loop_total (length pixels) numColors [pixels] Ne0)
    as [r Hr]; [simpl; rewrite app_nil_r; lia|].
  exists r. rewrite Hr. cbn [option_map].
  pose proof (quantizeColors_loop_spec _ _ _ _ Hr) as (_ & _ & _ & D & _).
  rewrite filter_nonempty_buckets by auto. auto.
Qed.

Lemma quantizeColors_some (pixels : list pixel) (numColors : Z) :
  exists palette, quantizeColors pixels numColors = Some palette.
Proof.
  destruct pixels as [|p pixels]; [unfold quantizeColors; simpl; eauto|].
  destruct (Z.ltb_spec numColors 1) as [H|H].
  - unfold quantizeColors. apply Z.ltb_lt in H. rewrite H, orb_true_r. eauto.
  - destruct (quantizeColors_buckets (p :: pixels) numColors) as (r & _ & E & _);
      [discriminate | lia | eauto].
Qed.

Lemma quantizeColors_length (pixels : list pixel) (numColors : Z)
    (palette : list entry) :
  quantizeColors pixels numColors = Some palette ->
  (1 <= length palette)%nat /\
  Z.of_nat (length palette) <= Z.max 1 numColors.
Proof.
  destruct pixels as [|p pixels].
  { unfold quantizeColors; simpl. intros H; inversion H; simpl; lia. }
  destruct (Z.ltb_spec numColors 1) as [H|H].
  - unfold quantizeColors. apply Z.ltb_lt in H. rewrite H, orb_true_r.
    intros E; inversion E; simpl; lia.
  - destruct (quantizeColors_buckets (p :: pixels) numColors) as (r & Hr & E & _);
      [discriminate | lia |].
    rewrite E. intros E'; inversion E'; subst palette. rewrite length_map.
    apply quantizeColors_loop_spec in Hr as (A & B & _). simpl in A, B. lia.
Qed.

Lemma quantizeColors_distinct (pixels : list pixel) (numColors : Z)
    (palette : list entry) :
  pixels <> [] ->
  Z.of_nat (distinct_by rgb_of_pixel pixels) < numColors ->
  quantizeColors pixels numColors = Some palette ->
  (distinct_by rgb_of_pixel pixels <= length palette)%nat /\
  Z.of_nat (length palette) <= numColors /\
  (length palette <= length pixels)%nat.
Proof.
  intros Hne Hd.
  destruct (quantizeColors_buckets pixels numColors Hne) as (r & Hr & E & Ne);
    [lia|].
  rewrite E. intros E'; inversion E'; subst palette. rewrite length_map.
  apply quantizeColors_loop_spec in Hr as (A & B & C & _ & X).
  simpl in A, B, C. rewrite app_nil_r in C.
  assert (Len : (length r <= length pixels)%nat).
  { rewrite <- (Permutation_length C). apply nonempty_boxes_length. exact Ne. }
  split; [|split; [lia | exact Len]].
  destruct X as [X|X]; [lia|].
  apply (split_none_distinct pixel chan rgb_of_pixel rgb_of_pixel_ext
           pixels r X C).
Qed.

(** *** getPalette *)

Lemma getPalette_pixels_above (d : list Z) :
  getPalette_pixels d = map pixel_of_color (pixels_above 128 d).
Proof.
  unfold getPalette_pixels, pixels_above, pixel_starts.
  induction (seq 0 ((length d + 3) / 4)) as [|k ks IH]; [reflexivity|].
  cbn [map flat_map filter]. rewrite IH.
  unfold getPalette_push, alpha_at, rd.
  destruct (nth_error d (4 * k + 3)) as [a|] eqn:E; [|reflexivity].
  destruct (128 <? a); reflexivity.
Qed.

(** *** simplifyPath *)

Lemma ltb_irrefl (x : float) : PrimFloat.ltb x x = false.
Proof.
  rewrite FloatAxioms.ltb_spec. unfold SFltb.
  destruct (Prim2SF x) as [s| s | |s m e]; cbn; try reflexivity.
  - destruct s; reflexivity.
  - destruct s; rewrite Z.compare_refl, Pos.compare_refl; reflexivity.
Qed.

(** The scan either never updates, and then [maxSqDist] is still
    [sqTolerance], or ends on an index strictly between [first] and
    [last]. *)
Lemma dp_scan_spec (points : list point) (first last : nat) (sqTol : float) :
  dp_scan points first last sqTol = (sqTol, 0%nat) \/
  (first < snd (dp_scan points first last sqTol) < last)%nat.
Proof.
  unfold dp_scan.
  assert (G : forall l st,
             (forall i, In i l -> (first < i < last)%nat) ->
             fold_left (dp_scan_step points first last) l st = st \/
             (first < snd (fold_left (dp_scan_step points first last) l st)
              < last)%nat).
  { induction l as [|i l IH]; intros st Hin; cbn [fold_left]; [left; reflexivity|].
    destruct (IH (dp_scan_step points first last st i)) as [E|E];
      [intros; apply Hin; right; assumption | | right; exact E].
    rewrite E. unfold dp_scan_step.
    destruct (PrimFloat.ltb (fst st) _); [|left; reflexivity].
    right. cbn [snd]. apply Hin. left; reflexivity. }
  apply G. intros i H. apply in_seq in H. lia.
Qed.

(** simplifyDPStep returns whenever its fuel covers the interval, and
    pushes at most the interior points of the interval. *)
Lemma simplifyDPStep_spec (points : list point) (sqTol : float) (fuel : nat) :
  forall first last simplified,
    (last - first <= fuel)%nat -> (first < last)%nat ->
    exists pushed,
      simplifyDPStep fuel points first last sqTol simplified
      = Some (simplified ++ pushed) /\
      (length pushed + 1 <= last - first)%nat.
Proof.
  induction fuel as [|fuel IH]; intros first last simplified Hf Hl; [lia|].
  cbn [simplifyDPStep].
  destruct (dp_scan_spec points first last sqTol) as [E|E].
  - rewrite E. cbn [fst snd]. rewrite ltb_irrefl.
    exists []. rewrite app_nil_r. split; [reflexivity | simpl; lia].
  - set (index := snd (dp_scan points first last sqTol)) in *.
    destruct (PrimFloat.ltb sqTol (fst (dp_scan points first last sqTol)));
      [|exists []; rewrite app_nil_r; split; [reflexivity | simpl; lia]].
    assert (L : exists p1,
               (if (1 <? index - first)%nat
                then simplifyDPStep fuel points first index sqTol simplified
                else Some simplified) = Some (simplified ++ p1) /\
               (length p1 + 1 <= index - first)%nat).
    { destruct (Nat.ltb_spec 1 (index - first)).
      - apply IH; lia.
      - exists []. rewrite app_nil_r. split; [reflexivity | simpl; lia]. }
    destruct L as (p1 & -> & L1).
    destruct (Nat.ltb_spec 1 (last - index)).
    + destruct (IH index last ((simplified ++ p1) ++ [nth index points origin]))
        as (p2 & -> & L2); try lia.
      exists (p1 ++ nth index points origin :: p2).
      split; [rewrite <- !app_assoc; reflexivity|].
      rewrite length_app; simpl; lia.
    + exists (p1 ++ [nth index points origin]).
      split; [rewrite <- !app_assoc; reflexivity|].
      rewrite length_app; simpl; lia.
Qed.

(** simplifyPath of usage.js returns for every path and every tolerance,
    and what it returns is a simplification of the path. *)
Lemma simplifyPath_spec (path : list point) (tolerance : float) :
  exists r, simplifyPath path tolerance = Some r /\ simplified_of path r.
Proof.
  unfold simplifyPath.
  destruct (Nat.leb_spec (length path) 2) as [Hs|Hl].
  - exists path. split; [reflexivity|]. repeat split; auto.
  - destruct (simplifyDPStep_spec path (tolerance * tolerance)%float
                (length path) 0 (length path - 1) [nth 0 path origin])
      as (pushed & -> & L); try lia.
    cbn [option_map]. eexists. split; [reflexivity|].
    rewrite <- app_assoc. cbn [app].
    split; [cbn [length]; rewrite length_app; cbn [length]; lia|].
    split; [lia|]. intros _.
    split; [cbn [length]; rewrite length_app; cbn [length]; lia|].
    split; [reflexivity|].
    change (nth 0 path origin :: pushed ++ [nth (length path - 1) path origin])
      with ((nth 0 path origin :: pushed) ++ [nth (length path - 1) path origin]).
    rewrite last_last. symmetry. apply ImageTracerFacts.last_nth_pred.
Qed.

End NodeTracerFacts.

(** * Further properties of the two tracers and of the converters *)

Module QuantizerFacts.

Lemma round_div_between (s n lo hi : Z) :
  0 < n -> n * lo <= s <= n * hi -> lo <= round_div s n <= hi.
Proof.
  intros Hn [H1 H2]. unfold round_div. split.
  - apply Z.div_le_lower_bound; nia.
  - assert ((2 * s + n) / (2 * n) < hi + 1); [|lia].
    apply Z.div_lt_upper_bound; nia.
Qed.

Lemma fold_sum_between {P : Type} (f : P -> Z) (lo hi : Z) (box : list P) :
  (forall p, In p box -> lo <= f p <= hi) ->
  forall a,
    a + Z.of_nat (length box) * lo
    <= fold_left (fun acc p => acc + f p) box a
    <= a + Z.of_nat (length box) * hi.
Proof.
  induction box as [|p box IH]; intros H a.
  - simpl. lia.
  - cbn [fold_left]. specialize (IH (fun q Hq => H q (or_intror Hq)) (a + f p)).
    pose proof (H p (or_introl eq_refl)).
    rewrite length_cons, Nat2Z.inj_succ. nia.
Qed.

Lemma average_between {P : Type} (f : P -> Z) (lo hi : Z) (box : list P) :
  box <> [] ->
  (forall p, In p box -> lo <= f p <= hi) ->
  lo <= round_div (fold_left (fun acc p => acc + f p) box 0)
          (Z.of_nat (length box)) <= hi.
Proof.
  intros Hne H. apply round_div_between.
  - destruct box; [congruence|]. rewrite length_cons. lia.
  - pose proof (fold_sum_between f lo hi box H 0). lia.
Qed.

Lemma in_concat_perm {A : Type} (boxes : list (list A)) (pixels : list A)
    (box : list A) (p : A) :
  Permutation (concat boxes) pixels -> In box boxes -> In p box -> In p pixels.
Proof.
  intros Pm Hb Hp. eapply Permutation_in; [exact Pm|].
  apply in_concat. eauto.
Qed.

(** A box list on which no channel of any box varies is not split. *)
Lemma split_step_uniform {P : Type} (get : channel -> P -> Z)
    (boxes : list (list P)) :
  (forall box ch p q, In box boxes -> In p box -> In q box ->
     get ch p = get ch q) ->
  split_step get boxes = None.
Proof.
  intros H. destruct (split_step get boxes) as [boxes'|] eqn:S; [|reflexivity].
  exfalso. unfold split_step in S.
  destruct (fst (fst (scan get boxes)) =? 0) eqn:E; [discriminate|].
  apply Z.eqb_neq in E.
  destruct (scan_spec P get boxes) as [[Hge Hinv] _].
  destruct Hinv as (box & Hnth & Hlen & Hr); [lia|].
  apply nth_error_In in Hnth.
  assert (Hz : channel_range get (snd (scan get boxes)) box = 0).
  { unfold channel_range.
    destruct box as [|p0 box0]; [reflexivity|]. cbn [map].
    assert (Hall : forall u, In u (map (get (snd (scan get boxes))) box0) ->
                     u = get (snd (scan get boxes)) p0).
    { intros u Hu. apply in_map_iff in Hu as (q & <- & Hq).
      apply (H (p0 :: box0)); [exact Hnth | right; exact Hq | left; reflexivity]. }
    clear - Hall. remember (get (snd (scan get boxes)) p0) as v. clear Heqv.
    assert (fold_left Z.max (map (get (snd (scan get boxes))) box0) v = v
            /\ fold_left Z.min (map (get (snd (scan get boxes))) box0) v = v)
      as [-> ->]; [|lia].
    induction (map (get (snd (scan get boxes))) box0) as [|u l IH]; [split; reflexivity|].
    cbn [fold_left]. rewrite (Hall u (or_introl eq_refl)).
    rewrite Z.max_id, Z.min_id. apply IH. intros; apply Hall; right; assumption. }
  lia.
Qed.


(** *** medianCut of imagetrace.js *)

Lemma medianCut_boxes (pixels : list color) (numColors : Z) :
  pixels <> [] -> 1 <= numColors ->
  exists r,
    ImageTracer.medianCut_loop (length pixels) (length pixels) numColors [pixels]
      = Some r /\
    ImageTracer.medianCut pixels numColors = Some (map ImageTracer.box_average r) /\
    Forall (nonempty color) r /\
    Permutation (concat r) pixels.
Proof.
  intros Hne HN. unfold ImageTracer.medianCut.
  destruct pixels as [|p0 pixels0] eqn:Ep; [congruence|]. rewrite <- Ep in *.
  assert (E1 : (length pixels =? 0)%nat = false)
    by (apply Nat.eqb_neq; rewrite Ep; simpl; lia).
  assert (E2 : (numColors <? 1) = false) by (apply Z.ltb_ge; lia).
  rewrite E1, E2. cbn [orb].
  destruct (ImageTracerFacts.medianCut_loop_total (length pixels) (length pixels)
              numColors [pixels]) as [r Hr]; [simpl; lia|].
  exists r. rewrite Hr. split; [reflexivity|]. split; [reflexivity|].
  apply ImageTracerFacts.medianCut_loop_spec in Hr as (_ & _ & Pm & Ne & _).
  split.
  - apply Ne. constructor; [exact Hne | constructor].
  - simpl in Pm. rewrite app_nil_r in Pm. exact Pm.
Qed.

Lemma box_average_field (f : color -> Z) (box : list color) :
  In f color_fields -> box <> [] ->
  f (ImageTracer.box_average box)
  = round_div (fold_left (fun acc p => acc + f p) box 0) (Z.of_nat (length box)).
Proof.
  intros Hf Hne. unfold ImageTracer.box_average.
  destruct box as [|p box0] eqn:E; [congruence|]. rewrite <- E.
  assert (L : (length box =? 0)%nat = false)
    by (apply Nat.eqb_neq; rewrite E; simpl; lia).
  rewrite L. unfold ImageTracer.sum_by.
  destruct Hf as [<-|[<-|[<-|[<-|[]]]]]; reflexivity.
Qed.

Lemma medianCut_within (pixels palette : list color) (numColors : Z)
    (f : color -> Z) (lo hi : Z) :
  In f color_fields ->
  pixels <> [] -> 1 <= numColors ->
  (forall p, In p pixels -> lo <= f p <= hi) ->
  ImageTracer.medianCut pixels numColors = Some palette ->
  forall c, In c palette -> lo <= f c <= hi.
Proof.
  intros Hf Hne HN Hb E c Hc.
  destruct (medianCut_boxes pixels numColors Hne HN) as (r & _ & E' & Ne & Pm).
  rewrite E' in E. inversion E; subst palette.
  apply in_map_iff in Hc as (box & <- & Hbox).
  rewrite Forall_forall in Ne. pose proof (Ne box Hbox) as Hbne.
  rewrite (box_average_field f box Hf Hbne).
  apply average_between; [exact Hbne|].
  intros p Hp. apply Hb. eapply in_concat_perm; eauto.
Qed.

Lemma nth_byte (d : list Z) (i : nat) :
  Forall (fun v => 0 <= v <= 255) d -> 0 <= nth i d 0 <= 255.
Proof.
  intros H. destruct (Nat.lt_ge_cases i (length d)) as [Hi|Hi].
  - rewrite Forall_forall in H. apply H. apply nth_In. exact Hi.
  - rewrite nth_overflow by exact Hi. lia.
Qed.

Lemma quantize_pixels_bytes (d : list Z) (f : color -> Z) (p : color) :
  Forall (fun v => 0 <= v <= 255) d ->
  In f color_fields ->
  In p (ImageTracer.quantize_pixels d) -> 0 <= f p <= 255.
Proof.
  intros Hd Hf Hp. unfold ImageTracer.quantize_pixels in Hp.
  apply in_flat_map in Hp as (i & _ & Hp).
  unfold ImageTracer.quantize_push in Hp.
  destruct (rd d (i + 3)) as [a|] eqn:Ea; [|destruct Hp].
  destruct (0 <? a); [|destruct Hp].
  destruct Hp as [<-|[]].
  assert (Ha : 0 <= a <= 255).
  { rewrite Forall_forall in Hd. apply Hd. eapply nth_error_In. exact Ea. }
  destruct Hf as [<-|[<-|[<-|[<-|[]]]]]; cbn; auto using nth_byte.
Qed.

Lemma quantize_bytes (imgd : ImageTracer.ImageData) (options : ImageTracer.Options) :
  Forall (fun v => 0 <= v <= 255) (ImageTracer.data imgd) ->
  exists palette,
    ImageTracer.quantize imgd options = Some palette /\
    forall c f, In c palette -> In f color_fields -> 0 <= f c <= 255.
Proof.
  intros Hd.
  destruct (ImageTracerFacts.quantize_some imgd options) as [palette E].
  exists palette. split; [exact E|]. intros c f Hc Hf.
  unfold ImageTracer.quantize in E.
  destruct (length (ImageTracer.quantize_pixels (ImageTracer.data imgd)) =? 0)%nat eqn:L.
  - inversion E; subst. destruct Hc as [<-|[]].
    destruct Hf as [<-|[<-|[<-|[<-|[]]]]]; cbn; lia.
  - apply Nat.eqb_neq in L.
    destruct (Z_lt_le_dec (ImageTracer.numberofcolors options) 1) as [HN|HN].
    + unfold ImageTracer.medianCut in E.
      apply Z.ltb_lt in HN. rewrite HN, orb_true_r in E.
      inversion E; subst. destruct Hc as [<-|[]].
      destruct Hf as [<-|[<-|[<-|[<-|[]]]]]; cbn; lia.
    + eapply (medianCut_within _ palette _ f 0 255 Hf); [| exact HN | | exact E | exact Hc].
      * intros Z0. rewrite Z0 in L. apply L. reflexivity.
      * intros p Hp. eapply quantize_pixels_bytes; eauto.
Qed.

(** A pixel list of one colour is never split: the palette is that
    colour. *)
Lemma medianCut_one_colour (pixels : list color) (numColors : Z) (c : color) :
  pixels <> [] -> 1 <= numColors ->
  (forall p, In p pixels -> p = c) ->
  ImageTracer.medianCut pixels numColors = Some [c].
Proof.
  intros Hne HN Hall.
  assert (Hs : split_step ImageTracer.chan [pixels] = None).
  { apply split_step_uniform. intros box ch p q [<-|[]] Hp Hq.
    rewrite (Hall p Hp), (Hall q Hq). reflexivity. }
  assert (Hl : ImageTracer.medianCut_loop (length pixels) (length pixels)
                 numColors [pixels] = Some [pixels]).
  { destruct pixels as [|p0 pixels0]; [congruence|].
    cbn [length ImageTracer.medianCut_loop]. rewrite Hs.
    destruct ((Z.of_nat 1 <? numColors) && (1 <? S (length pixels0))%nat);
      reflexivity. }
  destruct (medianCut_boxes pixels numColors Hne HN) as (r & Hr & E & _).
  rewrite Hl in Hr. inversion Hr; subst r. rewrite E. cbn [map].
  f_equal. f_equal.
  assert (F : forall f, In f color_fields -> f (ImageTracer.box_average pixels) = f c).
  { intros f Hf. rewrite (box_average_field f pixels Hf Hne).
    assert (f c <= round_div (fold_left (fun acc p => acc + f p) pixels 0)
                     (Z.of_nat (length pixels)) <= f c); [|lia].
    apply average_between; [exact Hne|].
    intros p Hp. rewrite (Hall p Hp). lia. }
  pose proof (F col_r ltac:(cbn; auto)).
  pose proof (F col_g ltac:(cbn; auto)).
  pose proof (F col_b ltac:(cbn; auto)).
  pose proof (F col_a ltac:(cbn; auto 6)).
  destruct (ImageTracer.box_average pixels), c; cbn in *; congruence.
Qed.


(** *** quantizeColors of usage.js *)

Lemma quantizeColors_boxes (pixels : list NodeTracer.pixel) (numColors : Z) :
  pixels <> [] -> 1 <= numColors ->
  exists r,
    NodeTracer.quantizeColors_loop (length pixels) numColors [pixels] = Some r /\
    NodeTracer.quantizeColors pixels numColors
      = Some (map NodeTracer.bucket_average r) /\
    Forall (nonempty NodeTracer.pixel) r /\
    Permutation (concat r) pixels.
Proof.
  intros Hne HN.
  destruct (NodeTracerFacts.quantizeColors_buckets pixels numColors Hne HN)
    as (r & Hr & E & Ne).
  exists r. repeat split; try assumption.
  apply NodeTracerFacts.quantizeColors_loop_spec in Hr as (_ & _ & Pm & _).
  simpl in Pm. rewrite app_nil_r in Pm. exact Pm.
Qed.

Lemma bucket_average_field (fp : NodeTracer.pixel -> Z) (fe : NodeTracer.entry -> Z)
    (bucket : list NodeTracer.pixel) :
  In (fp, fe) pixel_fields -> bucket <> [] ->
  fe (NodeTracer.bucket_average bucket)
  = round_div (fold_left (fun acc p => acc + fp p) bucket 0)
      (Z.of_nat (length bucket)).
Proof.
  intros Hf Hne. unfold NodeTracer.bucket_average.
  destruct bucket as [|p b0] eqn:E; [congruence|]. rewrite <- E.
  assert (L : (length bucket =? 0)%nat = false)
    by (apply Nat.eqb_neq; rewrite E; simpl; lia).
  rewrite L. unfold NodeTracer.sum_by.
  destruct Hf as [H|[H|[H|[]]]]; inversion H; subst; reflexivity.
Qed.

Lemma quantizeColors_within (pixels : list NodeTracer.pixel)
    (palette : list NodeTracer.entry) (numColors : Z)
    (fp : NodeTracer.pixel -> Z) (fe : NodeTracer.entry -> Z) (lo hi : Z) :
  In (fp, fe) pixel_fields ->
  pixels <> [] -> 1 <= numColors ->
  (forall p, In p pixels -> lo <= fp p <= hi) ->
  NodeTracer.quantizeColors pixels numColors = Some palette ->
  forall c, In c palette -> lo <= fe c <= hi.
Proof.
  intros Hf Hne HN Hb E c Hc.
  destruct (quantizeColors_boxes pixels numColors Hne HN) as (r & _ & E' & Ne & Pm).
  rewrite E' in E. inversion E; subst palette.
  apply in_map_iff in Hc as (box & <- & Hbox).
  rewrite Forall_forall in Ne. pose proof (Ne box Hbox) as Hbne.
  rewrite (bucket_average_field fp fe box Hf Hbne).
  apply average_between; [exact Hbne|].
  intros p Hp. apply Hb. eapply in_concat_perm; eauto.
Qed.

Lemma sum_lengths {A : Type} (boxes : list (list A)) :
  fold_right Z.add 0 (map (fun b => Z.of_nat (length b)) boxes)
  = Z.of_nat (length (concat boxes)).
Proof.
  induction boxes as [|b boxes IH]; [reflexivity|].
  cbn [map fold_right concat]. rewrite length_app, IH. lia.
Qed.

(** The counts of the palette add up to the number of pixels, and every
    count is positive. *)
Lemma quantizeColors_counts (pixels : list NodeTracer.pixel)
    (palette : list NodeTracer.entry) (numColors : Z) :
  pixels <> [] -> 1 <= numColors ->
  NodeTracer.quantizeColors pixels numColors = Some palette ->
  fold_right Z.add 0 (map NodeTracer.count palette) = Z.of_nat (length pixels) /\
  forall c, In c palette -> 1 <= NodeTracer.count c.
Proof.
  intros Hne HN E.
  destruct (quantizeColors_boxes pixels numColors Hne HN) as (r & _ & E' & Ne & Pm).
  rewrite E' in E. inversion E; subst palette. split.
  - rewrite map_map.
    rewrite (map_ext _ (fun b => Z.of_nat (length b))
               (fun b => NodeTracerFacts.bucket_average_count b)).
    rewrite sum_lengths. f_equal. apply Permutation_length. exact Pm.
  - intros c Hc. apply in_map_iff in Hc as (b & <- & Hb).
    rewrite NodeTracerFacts.bucket_average_count.
    rewrite Forall_forall in Ne. specialize (Ne b Hb).
    destruct b; [congruence|]. rewrite length_cons. lia.
Qed.

(** *** The two quantizers compute the same triples *)

Section SplitMap.

Variables P Q : Type.
Variable getP : channel -> P -> Z.
Variable getQ : channel -> Q -> Z.
Variable f : P -> Q.
Hypothesis get_f : forall ch p, getQ ch (f p) = getP ch p.

Lemma channel_range_map (ch : channel) (box : list P) :
  channel_range getQ ch (map f box) = channel_range getP ch box.
Proof.
  unfold channel_range. rewrite map_map.
  rewrite (map_ext _ (getP ch) (get_f ch)). reflexivity.
Qed.

Lemma scan_box_map (st : Z * nat * channel) (i : nat) (box : list P) :
  scan_box getQ st (i, map f box) = scan_box getP st (i, box).
Proof.
  unfold scan_box. cbn [fst snd]. rewrite length_map.
  destruct (length box <? 2)%nat; [reflexivity|].
  unfold channels. cbn [fold_left]. unfold scan_channel.
  rewrite !channel_range_map. reflexivity.
Qed.

Lemma scan_map (boxes : list (list P)) :
  scan getQ (map (map f) boxes) = scan getP boxes.
Proof.
  unfold scan. rewrite length_map.
  generalize (0%Z, 0%nat, Cr). generalize 0%nat.
  induction boxes as [|b boxes IH]; intros s st; [reflexivity|].
  cbn [length seq map combine fold_left]. rewrite scan_box_map. apply IH.
Qed.

Lemma insert_by_map (ch : channel) (x : P) (l : list P) :
  insert_by getQ ch (f x) (map f l) = map f (insert_by getP ch x l).
Proof.
  induction l as [|y l IH]; [reflexivity|].
  cbn [map insert_by]. rewrite !get_f.
  destruct (getP ch x <=? getP ch y); [reflexivity|].
  cbn [map]. rewrite IH. reflexivity.
Qed.

Lemma sort_by_map (ch : channel) (l : list P) :
  sort_by getQ ch (map f l) = map f (sort_by getP ch l).
Proof.
  unfold sort_by. induction l as [|x l IH]; [reflexivity|].
  cbn [map fold_right]. rewrite IH. apply insert_by_map.
Qed.

Lemma split_step_map (boxes : list (list P)) :
  split_step getQ (map (map f) boxes)
  = option_map (map (map f)) (split_step getP boxes).
Proof.
  unfold split_step. rewrite scan_map.
  destruct (fst (fst (scan getP boxes)) =? 0); [reflexivity|].
  cbn [option_map]. f_equal. unfold splice2.
  change (@nil Q) with (map f (@nil P)).
  rewrite (map_nth (map f)). rewrite sort_by_map.
  rewrite length_map, map_app. cbn [map].
  rewrite firstn_map, skipn_map, firstn_map, skipn_map. reflexivity.
Qed.

End SplitMap.

Lemma no_split_when_singletons {P : Type} (get : channel -> P -> Z)
    (boxes : list (list P)) :
  Forall (nonempty P) boxes ->
  (length (concat boxes) <= length boxes)%nat ->
  split_step get boxes = None.
Proof.
  intros Ne Hl.
  destruct (split_step get boxes) as [boxes'|] eqn:S; [|reflexivity].
  apply split_step_spec in S as (_ & _ & _ & box & Hb & H2).
  pose proof (nonempty_boxes_length_lt P boxes box Ne Hb H2). lia.
Qed.

Lemma loops_agree (fuel : nat) (numColors : Z) :
  forall boxes r,
    Forall (nonempty color) boxes ->
    ImageTracer.medianCut_loop fuel (length (concat boxes)) numColors boxes = Some r ->
    NodeTracer.quantizeColors_loop fuel numColors (map (map pixel_of_color) boxes)
    = Some (map (map pixel_of_color) r).
Proof.
  assert (G : forall ch p, NodeTracer.chan ch (pixel_of_color p) = ImageTracer.chan ch p)
    by (intros [] p; reflexivity).
  induction fuel as [|fuel IH]; intros boxes r Ne H.
  - cbn [ImageTracer.medianCut_loop] in H. cbn [NodeTracer.quantizeColors_loop].
    rewrite length_map.
    destruct (Z.of_nat (length boxes) <? numColors) eqn:E1; cbn [andb] in H.
    + destruct (length boxes <? length (concat boxes))%nat eqn:E2; [discriminate|].
      inversion H; subst r. apply Nat.ltb_ge in E2.
      rewrite (split_step_map _ _ ImageTracer.chan NodeTracer.chan pixel_of_color G).
      rewrite (no_split_when_singletons ImageTracer.chan boxes Ne E2). reflexivity.
    + inversion H; subst r. reflexivity.
  - cbn [ImageTracer.medianCut_loop] in H. cbn [NodeTracer.quantizeColors_loop].
    rewrite length_map.
    rewrite (split_step_map _ _ ImageTracer.chan NodeTracer.chan pixel_of_color G).
    destruct (Z.of_nat (length boxes) <? numColors) eqn:E1; cbn [andb] in H.
    + destruct (length boxes <? length (concat boxes))%nat eqn:E2.
      * destruct (split_step ImageTracer.chan boxes) as [boxes'|] eqn:S;
          cbn [option_map].
        -- pose proof S as S'.
           apply split_step_spec in S' as (_ & Pm & Ne' & _).
           apply IH; [auto|].
           rewrite (Permutation_length Pm). exact H.
        -- inversion H; subst r. reflexivity.
      * inversion H; subst r. apply Nat.ltb_ge in E2.
        rewrite (no_split_when_singletons ImageTracer.chan boxes Ne E2). reflexivity.
    + inversion H; subst r. reflexivity.
Qed.

Lemma averages_agree (box : list color) :
  box <> [] ->
  rgb_of_entry (NodeTracer.bucket_average (map pixel_of_color box))
  = rgb_of (ImageTracer.box_average box).
Proof.
  intros Hne. unfold NodeTracer.bucket_average, ImageTracer.box_average.
  rewrite length_map.
  destruct box as [|p b0] eqn:E; [congruence|]. rewrite <- E.
  assert (L : (length box =? 0)%nat = false)
    by (apply Nat.eqb_neq; rewrite E; simpl; lia).
  rewrite L. unfold rgb_of_entry, rgb_of, NodeTracer.sum_by, ImageTracer.sum_by.
  cbn [NodeTracer.e_r NodeTracer.e_g NodeTracer.e_b col_r col_g col_b].
  assert (F : forall (g : NodeTracer.pixel -> Z) (h : color -> Z),
                (forall q, g (pixel_of_color q) = h q) ->
                forall l a, fold_left (fun acc p => acc + g p) (map pixel_of_color l) a
                            = fold_left (fun acc p => acc + h p) l a).
  { intros g h Hgh l. induction l as [|q l IH]; intros a; [reflexivity|].
    cbn [map fold_left]. rewrite Hgh. apply IH. }
  rewrite (F NodeTracer.px_r col_r), (F NodeTracer.px_g col_g),
          (F NodeTracer.px_b col_b) by reflexivity.
  reflexivity.
Qed.

Lemma quantizers_agree (pixels : list color) (numColors : Z) :
  exists palette palette',
    ImageTracer.medianCut pixels numColors = Some palette /\
    NodeTracer.quantizeColors (map pixel_of_color pixels) numColors = Some palette' /\
    map rgb_of palette = map rgb_of_entry palette'.
Proof.
  destruct pixels as [|p0 pixels0] eqn:Ep.
  { exists [ImageTracer.gray], [NodeTracer.mkEntry 128 128 128 0].
    repeat split; reflexivity. }
  rewrite <- Ep. assert (Hne : pixels <> []) by (rewrite Ep; discriminate).
  clear Ep p0 pixels0.
  destruct (Z_lt_le_dec numColors 1) as [HN|HN].
  { exists [ImageTracer.gray], [NodeTracer.mkEntry 128 128 128 0].
    unfold ImageTracer.medianCut, NodeTracer.quantizeColors.
    apply Z.ltb_lt in HN. rewrite HN, !orb_true_r. repeat split; reflexivity. }
  destruct (medianCut_boxes pixels numColors Hne HN) as (r & Hr & E & Ne & Pm).
  exists (map ImageTracer.box_average r).
  exists (map NodeTracer.bucket_average (map (map pixel_of_color) r)).
  split; [exact E|]. split.
  - assert (Hne' : map pixel_of_color pixels <> [])
      by (destruct pixels; [congruence | discriminate]).
    destruct (quantizeColors_boxes (map pixel_of_color pixels) numColors Hne' HN)
      as (r' & Hr' & E' & _).
    rewrite E'. f_equal. f_equal.
    pose proof (loops_agree (length pixels) numColors [pixels] r) as LA.
    cbn [concat map] in LA. rewrite app_nil_r in LA.
    specialize (LA ltac:(constructor; [exact Hne | constructor]) Hr).
    rewrite length_map in Hr'. rewrite LA in Hr'. inversion Hr'. reflexivity.
  - rewrite !map_map. apply map_ext_in. intros box Hb.
    symmetry. apply averages_agree.
    rewrite Forall_forall in Ne. apply Ne. exact Hb.
Qed.

End QuantizerFacts.

Module IndexerFacts.

(** The palette search, over any entry type: [step] is the loop body and
    [D] the squared distance of an entry. *)
Section Search.

Variable A : Type.
Variable D : A -> Z.
Variable step : option Z * nat -> nat * A -> option Z * nat.
Hypothesis step_eq :
  forall st jp,
    step st jp =
    match fst st with
    | None => (Some (D (snd jp)), fst jp)
    | Some m => if D (snd jp) <? m then (Some (D (snd jp)), fst jp) else st
    end.

Lemma search_fold (d0 : A) (l : list A) :
  forall pre st,
    search_inv D d0 pre st ->
    search_inv D d0 (pre ++ l)
      (fold_left step (combine (seq (length pre) (length l)) l) st).
Proof.
  induction l as [|p l IH]; intros pre st Hinv.
  - rewrite app_nil_r. exact Hinv.
  - cbn [length seq combine fold_left].
    replace (pre ++ p :: l) with ((pre ++ [p]) ++ l)
      by (rewrite <- app_assoc; reflexivity).
    replace (S (length pre)) with (length (pre ++ [p]))
      by (rewrite length_app; simpl; lia).
    apply IH. rewrite step_eq. cbn [fst snd].
    unfold search_inv in *.
    destruct (fst st) as [m|] eqn:E.
    + destruct Hinv as (H1 & H2 & H3 & H4).
      destruct (Z.ltb_spec (D p) m) as [Hlt|Hge]; cbn [fst snd].
      * rewrite length_app; cbn [length].
        split; [lia|]. split.
        { rewrite app_nth2 by lia. rewrite Nat.sub_diag. reflexivity. }
        split.
        { intros k Hk. destruct (Nat.lt_ge_cases k (length pre)).
          - rewrite app_nth1 by assumption. specialize (H3 k H). lia.
          - rewrite app_nth2 by assumption.
            replace (k - length pre)%nat with 0%nat by lia. simpl. lia. }
        { intros k Hk. rewrite app_nth1 by assumption.
          specialize (H3 k Hk). lia. }
      * rewrite E. rewrite length_app; cbn [length].
        split; [lia|]. split.
        { rewrite app_nth1 by assumption. exact H2. }
        split.
        { intros k Hk. destruct (Nat.lt_ge_cases k (length pre)).
          - rewrite app_nth1 by assumption. auto.
          - rewrite app_nth2 by assumption.
            replace (k - length pre)%nat with 0%nat by lia. simpl. lia. }
        { intros k Hk. rewrite app_nth1 by lia. auto. }
    + destruct Hinv as [-> Hs]. cbn [fst snd app length].
      split; [lia|]. split; [reflexivity|]. split.
      * intros k Hk. replace k with 0%nat by lia. simpl. lia.
      * intros k Hk. lia.
Qed.

Lemma search_spec (d0 : A) (palette : list A) :
  palette <> [] ->
  let j := snd (fold_left step (combine (seq 0 (length palette)) palette)
                  (None, 0%nat)) in
  (j < length palette)%nat /\
  (forall k, (k < length palette)%nat ->
     D (nth j palette d0) <= D (nth k palette d0)) /\
  (forall k, (k < j)%nat -> D (nth j palette d0) < D (nth k palette d0)).
Proof.
  intros Hne j.
  pose proof (search_fold d0 palette [] (None, 0%nat)) as H.
  cbn [length app] in H. specialize (H (conj eq_refl eq_refl)).
  fold j in H. unfold search_inv in H.
  destruct (fst (fold_left step (combine (seq 0 (length palette)) palette)
                   (None, 0%nat))) as [m|] eqn:E.
  - fold j in H. destruct H as (H1 & H2 & H3 & H4).
    split; [exact H1|]. rewrite H2. split; assumption.
  - destruct H as [H _]. congruence.
Qed.

End Search.

Lemma sqdist_zero (r g b : Z) (t : Z * Z * Z) :
  sqdist r g b t = 0 <-> t = (r, g, b).
Proof.
  destruct t as [[tr tg] tb]. unfold sqdist; cbn [fst snd]. split.
  - intros H.
    pose proof (Z.square_nonneg (r - tr)) as H1.
    pose proof (Z.square_nonneg (g - tg)) as H2.
    pose proof (Z.square_nonneg (b - tb)) as H3.
    assert (E1 : (r - tr) * (r - tr) = 0) by lia.
    assert (E2 : (g - tg) * (g - tg) = 0) by lia.
    assert (E3 : (b - tb) * (b - tb) = 0) by lia.
    apply Z.mul_eq_0 in E1, E2, E3.
    f_equal; [f_equal|]; lia.
  - intros H; inversion H; subst. lia.
Qed.

Lemma sqdist_nonneg (r g b : Z) (t : Z * Z * Z) : 0 <= sqdist r g b t.
Proof.
  unfold sqdist.
  pose proof (Z.square_nonneg (r - fst (fst t))).
  pose proof (Z.square_nonneg (g - snd (fst t))).
  pose proof (Z.square_nonneg (b - snd t)). lia.
Qed.

(** The search settles on an entry of exactly the pixel's colour when the
    palette holds one. *)
Lemma first_nearest_exact (r g b : Z) (triples : list (Z * Z * Z)) (j : nat) :
  first_nearest r g b triples j ->
  In (r, g, b) triples -> nth j triples (0, 0, 0) = (r, g, b).
Proof.
  intros (Hj & Hmin & _) Hin.
  apply (In_nth _ _ (0, 0, 0)) in Hin as (k & Hk & Ek).
  specialize (Hmin k Hk). rewrite Ek in Hmin.
  assert (Z0 : sqdist r g b (r, g, b) = 0) by (apply sqdist_zero; reflexivity).
  pose proof (sqdist_nonneg r g b (nth j triples (0, 0, 0))).
  apply sqdist_zero. lia.
Qed.

(** *** createIndexedImage of imagetrace.js *)

Lemma closest_first_nearest (palette : list color) (r g b : Z) :
  palette <> [] ->
  first_nearest r g b (map rgb_of palette)
    (ImageTracer.closest palette (Some r) (Some g) (Some b)).
Proof.
  intros Hne. unfold ImageTracer.closest.
  pose proof (search_spec color (fun p => sqdist r g b (rgb_of p))
                (ImageTracer.closest_step (Some r) (Some g) (Some b))) as S.
  specialize (S ltac:(intros st jp; reflexivity) (mkColor 0 0 0 0) palette Hne).
  cbv zeta in S. destruct S as (S1 & S2 & S3).
  unfold first_nearest. rewrite length_map.
  change (0, 0, 0) with (rgb_of (mkColor 0 0 0 0)).
  split; [exact S1|]. split.
  - intros k Hk. rewrite !map_nth. apply S2. exact Hk.
  - intros k Hk. rewrite !map_nth. apply S3. exact Hk.
Qed.

Lemma index_of_opaque_pixel (d : list Z) (palette : list color) (i : nat)
    (r g b a : Z) :
  rd d (i * 4) = Some r -> rd d (i * 4 + 1) = Some g ->
  rd d (i * 4 + 2) = Some b -> rd d (i * 4 + 3) = Some a -> 128 <= a ->
  ImageTracer.index_of_pixel d palette i
  = Z.of_nat (ImageTracer.closest palette (Some r) (Some g) (Some b)).
Proof.
  intros Er Eg Eb Ea Ha. unfold ImageTracer.index_of_pixel.
  rewrite Er, Eg, Eb, Ea.
  destruct (Z.ltb_spec a 128); [lia | reflexivity].
Qed.

(** *** mapToPalette of usage.js *)

Lemma nth_error_wr {A : Type} (l : list A) (i j : nat) (v : A) :
  nth_error (wr l i v) j =
  if (j =? i)%nat && (i <? length l)%nat then Some v else nth_error l j.
Proof.
  revert i j; induction l as [|h t IH]; intros [|i] [|j]; simpl; auto;
    try (rewrite andb_false_r; reflexivity).
Qed.

Lemma fold_left_map {A B C : Type} (f : A -> B -> A) (h : C -> B) (l : list C) :
  forall a, fold_left f (map h l) a = fold_left (fun a x => f a (h x)) l a.
Proof. induction l as [|x l IH]; intros a; [reflexivity | apply IH]. Qed.

Lemma fold_wr_seq {A : Type} (g : nat -> A) (n : nat) :
  forall s l j,
    nth_error (fold_left (fun acc k => wr acc k (g k)) (seq s n) l) j
    = if (s <=? j)%nat && (j <? s + n)%nat && (j <? length l)%nat
      then Some (g j) else nth_error l j.
Proof.
  induction n as [|n IH]; intros s l j.
  - cbn [seq fold_left].
    destruct (Nat.leb_spec s j), (Nat.ltb_spec j (s + 0)); cbn; try reflexivity; lia.
  - cbn [seq fold_left]. rewrite IH, ImageTracerFacts.wr_length, nth_error_wr.
    destruct (Nat.leb_spec (S s) j), (Nat.ltb_spec j (S s + n)),
             (Nat.ltb_spec j (length l)), (Nat.leb_spec s j),
             (Nat.ltb_spec j (s + S n)), (Nat.eqb_spec j s),
             (Nat.ltb_spec s (length l)); cbn; try reflexivity; try lia.
    subst; reflexivity.
Qed.

Lemma fold_wr_seq_length {A : Type} (g : nat -> A) (l0 : list nat) :
  forall l, length (fold_left (fun acc k => wr acc k (g k)) l0 l) = length l.
Proof.
  induction l0 as [|k l0 IH]; intros l; [reflexivity|].
  cbn [fold_left]. rewrite IH. apply ImageTracerFacts.wr_length.
Qed.

Lemma mapToPalette_spec (d : list Z) (palette : list NodeTracer.entry) :
  length (NodeTracer.mapToPalette d palette) = (length d / 4)%nat /\
  forall k, (k < length d / 4)%nat ->
    nth_error (NodeTracer.mapToPalette d palette) k
    = Some (NodeTracer.store16 (NodeTracer.pixel_index d palette (4 * k))).
Proof.
  unfold NodeTracer.mapToPalette, pixel_starts.
  rewrite fold_left_map.
  rewrite (ImageTracerFacts.fold_left_ext _
             (fun acc k => wr acc k
                (NodeTracer.store16 (NodeTracer.pixel_index d palette (4 * k))))).
  2:{ intros a k. rewrite Nat.mul_comm, Nat.div_mul by lia.
      rewrite Nat.mul_comm. reflexivity. }
  split.
  - rewrite fold_wr_seq_length. apply repeat_length.
  - intros k Hk. rewrite fold_wr_seq, repeat_length.
    assert ((length d / 4 <= (length d + 3) / 4)%nat).
    { apply Nat.Div0.div_le_mono. lia. }
    destruct (Nat.leb_spec 0 k), (Nat.ltb_spec k (0 + (length d + 3) / 4)),
             (Nat.ltb_spec k (length d / 4)); cbn; try reflexivity; lia.
Qed.

Lemma nearest_first_nearest (palette : list NodeTracer.entry) (r g b : Z) :
  palette <> [] ->
  first_nearest r g b (map rgb_of_entry palette)
    (NodeTracer.nearest palette (Some r) (Some g) (Some b)).
Proof.
  intros Hne. unfold NodeTracer.nearest.
  pose proof (search_spec NodeTracer.entry (fun p => sqdist r g b (rgb_of_entry p))
                (NodeTracer.nearest_step (Some r) (Some g) (Some b))) as S.
  specialize (S ltac:(intros st jp; reflexivity) (NodeTracer.mkEntry 0 0 0 0)
                palette Hne).
  cbv zeta in S. destruct S as (S1 & S2 & S3).
  unfold first_nearest. rewrite length_map.
  change (0, 0, 0) with (rgb_of_entry (NodeTracer.mkEntry 0 0 0 0)).
  split; [exact S1|]. split.
  - intros k Hk. rewrite !map_nth. apply S2. exact Hk.
  - intros k Hk. rewrite !map_nth. apply S3. exact Hk.
Qed.

Lemma store16_small (v : Z) : -32768 <= v < 32768 -> NodeTracer.store16 v = v.
Proof.
  intros H. unfold NodeTracer.store16.
  rewrite Z.mod_small by lia. lia.
Qed.


(** *** The two indexers agree *)

Lemma searches_agree (r g b : option Z) :
  forall (palette : list color) (palette' : list NodeTracer.entry) s st,
    map rgb_of_entry palette' = map rgb_of palette ->
    fold_left (NodeTracer.nearest_step r g b)
      (combine (seq s (length palette')) palette') st
    = fold_left (ImageTracer.closest_step r g b)
        (combine (seq s (length palette)) palette) st.
Proof.
  induction palette as [|c palette IH]; intros [|e palette'] s st E;
    try discriminate; [reflexivity|].
  cbn [map] in E. inversion E as [[E1 E2 E3 E4]].
  cbn [length seq combine fold_left].
  rewrite (IH palette' (S s) _ E4). f_equal.
  unfold NodeTracer.nearest_step, ImageTracer.closest_step,
    NodeTracer.dist2, ImageTracer.dist2. cbn [fst snd].
  rewrite E1, E2, E3. reflexivity.
Qed.

Lemma nth_error_ext_len {A : Type} (l1 l2 : list A) :
  length l1 = length l2 ->
  (forall i, (i < length l1)%nat -> nth_error l1 i = nth_error l2 i) ->
  l1 = l2.
Proof.
  revert l2; induction l1 as [|x l1 IH]; intros [|y l2] L H; try discriminate;
    [reflexivity|].
  pose proof (H 0%nat ltac:(simpl; lia)) as H0. inversion H0; subst.
  f_equal. apply IH; [simpl in L; lia|].
  intros i Hi. apply (H (S i)). simpl; lia.
Qed.

Lemma indexers_agree (d : list Z) (w h : nat) (palette : list color)
    (palette' : list NodeTracer.entry) :
  length d = (4 * (w * h))%nat ->
  Z.of_nat (length palette) <= 32768 ->
  map rgb_of_entry palette' = map rgb_of palette ->
  NodeTracer.mapToPalette d palette'
  = ImageTracer.array
      (ImageTracer.createIndexedImage (ImageTracer.mkImageData d w h) palette).
Proof.
  intros Ld Lp E.
  destruct (mapToPalette_spec d palette') as [L1 N1].
  destruct (ImageTracerFacts.createIndexedImage_array
              (ImageTracer.mkImageData d w h) palette) as [L2 N2].
  cbn [ImageTracer.width ImageTracer.height ImageTracer.data] in L2, N2.
  assert (Lq : (length d / 4 = w * h)%nat).
  { rewrite Ld, Nat.mul_comm, Nat.div_mul by lia. reflexivity. }
  apply nth_error_ext_len; [rewrite L1, L2; exact Lq|].
  intros i Hi. rewrite L1 in Hi. rewrite (N1 i Hi), N2 by lia. f_equal.
  unfold NodeTracer.pixel_index, ImageTracer.index_of_pixel.
  replace (i * 4)%nat with (4 * i)%nat by lia.
  unfold NodeTracer.nearest, ImageTracer.closest.
  rewrite (searches_agree _ _ _ palette palette' 0%nat (None, 0%nat) E).
  fold (ImageTracer.closest palette (rd d (4 * i)) (rd d (4 * i + 1))
          (rd d (4 * i + 2))).
  assert (Hc : 0 <= Z.of_nat (ImageTracer.closest palette (rd d (4 * i))
                               (rd d (4 * i + 1)) (rd d (4 * i + 2))) < 32768).
  { destruct palette as [|c palette0] eqn:Ep.
    - cbn. lia.
    - rewrite <- Ep in *.
      pose proof (ImageTracerFacts.closest_lt palette (rd d (4 * i))
                    (rd d (4 * i + 1)) (rd d (4 * i + 2))
                    ltac:(rewrite Ep; discriminate)). lia. }
  destruct (rd d (4 * i + 3)) as [a|].
  - destruct (a <? 128); [reflexivity|]. apply store16_small. lia.
  - apply store16_small. lia.
Qed.

End IndexerFacts.

Module RectFacts.

Import NodeTracer.

Lemma cover_count_app (l1 l2 : list rect) (x y : Z) :
  cover_count (l1 ++ l2) x y = (cover_count l1 x y + cover_count l2 x y)%nat.
Proof. unfold cover_count. rewrite filter_app, length_app. reflexivity. Qed.

Lemma cover_count_cons (rc : rect) (l : list rect) (x y : Z) :
  cover_count (rc :: l) x y
  = ((if covers rc x y then 1 else 0) + cover_count l x y)%nat.
Proof. unfold cover_count. cbn [filter]. destruct (covers rc x y); reflexivity. Qed.

Lemma cover_count_perm (l1 l2 : list rect) (x y : Z) :
  Permutation l1 l2 -> cover_count l1 x y = cover_count l2 x y.
Proof.
  induction 1; [reflexivity | | | congruence].
  - rewrite !cover_count_cons. congruence.
  - rewrite !cover_count_cons. lia.
Qed.

(** *** The run-length loop of createColorRects *)

Section Row.

Variable indexed : list Z.
Variable width : nat.
Variable c : Z.
Variable y : nat.

Lemma run_step_cell (st : list rect * Z) (x : nat) :
  run_step indexed width c y st x
  = if cell indexed width c x y && (snd st =? -1) then (fst st, Z.of_nat x)
    else if negb (cell indexed width c x y) && negb (snd st =? -1)
    then (fst st ++ [mkRect (snd st) (Z.of_nat y) (Z.of_nat x - snd st) 1], -1)
    else st.
Proof. reflexivity. Qed.

Lemma run_step_inv (rects0 new : list rect) (run : Z) (n : nat) :
  run_inv indexed width c y n new run ->
  exists new' run',
    run_step indexed width c y (rects0 ++ new, run) n = (rects0 ++ new', run') /\
    run_inv indexed width c y (S n) new' run'.
Proof.
  intros (Hh & Hrun & Hcount). rewrite run_step_cell. cbn [fst snd].
  destruct (cell indexed width c n y) eqn:Ecell;
    destruct (Z.eqb_spec run (-1)) as [Er|Er]; cbn [andb negb].
  - (* a run opens *)
    exists new, (Z.of_nat n). split; [reflexivity|].
    split; [exact Hh|]. split.
    + right. split; [lia|]. intros x Hx. rewrite Nat2Z.id in Hx.
      replace x with n by lia. exact Ecell.
    + intros cx cy. rewrite Hcount. subst run. rewrite ?Z.eqb_refl.
      destruct (Z.eqb_spec (Z.of_nat n) (-1)); [lia | reflexivity].
  - (* the run goes on *)
    exists new, run. split; [reflexivity|].
    split; [exact Hh|]. split.
    + right. destruct Hrun as [Hrun|[Hr Hall]]; [congruence|].
      split; [lia|]. intros x Hx.
      destruct (Nat.eq_dec x n) as [->|Hne]; [exact Ecell | apply Hall; lia].
    + intros cx cy. rewrite Hcount.
      destruct (Z.eqb_spec run (-1)); [congruence | reflexivity].
  - (* no run, and none opens *)
    exists new, (-1). split; [subst run; reflexivity|].
    split; [exact Hh|]. split; [left; reflexivity|].
    intros cx cy. rewrite Hcount. subst run. rewrite ?Z.eqb_refl.
    destruct (Z.eqb_spec cy (Z.of_nat y)); cbn [andb]; [|reflexivity].
    destruct (Z.leb_spec 0 cx); cbn [andb]; [|reflexivity].
    destruct (Z.ltb_spec cx (Z.of_nat n)), (Z.ltb_spec cx (Z.of_nat (S n)));
      cbn [andb]; try reflexivity; try lia.
    replace (Z.to_nat cx) with n by lia. rewrite Ecell. reflexivity.
  - (* the run closes: its rectangle is pushed *)
    destruct Hrun as [Hrun|[Hr Hall]]; [congruence|].
    exists (new ++ [mkRect run (Z.of_nat y) (Z.of_nat n - run) 1]), (-1).
    split; [rewrite app_assoc; reflexivity|].
    split; [apply Forall_app; split;
              [exact Hh | repeat constructor; cbn [rc_w]; lia]|].
    split; [left; reflexivity|].
    intros cx cy. rewrite cover_count_app, Hcount, cover_count_cons.
    unfold cover_count at 1. cbn [filter length]. unfold covers.
    cbn [rc_x rc_y rc_w rc_h]. rewrite ?Z.eqb_refl.
    destruct (Z.eqb_spec run (-1)); [congruence|].
    destruct (Z.eqb_spec cy (Z.of_nat y)); cbn [andb].
    2:{ destruct (Z.leb_spec (Z.of_nat y) cy), (Z.ltb_spec cy (Z.of_nat y + 1));
          rewrite ?andb_false_r; cbn [andb]; try reflexivity; lia. }
    subst cy.
    destruct (Z.leb_spec (Z.of_nat y) (Z.of_nat y)); [|lia].
    destruct (Z.ltb_spec (Z.of_nat y) (Z.of_nat y + 1)); [|lia].
    rewrite !andb_true_r.
    destruct (Z.leb_spec 0 cx); cbn [andb].
    2:{ destruct (Z.leb_spec run cx); [lia|]. reflexivity. }
    destruct (Z.ltb_spec cx run); cbn [andb].
    + destruct (Z.leb_spec run cx); [lia|]. cbn [andb].
      destruct (Z.ltb_spec cx (Z.of_nat (S n))); [|lia]. cbn [andb].
      destruct (cell indexed width c (Z.to_nat cx) y); reflexivity.
    + destruct (Z.leb_spec run cx); [|lia]. cbn [andb].
      destruct (Z.ltb_spec cx (run + (Z.of_nat n - run))).
      * destruct (Z.ltb_spec cx (Z.of_nat (S n))); [|lia]. cbn [andb].
        rewrite (Hall (Z.to_nat cx)) by lia. reflexivity.
      * destruct (Z.ltb_spec cx (Z.of_nat (S n))); cbn [andb]; [|reflexivity].
        replace (Z.to_nat cx) with n by lia. rewrite Ecell. reflexivity.
Qed.

Lemma run_fold_inv (rects0 : list rect) (k : nat) :
  forall n new run,
    run_inv indexed width c y n new run ->
    exists new' run',
      fold_left (run_step indexed width c y) (seq n k) (rects0 ++ new, run)
      = (rects0 ++ new', run') /\
      run_inv indexed width c y (n + k) new' run'.
Proof.
  induction k as [|k IH]; intros n new run Hinv.
  - exists new, run. rewrite Nat.add_0_r. split; [reflexivity | exact Hinv].
  - cbn [seq fold_left].
    destruct (run_step_inv rects0 new run n Hinv) as (new1 & run1 & E1 & Hinv1).
    rewrite E1.
    destruct (IH (S n) new1 run1 Hinv1) as (new2 & run2 & E2 & Hinv2).
    exists new2, run2. split; [exact E2|].
    replace (n + S k)%nat with (S n + k)%nat by lia. exact Hinv2.
Qed.

Lemma row_rects_spec (rects0 : list rect) :
  exists new,
    row_rects indexed width c rects0 y = rects0 ++ new /\
    Forall (fun rc => rc_h rc = 1 /\ 1 <= rc_w rc) new /\
    forall cx cy,
      cover_count new cx cy
      = if (cy =? Z.of_nat y) && (0 <=? cx)
           && cell indexed width c (Z.to_nat cx) y
        then 1%nat else 0%nat.
Proof.
  unfold row_rects.
  assert (H0 : run_inv indexed width c y 0 [] (-1)).
  { split; [constructor|]. split; [left; reflexivity|].
    intros cx cy. rewrite ?Z.eqb_refl. change (cover_count [] cx cy) with 0%nat.
    destruct (cy =? Z.of_nat y), (Z.leb_spec 0 cx), (Z.ltb_spec cx (Z.of_nat 0));
      cbn [andb]; try reflexivity; lia. }
  destruct (run_fold_inv rects0 (width + 1) 0%nat [] (-1) H0)
    as (new & run & E & Hh & Hrun & Hcount).
  rewrite app_nil_r in E. rewrite E. cbn [fst].
  exists new. split; [reflexivity|]. split; [exact Hh|].
  assert (Hw : forall x, (width <= x)%nat -> cell indexed width c x y = false).
  { intros x Hx. unfold cell. destruct (Nat.ltb_spec x width); [lia | reflexivity]. }
  assert (Er : run = -1).
  { destruct Hrun as [Hrun|[Hr Hall]]; [exact Hrun|].
    specialize (Hall width ltac:(lia)). rewrite Hw in Hall by lia. discriminate. }
  intros cx cy. rewrite Hcount. subst run. rewrite ?Z.eqb_refl.
  destruct (cy =? Z.of_nat y); cbn [andb]; [|reflexivity].
  destruct (Z.leb_spec 0 cx); cbn [andb]; [|reflexivity].
  destruct (Z.ltb_spec cx (Z.of_nat (0 + (width + 1)))); cbn [andb]; [reflexivity|].
  rewrite Hw by lia. reflexivity.
Qed.

End Row.

(** The rows, top to bottom. *)
Lemma rows_spec (indexed : list Z) (width : nat) (c : Z) (k : nat) :
  forall s rects0,
    exists new,
      fold_left (row_rects indexed width c) (seq s k) rects0 = rects0 ++ new /\
      Forall (fun rc => rc_h rc = 1 /\ 1 <= rc_w rc) new /\
      forall cx cy,
        cover_count new cx cy
        = if (Z.of_nat s <=? cy) && (cy <? Z.of_nat (s + k)) && (0 <=? cx)
             && cell indexed width c (Z.to_nat cx) (Z.to_nat cy)
          then 1%nat else 0%nat.
Proof.
  induction k as [|k IH]; intros s rects0.
  - exists []. rewrite app_nil_r. split; [reflexivity|]. split; [constructor|].
    intros cx cy. change (cover_count [] cx cy) with 0%nat.
    destruct (Z.leb_spec (Z.of_nat s) cy), (Z.ltb_spec cy (Z.of_nat (s + 0)));
      cbn [andb]; try reflexivity; lia.
  - cbn [seq fold_left].
    destruct (row_rects_spec indexed width c s rects0) as (new1 & E1 & H1 & C1).
    rewrite E1.
    destruct (IH (S s) (rects0 ++ new1)) as (new2 & E2 & H2 & C2).
    exists (new1 ++ new2). split; [rewrite E2, app_assoc; reflexivity|].
    split; [apply Forall_app; split; assumption|].
    intros cx cy. rewrite cover_count_app, C1, C2.
    destruct (Z.eqb_spec cy (Z.of_nat s)) as [->|Hne]; cbn [andb].
    + rewrite Nat2Z.id.
      destruct (Z.leb_spec (Z.of_nat (S s)) (Z.of_nat s)); [lia|].
      destruct (Z.leb_spec (Z.of_nat s) (Z.of_nat s)); [|lia].
      destruct (Z.ltb_spec (Z.of_nat s) (Z.of_nat (s + S k))); [|lia].
      cbn [andb]. rewrite Nat.add_0_r. reflexivity.
    + destruct (Z.leb_spec (Z.of_nat (S s)) cy), (Z.leb_spec (Z.of_nat s) cy),
               (Z.ltb_spec cy (Z.of_nat (S s + k))),
               (Z.ltb_spec cy (Z.of_nat (s + S k)));
        cbn [andb]; try reflexivity; lia.
Qed.

(** *** mergeRects *)

Lemma insert_rect_perm (a : rect) (l : list rect) :
  Permutation (insert_rect a l) (a :: l).
Proof.
  induction l as [|b l IH]; [reflexivity|]. cbn [insert_rect].
  destruct (rect_le a b); [reflexivity|].
  rewrite IH. apply perm_swap.
Qed.

Lemma sort_rects_perm (l : list rect) : Permutation (sort_rects l) l.
Proof.
  unfold sort_rects. induction l as [|a l IH]; [reflexivity|].
  cbn [fold_right]. rewrite insert_rect_perm. constructor. exact IH.
Qed.

Lemma covers_merged (cur rc : rect) (x y : Z) :
  0 <= rc_h cur -> 0 <= rc_h rc ->
  rc_x rc = rc_x cur -> rc_w rc = rc_w cur -> rc_y rc = rc_y cur + rc_h cur ->
  (if covers (mkRect (rc_x cur) (rc_y cur) (rc_w cur) (rc_h cur + rc_h rc)) x y
   then 1 else 0)%nat
  = ((if covers cur x y then 1 else 0) + (if covers rc x y then 1 else 0))%nat.
Proof.
  intros H1 H2 Ex Ew Ey. unfold covers. cbn [rc_x rc_y rc_w rc_h].
  rewrite Ex, Ew, Ey.
  destruct (Z.leb_spec (rc_x cur) x), (Z.ltb_spec x (rc_x cur + rc_w cur));
    cbn [andb]; try reflexivity.
  destruct (Z.leb_spec (rc_y cur) y), (Z.ltb_spec y (rc_y cur + (rc_h cur + rc_h rc))),
           (Z.ltb_spec y (rc_y cur + rc_h cur)),
           (Z.leb_spec (rc_y cur + rc_h cur) y),
           (Z.ltb_spec y (rc_y cur + rc_h cur + rc_h rc));
    cbn [andb]; try reflexivity; lia.
Qed.

Lemma merge_fold (rest : list rect) :
  forall merged current,
    0 <= rc_h current -> Forall (fun rc => 0 <= rc_h rc) rest ->
    let st := fold_left merge_step rest (merged, current) in
    (forall x y,
       cover_count (fst st ++ [snd st]) x y
       = cover_count (merged ++ current :: rest) x y) /\
    (length (fst st ++ [snd st]) <= length (merged ++ current :: rest))%nat.
Proof.
  induction rest as [|rc rest IH]; intros merged current Hc Hr st.
  - subst st. cbn [fold_left fst snd]. split; [reflexivity | lia].
  - subst st. cbn [fold_left]. inversion Hr as [|? ? Hrc Hrest]; subst.
    destruct ((rc_x rc =? rc_x current) && (rc_w rc =? rc_w current)
              && (rc_y rc =? rc_y current + rc_h current)) eqn:E.
    + assert (Es : merge_step (merged, current) rc
                   = (merged, mkRect (rc_x current) (rc_y current) (rc_w current)
                                (rc_h current + rc_h rc)))
        by (unfold merge_step; cbn [fst snd]; rewrite E; reflexivity).
      rewrite Es.
      apply andb_prop in E as [E E3]. apply andb_prop in E as [E1 E2].
      apply Z.eqb_eq in E1, E2, E3.
      destruct (IH merged (mkRect (rc_x current) (rc_y current) (rc_w current)
                             (rc_h current + rc_h rc))
                  ltac:(cbn; lia) Hrest) as [A B].
      split.
      * intros x y. rewrite A. rewrite !cover_count_app, !cover_count_cons.
        pose proof (covers_merged current rc x y Hc Hrc E1 E2 E3). lia.
      * rewrite !length_app in *. cbn [length] in *. lia.
    + assert (Es : merge_step (merged, current) rc = (merged ++ [current], rc))
        by (unfold merge_step; cbn [fst snd]; rewrite E; reflexivity).
      rewrite Es.
      destruct (IH (merged ++ [current]) rc Hrc Hrest) as [A B].
      split.
      * intros x y. rewrite A, <- app_assoc. reflexivity.
      * rewrite <- app_assoc in B. exact B.
Qed.

Lemma mergeRects_spec (rects : list rect) :
  Forall (fun rc => 0 <= rc_h rc) rects ->
  (forall x y, cover_count (mergeRects rects) x y = cover_count rects x y) /\
  (length (mergeRects rects) <= length rects)%nat /\
  (rects = [] <-> mergeRects rects = []).
Proof.
  intros Hh. unfold mergeRects.
  pose proof (sort_rects_perm rects) as Pm.
  assert (Hs : Forall (fun rc => 0 <= rc_h rc) (sort_rects rects)).
  { eapply Permutation_Forall; [symmetry; exact Pm | exact Hh]. }
  destruct (sort_rects rects) as [|first rest] eqn:Es.
  - apply Permutation_nil in Pm. subst. repeat split; auto.
  - inversion Hs as [|? ? Hf Hr]; subst.
    destruct (merge_fold rest [] first Hf Hr) as [A B]. cbn [app] in A, B.
    split; [|split].
    + intros x y. rewrite A. apply cover_count_perm. exact Pm.
    + rewrite <- (Permutation_length Pm). exact B.
    + split.
      * intros ->. apply Permutation_sym, Permutation_nil in Pm. discriminate.
      * intros H. apply app_eq_nil in H as [_ H]. discriminate.
Qed.

Lemma merge_fold_positive (rest : list rect) :
  forall merged current,
    Forall (fun rc => 1 <= rc_w rc /\ 1 <= rc_h rc) (merged ++ current :: rest) ->
    let st := fold_left merge_step rest (merged, current) in
    Forall (fun rc => 1 <= rc_w rc /\ 1 <= rc_h rc) (fst st ++ [snd st]).
Proof.
  induction rest as [|rc rest IH]; intros merged current H st.
  - subst st. exact H.
  - subst st. cbn [fold_left].
    apply Forall_app in H as [Hm Hr].
    inversion Hr as [|? ? Hc Hr']; subst. inversion Hr' as [|? ? Hrc Hrest]; subst.
    destruct (merge_step (merged, current) rc) as [merged' current'] eqn:E.
    apply IH. unfold merge_step in E. cbn [fst snd] in E.
    destruct ((rc_x rc =? rc_x current) && (rc_w rc =? rc_w current)
              && (rc_y rc =? rc_y current + rc_h current));
      inversion E; subst; clear E.
    + apply Forall_app. split; [exact Hm|].
      constructor; [cbn [rc_w rc_h]; lia | exact Hrest].
    + rewrite <- app_assoc. apply Forall_app. split; [exact Hm|].
      constructor; [exact Hc|]. constructor; assumption.
Qed.

Lemma mergeRects_positive (rects : list rect) :
  Forall (fun rc => 1 <= rc_w rc /\ 1 <= rc_h rc) rects ->
  Forall (fun rc => 1 <= rc_w rc /\ 1 <= rc_h rc) (mergeRects rects).
Proof.
  intros H. unfold mergeRects.
  assert (Hs : Forall (fun rc => 1 <= rc_w rc /\ 1 <= rc_h rc) (sort_rects rects)).
  { eapply Permutation_Forall; [symmetry; apply sort_rects_perm | exact H]. }
  destruct (sort_rects rects) as [|first rest]; [constructor|].
  apply (merge_fold_positive rest [] first). exact Hs.
Qed.

(** *** createColorRects *)

Lemma createColorRects_spec (indexed : list Z) (width height colorIdx : nat)
    (x y : Z) :
  cover_count (createColorRects indexed width height colorIdx) x y
  = if cell_in indexed width height (Z.of_nat colorIdx) x y
    then 1%nat else 0%nat.
Proof.
  unfold createColorRects.
  destruct (rows_spec indexed width (Z.of_nat colorIdx) height 0%nat [])
    as (new & E & Hh & Hc).
  rewrite E. cbn [app].
  destruct (mergeRects_spec new) as (A & _).
  { eapply Forall_impl; [|exact Hh]. intros rc [H _]. lia. }
  rewrite A, Hc. unfold cell_in. cbn [Nat.add].
  destruct (Z.leb_spec (Z.of_nat 0) y), (Z.leb_spec 0 y); try lia;
    cbn [andb]; [|rewrite andb_false_r; reflexivity].
  destruct (Z.ltb_spec y (Z.of_nat height)), (Z.leb_spec 0 x);
    cbn [andb]; reflexivity.
Qed.


Lemma createColorRects_positive (indexed : list Z) (width height colorIdx : nat) :
  Forall (fun rc => 1 <= rc_w rc /\ 1 <= rc_h rc)
    (createColorRects indexed width height colorIdx).
Proof.
  unfold createColorRects.
  destruct (rows_spec indexed width (Z.of_nat colorIdx) height 0%nat [])
    as (new & E & Hh & _).
  rewrite E. cbn [app]. apply mergeRects_positive.
  eapply Forall_impl; [|exact Hh]. intros rc [H1 H2]. lia.
Qed.

(** No rectangle is emitted for a colour that no pixel has. *)
Lemma createColorRects_nil (indexed : list Z) (width height colorIdx : nat) :
  (forall x y, cell_in indexed width height (Z.of_nat colorIdx) x y = false) ->
  createColorRects indexed width height colorIdx = [].
Proof.
  intros H.
  pose proof (createColorRects_positive indexed width height colorIdx) as Hp.
  pose proof (createColorRects_spec indexed width height colorIdx) as Hc.
  destruct (createColorRects indexed width height colorIdx) as [|rc rects];
    [reflexivity|].
  exfalso. inversion Hp as [|? ? [Hw Hh] _]; subst.
  specialize (Hc (rc_x rc) (rc_y rc)). rewrite H in Hc.
  rewrite cover_count_cons in Hc.
  assert (Hcov : covers rc (rc_x rc) (rc_y rc) = true).
  { unfold covers.
    destruct (Z.leb_spec (rc_x rc) (rc_x rc)), (Z.ltb_spec (rc_x rc) (rc_x rc + rc_w rc)),
             (Z.leb_spec (rc_y rc) (rc_y rc)), (Z.ltb_spec (rc_y rc) (rc_y rc + rc_h rc));
      try reflexivity; lia. }
  rewrite Hcov in Hc. discriminate.
Qed.

End RectFacts.

Module ContourFacts.

Import ImageTracer.

Lemma getPixel_inside (layer : Layer) (x y : Z) :
  truthy (getPixel layer x y) = true -> set_inside layer (x, y).
Proof.
  unfold truthy, getPixel, set_inside; cbn [fst snd].
  destruct (Z.ltb_spec x 0), (Z.leb_spec (Z.of_nat (l_width layer)) x),
           (Z.ltb_spec y 0), (Z.leb_spec (Z.of_nat (l_height layer)) y);
    cbn [orb]; try discriminate.
  intros Hp. apply negb_true_iff, Z.eqb_neq in Hp. repeat split; try lia; exact Hp.
Qed.

Lemma isEdge_set (layer : Layer) (x y : Z) :
  isEdge layer x y = true -> truthy (getPixel layer x y) = true.
Proof.
  unfold isEdge. destruct (truthy (getPixel layer x y)); [reflexivity|].
  cbn [negb]. discriminate.
Qed.

Lemma next_edge_from_edge (layer : Layer) (cx cy : Z) (dir : nat)
    (cands : list nat) (nx ny : Z) (nd : nat) :
  next_edge_from layer cx cy dir cands = Some (nx, ny, nd) ->
  isEdge layer nx ny = true /\ adjacent (cx, cy) (nx, ny) = true.
Proof.
  induction cands as [|i rest IH]; cbn [next_edge_from]; [discriminate|].
  set (newDir := ((dir + 3 + i) mod 4)%nat).
  assert (Hd : (newDir < 4)%nat) by (apply Nat.mod_upper_bound; lia).
  clearbody newDir.
  destruct (truthy (getPixel layer _ _) && isEdge layer _ _) eqn:E.
  - intros H; inversion H; subst. apply andb_prop in E as [_ E].
    split; [exact E|]. unfold adjacent; cbn [fst snd]. apply Z.eqb_eq.
    destruct (ImageTracerFacts.step_cases nd Hd)
      as [[Sx Sy]|[[Sx Sy]|[[Sx Sy]|[Sx Sy]]]]; rewrite Sx, Sy; lia.
  - exact IH.
Qed.

(** What the walk pushes from the current pixel on: edge pixels, each next
    to the one before, and no more of them than steps are allowed. *)
Lemma walk_contour (layer : Layer) (sx sy : Z) (k : nat) :
  forall cx cy dir path visited,
    exists rest,
      fst (walk layer sx sy k cx cy dir path visited) = path ++ (cx, cy) :: rest /\
      Forall (fun q => on_edge layer q = true) rest /\
      stepwise (cx, cy) rest = true /\
      (S (length rest) <= Nat.max 1 k)%nat.
Proof.
  induction k as [|k IH]; intros cx cy dir path visited; cbn [walk].
  - destruct (next_edge layer cx cy dir) as [[[nx ny] nd]|];
      exists []; cbn [fst length stepwise]; repeat split; auto; lia.
  - destruct (next_edge layer cx cy dir) as [[[nx ny] nd]|] eqn:E;
      [|exists []; cbn [fst length stepwise]; repeat split; auto; lia].
    destruct (negb ((nx =? sx) && (ny =? sy)) && negb (k =? 0)%nat) eqn:C;
      [|exists []; cbn [fst length stepwise]; repeat split; auto; lia].
    apply andb_prop in C as [_ Ck]. apply negb_true_iff, Nat.eqb_neq in Ck.
    apply next_edge_from_edge in E as (He & Ha).
    destruct (IH nx ny nd (path ++ [(cx, cy)])
                (wrZ visited (cy * Z.of_nat (l_width layer) + cx) 1))
      as (rest & Hw & Hr & Hs & Hl).
    exists ((nx, ny) :: rest). rewrite Hw, <- app_assoc.
    split; [reflexivity|]. split; [constructor; assumption|].
    split; [cbn [stepwise]; rewrite Ha, Hs; reflexivity|].
    cbn [length]. lia.
Qed.

Lemma in_grid (w h : nat) (x y : Z) :
  In (x, y) (grid w h) <-> 0 <= x < Z.of_nat w /\ 0 <= y < Z.of_nat h.
Proof.
  unfold grid. rewrite in_flat_map. split.
  - intros (j & Hj & Hin). apply in_map_iff in Hin as (i & Hi & Hin).
    inversion Hi; subst. apply in_seq in Hj, Hin. lia.
  - intros [Hx Hy]. exists (Z.to_nat y). split; [apply in_seq; lia|].
    apply in_map_iff. exists (Z.to_nat x). split; [|apply in_seq; lia].
    f_equal; lia.
Qed.

(** The paths the scan collects, beyond those it started with. *)
Lemma tracePaths_fold (layer : Layer) (options : Options)
    (Q : list point -> Prop) :
  (forall x y visited,
     isEdge layer x y = true ->
     let path := fst (walk layer x y (l_width layer * l_height layer * 4)
                        x y 0 [] visited) in
     pathomit options <= Z.of_nat (length path) -> Q path) ->
  forall g paths visited,
    Forall Q paths ->
    Forall Q (fst (fold_left (trace_at layer options) g (paths, visited))).
Proof.
  intros HQ g. induction g as [|[x0 y0] g IH]; intros paths visited H0;
    cbn [fold_left]; [exact H0|].
  unfold trace_at at 2; cbn [fst snd].
  destruct (truthy (getPixel layer x0 y0)
            && negb (truthy (rdZ visited (y0 * Z.of_nat (l_width layer) + x0)))
            && isEdge layer x0 y0) eqn:C; [|apply IH; exact H0].
  apply andb_prop in C as [_ He].
  destruct (Z.leb_spec (pathomit options)
              (Z.of_nat (length (fst (walk layer x0 y0
                 (l_width layer * l_height layer * 4) x0 y0 0 [] visited)))));
    apply IH; [|exact H0].
  apply Forall_app. split; [exact H0|]. constructor; [|constructor].
  apply HQ; assumption.
Qed.

Lemma tracePaths_contours (layer : Layer) (options : Options) (path : list point) :
  In path (tracePaths layer options) ->
  path <> [] /\
  Forall (fun q => on_edge layer q = true) path /\
  connected path = true /\
  pathomit options <= Z.of_nat (length path) /\
  (length path <= l_width layer * l_height layer * 4)%nat.
Proof.
  intros Hin.
  set (Q := fun path : list point =>
              path <> [] /\
              Forall (fun q => on_edge layer q = true) path /\
              connected path = true /\
              pathomit options <= Z.of_nat (length path) /\
              (length path <= l_width layer * l_height layer * 4)%nat).
  assert (HF : Forall Q (tracePaths layer options));
    [|rewrite Forall_forall in HF; exact (HF path Hin)].
  unfold tracePaths. apply tracePaths_fold; [|constructor].
  intros x y visited He path0 Hlen.
  destruct (walk_contour layer x y (l_width layer * l_height layer * 4)
              x y 0%nat [] visited) as (rest & Hw & Hr & Hs & Hl).
  cbn [app] in Hw. subst path0. rewrite Hw in *. unfold Q.
  split; [discriminate|]. split; [constructor; assumption|].
  split; [exact Hs|]. split; [exact Hlen|].
  cbn [length].
  apply isEdge_set, getPixel_inside in He as (Hx & Hy & _). cbn [fst snd] in Hx, Hy.
  assert (Hwh : (1 <= l_width layer * l_height layer)%nat) by nia.
  clear - Hl Hwh. unfold point in *. lia.
Qed.

Lemma on_edge_inside (layer : Layer) (q : point) :
  on_edge layer q = true -> set_inside layer q.
Proof.
  intros H. destruct q as [x y]. apply getPixel_inside, isEdge_set. exact H.
Qed.

Lemma grid_length (w h : nat) : length (grid w h) = (w * h)%nat.
Proof.
  unfold grid. induction h as [|h IH]; [cbn; lia|].
  rewrite seq_S, flat_map_app, length_app, IH. cbn [flat_map].
  rewrite app_nil_r, length_map, length_seq. lia.
Qed.

(** The scan starts at most one path per pixel. *)
Lemma tracePaths_count (layer : Layer) (options : Options) :
  (length (tracePaths layer options) <= l_width layer * l_height layer)%nat.
Proof.
  unfold tracePaths.
  assert (G : forall g paths visited,
            (length (fst (fold_left (trace_at layer options) g (paths, visited)))
             <= length paths + length g)%nat).
  { induction g as [|xy g IH]; intros paths visited; cbn [fold_left length fst];
      [lia|].
    destruct (trace_at layer options (paths, visited) xy) as [paths' visited'] eqn:E.
    specialize (IH paths' visited').
    assert ((length paths' <= S (length paths))%nat); [|lia].
    unfold trace_at in E. cbn [fst snd] in E.
    destruct (_ && _ && _) in E; [|inversion E; subst; lia].
    destruct (_ <=? _) in E; inversion E; subst;
      rewrite ?length_app; cbn [length]; lia. }
  specialize (G (grid (l_width layer) (l_height layer)) []
                (repeat 0 (l_width layer * l_height layer)%nat)).
  cbn [length] in G.
  rewrite grid_length in G.
  lia.
Qed.

End ContourFacts.

Module SimplifierFacts.

Lemma Subseq_refl {A : Type} (l : list A) : Subseq l l.
Proof. induction l; constructor; assumption. Qed.

Lemma Subseq_nil_l {A : Type} (l : list A) : Subseq [] l.
Proof. induction l; constructor; assumption. Qed.

Lemma Subseq_app {A : Type} (a b c d : list A) :
  Subseq a b -> Subseq c d -> Subseq (a ++ c) (b ++ d).
Proof.
  intros H1 H2. induction H1; cbn [app]; [exact H2 | |]; constructor; assumption.
Qed.

Lemma Subseq_length {A : Type} (l1 l2 : list A) :
  Subseq l1 l2 -> (length l1 <= length l2)%nat.
Proof. induction 1; simpl; lia. Qed.

Lemma Subseq_In {A : Type} (l1 l2 : list A) (x : A) :
  Subseq l1 l2 -> In x l1 -> In x l2.
Proof.
  induction 1; intros Hx; [destruct Hx | right; auto |].
  destruct Hx as [->|Hx]; [left; reflexivity | right; auto].
Qed.

Lemma Subseq_removelast {A : Type} (l2 : list A) (x : A) :
  forall l1, Subseq l1 (l2 ++ [x]) -> Subseq (removelast l1) l2.
Proof.
  induction l2 as [|y l2 IH]; intros l1 H; cbn [app] in H.
  - inversion H as [|? ? ? H'|? ? ? H']; subst; inversion H'; subst;
      cbn; constructor.
  - inversion H as [|? ? ? H'|? l1' ? H']; subst.
    + apply Subseq_skip. apply IH. exact H'.
    + destruct l1' as [|z l1'']; [cbn; apply Subseq_nil_l|].
      change (removelast (y :: z :: l1'')) with (y :: removelast (z :: l1'')).
      apply Subseq_take. apply IH. exact H'.
Qed.

Lemma Subseq_ends {A : Type} (l : list A) (d : A) :
  (2 <= length l)%nat -> Subseq [nth 0 l d; nth (length l - 1) l d] l.
Proof.
  intros H. destruct l as [|p l]; [simpl in H; lia|].
  cbn [nth]. apply Subseq_take.
  replace (length (p :: l) - 1)%nat with (length l) by (simpl; lia).
  assert (Hl : l <> []) by (destruct l; [simpl in H; lia | discriminate]).
  destruct (exists_last Hl) as (l' & z & ->).
  rewrite length_app. cbn [length nth].
  replace (length l' + 1)%nat with (S (length l')) by lia.
  cbn [nth]. rewrite app_nth2 by lia.
  replace (length l' - length l')%nat with 0%nat by lia. cbn [nth].
  change [z] with ([] ++ [z]). apply Subseq_app; [apply Subseq_nil_l | apply Subseq_refl].
Qed.

(** *** simplifyPath of imagetrace.js *)

Lemma simplifyPath_fuel_subseq (fuel : nat) :
  forall points tolerance r,
    ImageTracer.simplifyPath_fuel fuel points tolerance = Some r ->
    Subseq r points.
Proof.
  induction fuel as [|fuel IH]; intros points tolerance r;
    cbn [ImageTracer.simplifyPath_fuel];
    destruct (Nat.leb_spec (length points) 2) as [Hs|Hl];
    try (intros H; inversion H; subst r; apply Subseq_refl);
    try discriminate.
  destruct (PrimFloat.ltb tolerance (fst (ImageTracer.farthest points))).
  - set (mi := snd (ImageTracer.farthest points)).
    assert (Hmi : (mi + 2 <= length points)%nat)
      by (subst mi; destruct (ImageTracerFacts.farthest_spec points)
            as [[-> _]|[_ ?]]; lia).
    destruct (ImageTracer.simplifyPath_fuel fuel (firstn (mi + 1) points) tolerance)
      as [lft|] eqn:El; [|discriminate].
    destruct (ImageTracer.simplifyPath_fuel fuel (skipn mi points) tolerance)
      as [rgt|] eqn:Er; [|discriminate].
    intros H; inversion H; subst r; clear H.
    apply IH in El. apply IH in Er.
    rewrite <- (firstn_skipn mi points).
    apply Subseq_app; [|exact Er].
    apply (Subseq_removelast _ (nth mi points origin)).
    replace (firstn mi points ++ [nth mi points origin])
      with (firstn (mi + 1) points); [exact El|].
    rewrite Nat.add_1_r.
    rewrite <- (firstn_skipn mi points) at 1.
    rewrite firstn_app, firstn_firstn, length_firstn.
    replace (Nat.min (S mi) mi) with mi by lia.
    replace (S mi - Nat.min mi (length points))%nat with 1%nat by lia.
    f_equal.
    rewrite <- (firstn_skipn mi points) at 2.
    rewrite app_nth2 by (rewrite length_firstn; lia).
    rewrite length_firstn.
    replace (mi - Nat.min mi (length points))%nat with 0%nat by lia.
    destruct (skipn mi points) as [|q qs] eqn:Es; [|reflexivity].
    apply (f_equal (@length _)) in Es. rewrite length_skipn in Es. simpl in Es. lia.
  - intros H; inversion H; subst r; clear H.
    apply Subseq_ends. lia.
Qed.

(** *** simplifyPath of usage.js *)

Lemma firstn_plus {A : Type} (a b : nat) :
  forall l : list A, firstn (a + b) l = firstn a l ++ firstn b (skipn a l).
Proof.
  induction a as [|a IH]; intros l; [reflexivity|].
  destruct l as [|x l]; cbn [Nat.add firstn skipn app].
  - rewrite firstn_nil. reflexivity.
  - rewrite IH. reflexivity.
Qed.

Lemma segment_split (points : list point) (a m b : nat) :
  (a <= m < b)%nat -> (b <= length points)%nat ->
  segment points a b
  = segment points a m ++ nth m points origin :: segment points (S m) b.
Proof.
  intros H Hb. unfold segment.
  replace (b - a)%nat with ((m - a) + S (b - S m))%nat by lia.
  rewrite firstn_plus. f_equal.
  rewrite skipn_skipn. replace (m - a + a)%nat with m by lia.
  destruct (skipn m points) as [|q qs] eqn:Es.
  - apply (f_equal (@length _)) in Es. rewrite length_skipn in Es. simpl in Es. lia.
  - cbn [firstn]. f_equal.
    + rewrite <- (firstn_skipn m points) at 1.
      rewrite app_nth2 by (rewrite length_firstn; lia).
      rewrite length_firstn, Es.
      replace (m - Nat.min m (length points))%nat with 0%nat by lia. reflexivity.
    + f_equal. change (S m) with (1 + m)%nat. rewrite <- skipn_skipn, Es. reflexivity.
Qed.

Lemma simplifyDPStep_subseq (points : list point) (sqTol : float) (fuel : nat) :
  forall first last simplified r,
    (first < last)%nat -> (last < length points)%nat ->
    NodeTracer.simplifyDPStep fuel points first last sqTol simplified = Some r ->
    exists pushed,
      r = simplified ++ pushed /\ Subseq pushed (segment points (S first) last).
Proof.
  induction fuel as [|fuel IH]; intros first last simplified r Hl Hn;
    [discriminate|].
  cbn [NodeTracer.simplifyDPStep].
  destruct (NodeTracerFacts.dp_scan_spec points first last sqTol) as [E|E].
  - rewrite E. cbn [fst snd]. rewrite NodeTracerFacts.ltb_irrefl.
    intros H; inversion H; subst. exists []. rewrite app_nil_r.
    split; [reflexivity | apply Subseq_nil_l].
  - set (index := snd (NodeTracer.dp_scan points first last sqTol)) in *.
    destruct (PrimFloat.ltb sqTol (fst (NodeTracer.dp_scan points first last sqTol))).
    2:{ intros H; inversion H; subst. exists []. rewrite app_nil_r.
        split; [reflexivity | apply Subseq_nil_l]. }
    assert (L : forall s1,
               (if (1 <? index - first)%nat
                then NodeTracer.simplifyDPStep fuel points first index sqTol simplified
                else Some simplified) = Some s1 ->
               exists p1, s1 = simplified ++ p1
                          /\ Subseq p1 (segment points (S first) index)).
    { intros s1. destruct (Nat.ltb_spec 1 (index - first)).
      - apply IH; lia.
      - intros H'; inversion H'; subst. exists []. rewrite app_nil_r.
        split; [reflexivity | apply Subseq_nil_l]. }
    destruct (if (1 <? index - first)%nat
              then NodeTracer.simplifyDPStep fuel points first index sqTol simplified
              else Some simplified) as [s1|]; [|discriminate].
    destruct (L s1 eq_refl) as (p1 & -> & S1).
    rewrite (segment_split points (S first) index last) by lia.
    destruct (Nat.ltb_spec 1 (last - index)).
    + intros H'. apply IH in H' as (p2 & -> & S2); try lia.
      exists (p1 ++ nth index points origin :: p2).
      split; [rewrite <- !app_assoc; reflexivity|].
      apply Subseq_app; [exact S1|]. apply Subseq_take. exact S2.
    + intros H'; inversion H'; subst.
      exists (p1 ++ [nth index points origin]).
      split; [rewrite <- !app_assoc; reflexivity|].
      apply Subseq_app; [exact S1|]. apply Subseq_take. apply Subseq_nil_l.
Qed.

Lemma node_simplifyPath_subseq (path r : list point) (tolerance : float) :
  NodeTracer.simplifyPath path tolerance = Some r -> Subseq r path.
Proof.
  unfold NodeTracer.simplifyPath.
  destruct (Nat.leb_spec (length path) 2) as [Hs|Hl].
  - intros H; inversion H; subst. apply Subseq_refl.
  - destruct (NodeTracer.simplifyDPStep (length path) path 0 (length path - 1)
                (tolerance * tolerance)%float [nth 0 path origin]) as [s|] eqn:E;
      [|discriminate].
    cbn [option_map]. intros H; inversion H; subst r; clear H.
    apply simplifyDPStep_subseq in E as (pushed & -> & Hsub); try lia.
    assert (Ep : path = [nth 0 path origin] ++ segment path 1 (length path - 1)
                        ++ [nth (length path - 1) path origin]).
    { destruct path as [|p0 ps]; [simpl in Hl; lia|].
      cbn [nth app]. f_equal.
      assert (Hps : ps <> []) by (destruct ps; [simpl in Hl; lia | discriminate]).
      destruct (exists_last Hps) as (l' & z & ->).
      unfold segment. cbn [skipn length]. rewrite length_app. cbn [length].
      replace (S (length l' + 1) - 1 - 1)%nat with (length l') by lia.
      rewrite firstn_app, firstn_all, Nat.sub_diag. cbn [firstn].
      rewrite app_nil_r. f_equal.
      replace (S (length l' + 1) - 1)%nat with (S (length l')) by lia.
      cbn [nth]. rewrite app_nth2 by lia. rewrite Nat.sub_diag. reflexivity. }
    assert (G : Subseq ([nth 0 path origin] ++ pushed
                        ++ [nth (length path - 1) path origin])
                  ([nth 0 path origin] ++ segment path 1 (length path - 1)
                        ++ [nth (length path - 1) path origin])).
    { apply Subseq_app; [apply Subseq_refl|].
      apply Subseq_app; [exact Hsub | apply Subseq_refl]. }
    rewrite <- Ep in G. rewrite <- app_assoc. exact G.
Qed.

End SimplifierFacts.

Module PixelLoopFacts.

Ltac cases_nat :=
  repeat match goal with
         | |- context [(?a =? ?b)%nat] => destruct (Nat.eqb_spec a b); try lia
         | |- context [(?a <? ?b)%nat] => destruct (Nat.ltb_spec a b); try lia
         end.

Lemma starts_cover (k c len : nat) :
  (4 * k + c < len)%nat -> (k < (len + 3) / 4)%nat.
Proof. intros H. apply Nat.div_le_lower_bound; lia. Qed.

Lemma starts_bound (k len : nat) : ((len + 3) / 4 <= k)%nat -> (len <= 4 * k)%nat.
Proof.
  intros H. pose proof (Nat.div_mod_eq (len + 3) 4).
  pose proof (Nat.mod_upper_bound (len + 3) 4 ltac:(lia)). lia.
Qed.

(** A loop over the pixel offsets whose body rewrites pixel [s] only. *)
Section PixelLoop.

Variable init : list Z.
Variable step : list Z -> nat -> list Z.
Variable out : nat -> nat -> option Z.
Hypothesis step_spec :
  forall acc s,
    untouched_from init acc s ->
    length (step acc (4 * s)) = length init /\
    (forall c, (c < 4)%nat -> nth_error (step acc (4 * s)) (4 * s + c) = out s c) /\
    (forall j, (j < 4 * s \/ 4 * s + 4 <= j)%nat ->
       nth_error (step acc (4 * s)) j = nth_error acc j).

Lemma loop_fold (n : nat) :
  forall s acc,
    untouched_from init acc s ->
    let res := fold_left step (map (fun k => 4 * k)%nat (seq s n)) acc in
    length res = length init /\
    forall k c, (c < 4)%nat ->
      nth_error res (4 * k + c)
      = if (k <? s)%nat then nth_error acc (4 * k + c)
        else if (k <? s + n)%nat then out k c
        else nth_error init (4 * k + c).
Proof.
  induction n as [|n IH]; intros s acc Hacc res.
  - subst res. cbn [seq map fold_left]. destruct Hacc as [L A]. split; [exact L|].
    intros k c Hc. cases_nat; try reflexivity. apply A. lia.
  - subst res. cbn [seq map fold_left].
    destruct (step_spec acc s Hacc) as (L1 & O1 & K1).
    destruct Hacc as [L A].
    assert (Hacc' : untouched_from init (step acc (4 * s)) (S s)).
    { split; [exact L1|]. intros j Hj. rewrite K1 by lia. apply A. lia. }
    destruct (IH (S s) (step acc (4 * s)) Hacc') as [L2 N2].
    split; [exact L2|]. intros k c Hc. rewrite (N2 k c Hc).
    destruct (Nat.ltb_spec k (S s)) as [Hk|Hk].
    + destruct (Nat.ltb_spec k s) as [Hk'|Hk'].
      * apply K1. lia.
      * replace k with s by lia.
        destruct (Nat.ltb_spec s (s + S n)); [|lia]. apply O1. exact Hc.
    + destruct (Nat.ltb_spec k s); [lia|].
      destruct (Nat.ltb_spec k (S s + n)), (Nat.ltb_spec k (s + S n));
        try reflexivity; lia.
Qed.

Lemma loop_spec :
  let res := fold_left step (pixel_starts (length init)) init in
  length res = length init /\
  forall k c, (c < 4)%nat ->
    nth_error res (4 * k + c)
    = if (4 * k + c <? length init)%nat then out k c else None.
Proof.
  intros res. unfold pixel_starts in res.
  assert (H0 : untouched_from init init 0) by (split; [reflexivity | auto]).
  destruct (loop_fold ((length init + 3) / 4) 0 init H0) as [L N].
  fold res in L, N. split; [exact L|]. intros k c Hc.
  pose proof (N k c Hc) as E. rewrite Nat.add_0_l in E.
  destruct (Nat.ltb_spec k 0) as [Hk0|_]; [lia|].
  destruct (Nat.ltb_spec (4 * k + c) (length init)) as [Hin|Hout].
  - pose proof (starts_cover k c (length init) Hin).
    destruct (Nat.ltb_spec k ((length init + 3) / 4)); [exact E | lia].
  - apply nth_error_None. lia.
Qed.

End PixelLoop.

(** *** Numbers *)

Lemma byte_cases (P : Z -> bool) :
  forallb P (map Z.of_nat (seq 0 256)) = true ->
  forall v, 0 <= v <= 255 -> P v = true.
Proof.
  intros H v Hv. rewrite forallb_forall in H. apply H.
  apply in_map_iff. exists (Z.to_nat v). split; [lia|]. apply in_seq. lia.
Qed.

Lemma toUint8Clamp_byte (v : Z) : 0 <= v <= 255 -> toUint8Clamp (Z2F v) = v.
Proof.
  intros Hv. apply Z.eqb_eq.
  apply (byte_cases (fun v => toUint8Clamp (Z2F v) =? v)); [|exact Hv].
  vm_compute. reflexivity.
Qed.

Lemma gray_of_gray (g : Z) :
  0 <= g <= 255 ->
  toUint8Clamp (Math_round (0.299 * Z2F g + 0.587 * Z2F g + 0.114 * Z2F g)%float)
  = g.
Proof.
  intros Hg. apply Z.eqb_eq.
  apply (byte_cases
           (fun g => toUint8Clamp
                       (Math_round (0.299 * Z2F g + 0.587 * Z2F g
                                    + 0.114 * Z2F g)%float) =? g));
    [|exact Hg].
  vm_compute. reflexivity.
Qed.

Lemma toUint8Clamp_range (x : float) : 0 <= toUint8Clamp x <= 255.
Proof.
  unfold toUint8Clamp.
  destruct (Prim2SF x) as [s|s| |s m e]; try lia.
  - destruct s; lia.
  - destruct s; [lia|].
    destruct (Z.leb_spec 0 e).
    + assert (0 <= Z.pos m * 2 ^ e) by (apply Z.mul_nonneg_nonneg; [lia|];
        apply Z.pow_nonneg; lia). lia.
    + assert (Hq : 0 < 2 ^ (- e)) by (apply Z.pow_pos_nonneg; lia).
      assert (0 <= Z.pos m / 2 ^ (- e)) by (apply Z.div_pos; lia).
      destruct (Z.leb_spec 255 (Z.pos m / 2 ^ (- e))); [lia|].
      destruct (2 * (Z.pos m mod 2 ^ (- e)) <? 2 ^ (- e)); [lia|].
      destruct (2 ^ (- e) <? 2 * (Z.pos m mod 2 ^ (- e))); [lia|].
      destruct (Z.even (Z.pos m / 2 ^ (- e))); lia.
Qed.

Lemma nan_add_r (x y : float) :
  Prim2SF y = S754_nan -> Prim2SF (x + y)%float = S754_nan.
Proof.
  intros H. rewrite FloatAxioms.add_spec, H. unfold SF64add, SFadd.
  destruct (Prim2SF x) as [s|s| |s m e]; reflexivity.
Qed.

Lemma nan_mul_r (x y : float) :
  Prim2SF y = S754_nan -> Prim2SF (x * y)%float = S754_nan.
Proof.
  intros H. rewrite FloatAxioms.mul_spec, H. unfold SF64mul, SFmul.
  destruct (Prim2SF x) as [s|s| |s m e]; reflexivity.
Qed.

Lemma clamp_round_nan (x : float) :
  Prim2SF x = S754_nan -> toUint8Clamp (Math_round x) = 0.
Proof.
  intros H. unfold Math_round. rewrite H. unfold toUint8Clamp. rewrite H.
  reflexivity.
Qed.

Lemma rdF_ext (d d' : list Z) (i : nat) :
  nth_error d i = nth_error d' i -> rdF d i = rdF d' i.
Proof. unfold rdF, rd. intros ->. reflexivity. Qed.

Lemma rdF_some (d : list Z) (i : nat) (v : Z) :
  nth_error d i = Some v -> rdF d i = Z2F v.
Proof. unfold rdF, rd. intros ->. reflexivity. Qed.

Lemma rdF_none (d : list Z) (i : nat) :
  (length d <= i)%nat -> Prim2SF (rdF d i) = S754_nan.
Proof.
  intros H. unfold rdF, rd. apply nth_error_None in H. rewrite H. reflexivity.
Qed.

Lemma luma_ext (d d' : list Z) (k : nat) :
  (forall c, (c < 3)%nat -> nth_error d (4 * k + c) = nth_error d' (4 * k + c)) ->
  luma d k = luma d' k.
Proof.
  intros H. unfold luma.
  assert (E0 : nth_error d (4 * k) = nth_error d' (4 * k)).
  { pose proof (H 0%nat ltac:(lia)) as E. rewrite Nat.add_0_r in E. exact E. }
  rewrite (rdF_ext d d' (4 * k) E0), (rdF_ext d d' (4 * k + 1)),
          (rdF_ext d d' (4 * k + 2)); auto.
Qed.

(** A pixel whose blue byte is missing has no gray level: NaN is stored
    as 0. *)
Lemma gray_level_partial (d : list Z) (k : nat) :
  (length d <= 4 * k + 2)%nat -> gray_level d k = 0.
Proof.
  intros H. unfold gray_level, luma. apply clamp_round_nan.
  apply nan_add_r, nan_mul_r, rdF_none. exact H.
Qed.

End PixelLoopFacts.

Module PreprocessFacts.

Import PixelLoopFacts.

Ltac split_channel c :=
  destruct c as [|[|[|[|c]]]]; [| | | |lia].

Ltac finish_channel L A :=
  rewrite ?IndexerFacts.nth_error_wr, ?ImageTracerFacts.wr_length, ?L;
  cases_nat; cbn [andb];
  try reflexivity; try (apply A; lia); try (apply nth_error_None; lia).

(** *** The in-place loops of imagetrace.js *)

Lemma recolour_step (d acc : list Z) (s : nat) (v : Z) (f : nat -> Z) :
  untouched_from d acc s -> f s = v ->
  let acc' := wr (wr (wr acc (4 * s) v) (4 * s + 1) v) (4 * s + 2) v in
  length acc' = length d /\
  (forall c, (c < 4)%nat -> nth_error acc' (4 * s + c) = recoloured d f s c) /\
  (forall j, (j < 4 * s \/ 4 * s + 4 <= j)%nat ->
     nth_error acc' j = nth_error acc j).
Proof.
  intros [L A] Ef acc'. subst acc'. split; [|split].
  - rewrite !ImageTracerFacts.wr_length. exact L.
  - intros c Hc. unfold recoloured. rewrite Ef.
    split_channel c; rewrite ?Nat.add_0_r; finish_channel L A.
  - intros j Hj. finish_channel L A.
Qed.

Lemma gray_step_spec (d acc : list Z) (s : nat) :
  untouched_from d acc s ->
  length (ImageTracer.gray_step acc (4 * s)) = length d /\
  (forall c, (c < 4)%nat ->
     nth_error (ImageTracer.gray_step acc (4 * s)) (4 * s + c)
     = recoloured d (gray_level d) s c) /\
  (forall j, (j < 4 * s \/ 4 * s + 4 <= j)%nat ->
     nth_error (ImageTracer.gray_step acc (4 * s)) j = nth_error acc j).
Proof.
  intros H.
  change (ImageTracer.gray_step acc (4 * s))
    with (wr (wr (wr acc (4 * s) (gray_level acc s)) (4 * s + 1) (gray_level acc s))
            (4 * s + 2) (gray_level acc s)).
  apply recolour_step; [exact H|].
  unfold gray_level. f_equal. f_equal. apply luma_ext.
  intros c Hc. symmetry. apply H. lia.
Qed.

Lemma toGrayscale_spec (d : list Z) :
  length (ImageTracer.toGrayscale d) = length d /\
  forall k c, (c < 4)%nat ->
    nth_error (ImageTracer.toGrayscale d) (4 * k + c)
    = recoloured d (gray_level d) k c.
Proof.
  destruct (loop_spec d ImageTracer.gray_step (recoloured d (gray_level d))
              (gray_step_spec d)) as [L N].
  split; [exact L|]. intros k c Hc. unfold ImageTracer.toGrayscale.
  rewrite (N k c Hc).
  destruct (Nat.ltb_spec (4 * k + c) (length d)); [reflexivity|].
  unfold recoloured. cases_nat; try reflexivity.
  symmetry. apply nth_error_None. lia.
Qed.

Lemma mono_step_spec (d : list Z) (thr : float) (acc : list Z) (s : nat) :
  untouched_from d acc s ->
  length (ImageTracer.mono_step thr acc (4 * s)) = length d /\
  (forall c, (c < 4)%nat ->
     nth_error (ImageTracer.mono_step thr acc (4 * s)) (4 * s + c)
     = recoloured d (fun k => white_if (PrimFloat.leb thr (luma d k))) s c) /\
  (forall j, (j < 4 * s \/ 4 * s + 4 <= j)%nat ->
     nth_error (ImageTracer.mono_step thr acc (4 * s)) j = nth_error acc j).
Proof.
  intros H.
  change (ImageTracer.mono_step thr acc (4 * s))
    with (wr (wr (wr acc (4 * s) (white_if (PrimFloat.leb thr (luma acc s))))
                (4 * s + 1) (white_if (PrimFloat.leb thr (luma acc s))))
            (4 * s + 2) (white_if (PrimFloat.leb thr (luma acc s)))).
  apply (recolour_step d acc s _
           (fun k => white_if (PrimFloat.leb thr (luma d k)))); [exact H|].
  cbv beta. f_equal. f_equal. apply luma_ext.
  intros c Hc. symmetry. apply H. lia.
Qed.

Lemma toMonochrome_spec (d : list Z) (thr : float) :
  length (ImageTracer.toMonochrome d thr) = length d /\
  forall k c, (c < 4)%nat ->
    nth_error (ImageTracer.toMonochrome d thr) (4 * k + c)
    = recoloured d (fun k => white_if (PrimFloat.leb thr (luma d k))) k c.
Proof.
  destruct (loop_spec d (ImageTracer.mono_step thr)
              (recoloured d (fun k => white_if (PrimFloat.leb thr (luma d k))))
              (mono_step_spec d thr)) as [L N].
  split; [exact L|]. intros k c Hc. unfold ImageTracer.toMonochrome.
  rewrite (N k c Hc).
  destruct (Nat.ltb_spec (4 * k + c) (length d)); [reflexivity|].
  unfold recoloured. cases_nat; try reflexivity.
  symmetry. apply nth_error_None. lia.
Qed.

(** Every offset is a channel of a pixel. *)
Lemma by_channel (l1 l2 : list Z) :
  length l1 = length l2 ->
  (forall k c, (c < 4)%nat -> nth_error l1 (4 * k + c) = nth_error l2 (4 * k + c)) ->
  l1 = l2.
Proof.
  intros L H. apply IndexerFacts.nth_error_ext_len; [exact L|].
  intros i _. rewrite (Nat.div_mod_eq i 4). apply H.
  apply Nat.mod_upper_bound. lia.
Qed.

Lemma toGrayscale_twice (d : list Z) :
  ImageTracer.toGrayscale (ImageTracer.toGrayscale d) = ImageTracer.toGrayscale d.
Proof.
  destruct (toGrayscale_spec d) as [L N].
  destruct (toGrayscale_spec (ImageTracer.toGrayscale d)) as [L' N'].
  apply by_channel; [exact L'|]. intros k c Hc.
  rewrite (N' k c Hc), (N k c Hc). unfold recoloured. rewrite L.
  destruct (Nat.eqb_spec c 3) as [->|Hc3].
  - rewrite (N k 3%nat ltac:(lia)). reflexivity.
  - destruct (Nat.ltb_spec (4 * k + c) (length d)) as [Hin|]; [|reflexivity].
    f_equal.
    destruct (Nat.lt_ge_cases (4 * k + 2) (length d)) as [Hfull|Hpart].
    + unfold gray_level at 1. unfold luma.
      assert (R : forall c', (c' < 3)%nat ->
                  rdF (ImageTracer.toGrayscale d) (4 * k + c')
                  = Z2F (gray_level d k)).
      { intros c' Hc'. apply rdF_some. rewrite (N k c') by lia.
        unfold recoloured. cases_nat. reflexivity. }
      pose proof (R 0%nat ltac:(lia)) as R0. rewrite Nat.add_0_r in R0.
      rewrite R0, (R 1%nat), (R 2%nat) by lia.
      apply gray_of_gray. apply toUint8Clamp_range.
    + rewrite (gray_level_partial d k) by lia.
      apply gray_level_partial. rewrite L. lia.
Qed.

(** *** The copying loops of usage.js *)

Lemma fill_step (d acc : list Z) (s : nat) (v : Z) (f : nat -> Z) :
  untouched_from (repeat 0 (length d)) acc s -> f s = v ->
  let acc' :=
    wr (wr (wr (wr acc (4 * s) v) (4 * s + 1) v) (4 * s + 2) v) (4 * s + 3)
       (toUint8Clamp (rdF d (4 * s + 3))) in
  length acc' = length (repeat 0 (length d)) /\
  (forall c, (c < 4)%nat -> nth_error acc' (4 * s + c) = filled d f s c) /\
  (forall j, (j < 4 * s \/ 4 * s + 4 <= j)%nat ->
     nth_error acc' j = nth_error acc j).
Proof.
  intros [L A] Ef acc'. subst acc'. rewrite repeat_length in L. split; [|split].
  - rewrite !ImageTracerFacts.wr_length, repeat_length. exact L.
  - intros c Hc. unfold filled. rewrite Ef.
    split_channel c; rewrite ?Nat.add_0_r; finish_channel L A.
  - intros j Hj. finish_channel L A.
Qed.

Lemma node_toGrayscale_spec (d : list Z) :
  length (NodeTracer.toGrayscale d) = length d /\
  forall k c, (c < 4)%nat ->
    nth_error (NodeTracer.toGrayscale d) (4 * k + c) = filled d (gray_level d) k c.
Proof.
  destruct (loop_spec (repeat 0 (length d)) (NodeTracer.gray_step d)
              (filled d (gray_level d))) as [L N].
  { intros acc s H. apply (fill_step d acc s (gray_level d s) (gray_level d) H).
    reflexivity. }
  rewrite repeat_length in L, N. split; [exact L|]. intros k c Hc.
  unfold NodeTracer.toGrayscale. rewrite (N k c Hc). unfold filled.
  destruct (4 * k + c <? length d)%nat; reflexivity.
Qed.

Lemma node_toMonochrome_spec (d : list Z) (thr : float) :
  length (NodeTracer.toMonochrome d thr) = length d /\
  forall k c, (c < 4)%nat ->
    nth_error (NodeTracer.toMonochrome d thr) (4 * k + c)
    = filled d (fun k => white_if (PrimFloat.ltb thr (luma d k))) k c.
Proof.
  destruct (loop_spec (repeat 0 (length d)) (NodeTracer.mono_step d thr)
              (filled d (fun k => white_if (PrimFloat.ltb thr (luma d k)))))
    as [L N].
  { intros acc s H.
    apply (fill_step d acc s (white_if (PrimFloat.ltb thr (luma d s)))
             (fun k => white_if (PrimFloat.ltb thr (luma d k))) H).
    reflexivity. }
  rewrite repeat_length in L, N. split; [exact L|]. intros k c Hc.
  unfold NodeTracer.toMonochrome. rewrite (N k c Hc). unfold filled.
  destruct (4 * k + c <? length d)%nat; reflexivity.
Qed.

(** On a buffer of bytes the copy and the in-place update leave the same
    bytes. *)
Lemma filled_recoloured (d : list Z) (v : nat -> Z) (k c : nat) :
  bytes d -> filled d v k c = recoloured d v k c.
Proof.
  intros Hb. unfold filled, recoloured.
  destruct (Nat.eqb_spec c 3) as [->|Hc].
  - destruct (Nat.ltb_spec (4 * k + 3) (length d)) as [Hin|Hout].
    + destruct (nth_error d (4 * k + 3)) as [a|] eqn:Ea.
      * rewrite (rdF_some d _ a Ea). f_equal. apply toUint8Clamp_byte.
        unfold bytes in Hb. rewrite Forall_forall in Hb. apply Hb.
        eapply nth_error_In. exact Ea.
      * apply nth_error_None in Ea. lia.
    + symmetry. apply nth_error_None. lia.
  - reflexivity.
Qed.

Lemma grayscales_agree (d : list Z) :
  bytes d -> NodeTracer.toGrayscale d = ImageTracer.toGrayscale d.
Proof.
  intros Hb.
  destruct (toGrayscale_spec d) as [L N].
  destruct (node_toGrayscale_spec d) as [L' N'].
  apply by_channel; [congruence|]. intros k c Hc.
  rewrite (N' k c Hc), (N k c Hc). apply filled_recoloured. exact Hb.
Qed.

Lemma leb_ltb_eqb (x y : float) :
  PrimFloat.leb x y = PrimFloat.ltb x y || PrimFloat.eqb x y.
Proof.
  rewrite FloatAxioms.leb_spec, FloatAxioms.ltb_spec, FloatAxioms.eqb_spec.
  unfold SFleb, SFltb, SFeqb.
  destruct (SFcompare (Prim2SF x) (Prim2SF y)) as [[| |]|]; reflexivity.
Qed.

Lemma monochromes_agree (d : list Z) (thr : float) :
  bytes d ->
  (forall k, (4 * k < length d)%nat -> PrimFloat.eqb thr (luma d k) = false) ->
  NodeTracer.toMonochrome d thr = ImageTracer.toMonochrome d thr.
Proof.
  intros Hb Hne.
  destruct (toMonochrome_spec d thr) as [L N].
  destruct (node_toMonochrome_spec d thr) as [L' N'].
  apply by_channel; [congruence|]. intros k c Hc.
  rewrite (N' k c Hc), (N k c Hc).
  rewrite (filled_recoloured d _ k c Hb). unfold recoloured.
  destruct (c =? 3)%nat; [reflexivity|].
  destruct (Nat.ltb_spec (4 * k + c) (length d)) as [Hin|]; [|reflexivity].
  rewrite leb_ltb_eqb, (Hne k) by lia. rewrite orb_false_r. reflexivity.
Qed.

End PreprocessFacts.

Module BackgroundFacts.

Import PixelLoopFacts.

Lemma clear_white_step_spec (d : list Z) (threshold : Z) (acc : list Z) (s : nat) :
  untouched_from d acc s ->
  length (clear_white_step threshold acc (4 * s)) = length d /\
  (forall c, (c < 4)%nat ->
     nth_error (clear_white_step threshold acc (4 * s)) (4 * s + c)
     = cleared d threshold s c) /\
  (forall j, (j < 4 * s \/ 4 * s + 4 <= j)%nat ->
     nth_error (clear_white_step threshold acc (4 * s)) j = nth_error acc j).
Proof.
  intros [L A]. unfold clear_white_step, cleared.
  assert (W : at_least (rd acc (4 * s)) threshold
              && at_least (rd acc (4 * s + 1)) threshold
              && at_least (rd acc (4 * s + 2)) threshold
              = whitish d threshold s).
  { unfold whitish, rd. rewrite !A by lia. reflexivity. }
  rewrite W. destruct (whitish d threshold s).
  - split; [rewrite ImageTracerFacts.wr_length; exact L|]. split.
    + intros c Hc. rewrite IndexerFacts.nth_error_wr, L.
      destruct c as [|[|[|[|c]]]]; [| | | |lia];
        cases_nat; cbn [andb]; try reflexivity;
        try (apply A; lia); try (apply nth_error_None; lia).
    + intros j Hj. rewrite IndexerFacts.nth_error_wr.
      cases_nat; cbn [andb]; reflexivity.
  - split; [exact L|]. split; [|reflexivity].
    intros c Hc. rewrite andb_false_r. apply A. lia.
Qed.

Lemma clear_white_spec (d : list Z) (threshold : Z) :
  let res := fold_left (clear_white_step threshold) (pixel_starts (length d)) d in
  length res = length d /\
  forall k c, (c < 4)%nat -> nth_error res (4 * k + c) = cleared d threshold k c.
Proof.
  intros res.
  destruct (loop_spec d (clear_white_step threshold) (cleared d threshold)
              (clear_white_step_spec d threshold)) as [L N].
  fold res in L, N. split; [exact L|]. intros k c Hc. rewrite (N k c Hc).
  destruct (Nat.ltb_spec (4 * k + c) (length d)) as [Hin|Hout]; [reflexivity|].
  unfold cleared.
  destruct ((c =? 3)%nat && whitish d threshold k) eqn:E.
  - apply andb_prop in E as [E _]. apply Nat.eqb_eq in E. subst c.
    destruct (Nat.ltb_spec (4 * k + 3) (length d)); [lia | reflexivity].
  - symmetry. apply nth_error_None. exact Hout.
Qed.

Lemma whitish_ext (d d' : list Z) (threshold : Z) (k : nat) :
  (forall c, (c < 3)%nat -> nth_error d' (4 * k + c) = nth_error d (4 * k + c)) ->
  whitish d' threshold k = whitish d threshold k.
Proof.
  intros H. unfold whitish, rd.
  pose proof (H 0%nat ltac:(lia)) as H0. rewrite Nat.add_0_r in H0.
  rewrite H0, (H 1%nat), (H 2%nat) by lia. reflexivity.
Qed.

Lemma cleared_colour (d : list Z) (threshold : Z) (k c : nat) :
  (c < 3)%nat -> cleared d threshold k c = nth_error d (4 * k + c).
Proof.
  intros Hc. unfold cleared.
  destruct (Nat.eqb_spec c 3); [lia | reflexivity].
Qed.

Lemma clear_white_twice (d : list Z) (threshold : Z) :
  let once := fold_left (clear_white_step threshold) (pixel_starts (length d)) d in
  fold_left (clear_white_step threshold) (pixel_starts (length once)) once = once.
Proof.
  intros once.
  destruct (clear_white_spec d threshold) as [L N]. fold once in L, N.
  destruct (clear_white_spec once threshold) as [L' N'].
  apply PreprocessFacts.by_channel; [exact L'|]. intros k c Hc.
  rewrite (N' k c Hc), (N k c Hc). unfold cleared at 1.
  rewrite (whitish_ext d once threshold k), L.
  2:{ intros c' Hc'. rewrite N by lia. apply cleared_colour. exact Hc'. }
  rewrite (N k c Hc). unfold cleared.
  destruct ((c =? 3)%nat && whitish d threshold k); reflexivity.
Qed.

Lemma at_least_mono (v : option Z) (t t' : Z) :
  t' <= t -> at_least v t = true -> at_least v t' = true.
Proof.
  intros H. destruct v as [v|]; cbn; [|auto].
  intros E. apply Z.leb_le in E. apply Z.leb_le. lia.
Qed.

Lemma whitish_mono (d : list Z) (t t' : Z) (k : nat) :
  t' <= t -> whitish d t k = true -> whitish d t' k = true.
Proof.
  intros H E. unfold whitish in *.
  apply andb_prop in E as [E E3]. apply andb_prop in E as [E1 E2].
  rewrite (at_least_mono _ t t' H E1), (at_least_mono _ t t' H E2),
          (at_least_mono _ t t' H E3). reflexivity.
Qed.

(** A pixel with alpha 0 is transparent to both indexers, whatever the
    palette. *)
Lemma cleared_is_transparent (d : list Z) (k : nat) (a : Z) :
  nth_error d (4 * k + 3) = Some a -> a < 128 ->
  (forall palette, ImageTracer.index_of_pixel d palette k = -1) /\
  (forall palette, NodeTracer.pixel_index d palette (4 * k) = -1).
Proof.
  intros E Ha. split; intros palette.
  - apply ImageTracerFacts.index_of_pixel_transparent. exists a.
    replace (k * 4)%nat with (4 * k)%nat by lia. split; assumption.
  - unfold NodeTracer.pixel_index, rd. rewrite E.
    destruct (Z.ltb_spec a 128); [reflexivity | lia].
Qed.

End BackgroundFacts.

Module TransparencyFacts.

Import PixelLoopFacts.

Lemma flat_map_nil {A B : Type} (f : A -> list B) (l : list A) :
  (forall x, In x l -> f x = []) -> flat_map f l = [].
Proof.
  induction l as [|x l IH]; intros H; [reflexivity|].
  cbn [flat_map]. rewrite (H x (or_introl eq_refl)), IH; [reflexivity|].
  intros y Hy. apply H. right. exact Hy.
Qed.

(** *** imagetrace.js *)

Lemma no_layers (imgd : ImageTracer.ImageData) (palette : list color) :
  (forall i, (i < ImageTracer.width imgd * ImageTracer.height imgd)%nat ->
     exists a, nth_error (ImageTracer.data imgd) (4 * i + 3) = Some a /\ a < 128) ->
  ImageTracer.layerSeparation (ImageTracer.createIndexedImage imgd palette) palette
  = [].
Proof.
  intros H. unfold ImageTracer.layerSeparation. apply flat_map_nil.
  intros c _. unfold ImageTracer.layer_of.
  destruct (ImageTracerFacts.build_layer_spec
              (ImageTracer.createIndexedImage imgd palette) c) as (_ & _ & E).
  cbv zeta in E. rewrite E.
  assert (X : existsb (fun v => v =? Z.of_nat c)
                (ImageTracer.array (ImageTracer.createIndexedImage imgd palette))
              = false); [|rewrite X; reflexivity].
  destruct (existsb _ _) eqn:Ex; [|reflexivity]. exfalso.
  apply existsb_exists in Ex as (v & Hin & Hv). apply Z.eqb_eq in Hv.
  unfold ImageTracer.createIndexedImage in Hin. cbn [ImageTracer.array] in Hin.
  apply in_map_iff in Hin as (i & Hi & Hin). apply in_seq in Hin.
  destruct (H i ltac:(lia)) as (a & Ea & Ha).
  destruct (BackgroundFacts.cleared_is_transparent (ImageTracer.data imgd) i a Ea Ha)
    as [T _].
  rewrite (T palette) in Hi. lia.
Qed.

Lemma generateSvg_no_layers (host : JsHost) (w h : nat)
    (options : ImageTracer.Options) :
  ImageTracer.generateSvg host [] w h options
  = Returns (ImageTracer.svg_header host w h options ++ "</svg>")%string.
Proof. reflexivity. Qed.

Lemma trace_transparent (host : JsHost) (imgd : ImageTracer.ImageData)
    (options : ImageTracer.Options) :
  no_blur options ->
  (forall i, (i < ImageTracer.width imgd * ImageTracer.height imgd)%nat ->
     exists a, nth_error (ImageTracer.data imgd) (4 * i + 3) = Some a /\ a < 128) ->
  snd (ImageTracer.trace host imgd options)
  = Returns (ImageTracer.svg_header host (ImageTracer.width imgd)
               (ImageTracer.height imgd) options ++ "</svg>")%string.
Proof.
  intros Hb H. unfold ImageTracer.trace; cbn [snd].
  destruct (Z.ltb_spec 0 (ImageTracer.blurradius options)) as [Hp|_];
    [unfold no_blur in Hb; lia|].
  match goal with
  | |- context [ImageTracer.quantize ?i ?o] =>
      destruct (ImageTracerFacts.quantize_some i o) as [palette ->]
  end.
  rewrite no_layers.
  - rewrite generateSvg_no_layers.
    destruct (ImageTracer.colorMode options); reflexivity.
  - cbn [ImageTracer.width ImageTracer.height ImageTracer.data].
    intros i Hi. destruct (H i Hi) as (a & Ea & Ha). exists a. split; [|exact Ha].
    destruct (ImageTracer.colorMode options); [exact Ea | |].
    + destruct (PreprocessFacts.toGrayscale_spec (ImageTracer.data imgd)) as [_ N].
      rewrite (N i 3%nat) by lia. exact Ea.
    + destruct (PreprocessFacts.toMonochrome_spec (ImageTracer.data imgd)
                  (ImageTracer.threshold options)) as [_ N].
      rewrite (N i 3%nat) by lia. exact Ea.
Qed.

(** *** usage.js *)

Lemma in_pixel_starts (len i : nat) :
  In i (pixel_starts len) -> exists k, i = (4 * k)%nat.
Proof.
  unfold pixel_starts. intros H. apply in_map_iff in H as (k & <- & _). eauto.
Qed.

Lemma getPalette_pixels_transparent (d : list Z) :
  all_transparent d -> NodeTracer.getPalette_pixels d = [].
Proof.
  intros H. unfold NodeTracer.getPalette_pixels. apply flat_map_nil.
  intros i Hi. apply in_pixel_starts in Hi as (k & ->).
  unfold NodeTracer.getPalette_push, rd.
  destruct (nth_error d (4 * k + 3)) as [a|] eqn:E; [|reflexivity].
  specialize (H k a E). destruct (Z.ltb_spec 128 a); [lia | reflexivity].
Qed.

Lemma mapToPalette_transparent (d : list Z) (palette : list NodeTracer.entry)
    (c : nat) (j : nat) :
  all_transparent d ->
  hits (Z.of_nat c) (NodeTracer.mapToPalette d palette) j = false.
Proof.
  intros H. unfold hits.
  destruct (IndexerFacts.mapToPalette_spec d palette) as [L N].
  destruct (Nat.lt_ge_cases j (length d / 4)) as [Hj|Hj].
  - rewrite (N j Hj).
    assert (Hin : (4 * j + 3 < length d)%nat).
    { pose proof (Nat.div_mod_eq (length d) 4).
      pose proof (Nat.mod_upper_bound (length d) 4 ltac:(lia)). lia. }
    destruct (nth_error d (4 * j + 3)) as [a|] eqn:E;
      [|apply nth_error_None in E; lia].
    destruct (BackgroundFacts.cleared_is_transparent d j a E (H j a E)) as [_ T].
    rewrite (T palette), IndexerFacts.store16_small by lia.
    destruct (Z.eqb_spec (-1) (Z.of_nat c)); [lia | reflexivity].
  - assert (E : nth_error (NodeTracer.mapToPalette d palette) j = None)
      by (apply nth_error_None; lia).
    rewrite E. reflexivity.
Qed.

Lemma processed_transparent (d : list Z) (opts : NodeTracer.Options) :
  bytes d -> all_transparent d ->
  all_transparent
    match NodeTracer.traceMode opts with
    | NodeTracer.TraceGrayscale => NodeTracer.toGrayscale d
    | NodeTracer.TraceMonochrome => NodeTracer.toMonochrome d (NodeTracer.threshold opts)
    | NodeTracer.TraceColor => d
    end.
Proof.
  intros Hb H. destruct (NodeTracer.traceMode opts); [exact H | |].
  - intros k a E.
    destruct (PreprocessFacts.node_toGrayscale_spec d) as [_ N].
    rewrite (N k 3%nat), (PreprocessFacts.filled_recoloured d _ k 3 Hb) in E by lia.
    apply (H k a). exact E.
  - intros k a E.
    destruct (PreprocessFacts.node_toMonochrome_spec d (NodeTracer.threshold opts))
      as [_ N].
    rewrite (N k 3%nat), (PreprocessFacts.filled_recoloured d _ k 3 Hb) in E by lia.
    apply (H k a). exact E.
Qed.

Lemma node_trace_transparent (host : JsHost) (d : list Z) (width height : nat)
    (opts : NodeTracer.Options) :
  bytes d -> all_transparent d ->
  snd (NodeTracer.trace host d width height opts)
  = Returns (node_empty_document host width height).
Proof.
  intros Hb H. unfold NodeTracer.trace; cbn [snd].
  pose proof (processed_transparent d opts Hb H) as Hp.
  set (pd := match NodeTracer.traceMode opts with
             | NodeTracer.TraceGrayscale => NodeTracer.toGrayscale d
             | NodeTracer.TraceMonochrome =>
                 NodeTracer.toMonochrome d (NodeTracer.threshold opts)
             | NodeTracer.TraceColor => d
             end) in *.
  unfold NodeTracer.getPalette.
  rewrite (getPalette_pixels_transparent pd Hp).
  change (NodeTracer.quantizeColors [] _)
    with (Some [NodeTracer.mkEntry 128 128 128 0]).
  cbv iota. cbn [length seq map].
  unfold NodeTracer.color_group at 1.
  rewrite (RectFacts.createColorRects_nil _ width height 0).
  - reflexivity.
  - intros x y. unfold cell_in, cell.
    rewrite (mapToPalette_transparent pd _ 0 _ Hp).
    rewrite !andb_false_r. reflexivity.
Qed.

(** *** The rectangles of usage.js partition the opaque pixels *)

Lemma rects_of_pixel (d : list Z) (palette : list NodeTracer.entry)
    (width height x y i : nat) :
  (x < width)%nat -> (y < height)%nat -> (y * width + x < length d / 4)%nat ->
  -32768 <= NodeTracer.pixel_index d palette (4 * (y * width + x)) < 32768 ->
  cover_count
    (NodeTracer.createColorRects (NodeTracer.mapToPalette d palette) width height i)
    (Z.of_nat x) (Z.of_nat y)
  = if NodeTracer.pixel_index d palette (4 * (y * width + x)) =? Z.of_nat i
    then 1%nat else 0%nat.
Proof.
  intros Hx Hy Hk Hs. rewrite RectFacts.createColorRects_spec.
  unfold cell_in, cell, hits. rewrite !Nat2Z.id.
  destruct (IndexerFacts.mapToPalette_spec d palette) as [_ N].
  rewrite (N _ Hk), (IndexerFacts.store16_small _ Hs).
  destruct (Z.leb_spec 0 (Z.of_nat x)), (Z.leb_spec 0 (Z.of_nat y)),
           (Z.ltb_spec (Z.of_nat y) (Z.of_nat height)), (Nat.ltb_spec x width);
    try lia.
  reflexivity.
Qed.

Lemma pixel_index_range (d : list Z) (palette : list NodeTracer.entry) (i : nat) :
  palette <> [] ->
  NodeTracer.pixel_index d palette i = -1 \/
  0 <= NodeTracer.pixel_index d palette i < Z.of_nat (length palette).
Proof.
  intros Hne. unfold NodeTracer.pixel_index.
  assert (Hn : forall r g b, (NodeTracer.nearest palette r g b < length palette)%nat).
  { intros r g b. unfold NodeTracer.nearest.
    assert (G : forall l st,
               (forall j c, In (j, c) l -> (j < length palette)%nat) ->
               (snd st < length palette)%nat ->
               (snd (fold_left (NodeTracer.nearest_step r g b) l st)
                < length palette)%nat).
    { induction l as [|[j c] l IH]; intros st Hin H0; cbn [fold_left]; [exact H0|].
      apply IH; [intros; eapply Hin; right; eassumption|].
      unfold NodeTracer.nearest_step; cbn [fst snd].
      destruct (NodeTracer.dist2 r g b c); [|exact H0].
      destruct (fst st); [destruct (_ <? _)|]; cbn [snd]; try exact H0;
        eapply Hin; left; reflexivity. }
    apply G.
    - intros j c Hin. apply in_combine_seq in Hin as [_ Hin].
      apply nth_error_Some. rewrite Nat.sub_0_r in Hin. rewrite Hin. discriminate.
    - cbn [snd]. destruct palette; [congruence | simpl; lia]. }
  destruct (rd d (i + 3)) as [a|].
  - destruct (a <? 128); [left; reflexivity|]. right.
    pose proof (Hn (rd d i) (rd d (i + 1)) (rd d (i + 2))). lia.
  - right. pose proof (Hn (rd d i) (rd d (i + 1)) (rd d (i + 2))). lia.
Qed.

(** *** The layers of imagetrace.js come in palette order *)

Lemma skipn_cons_nth {A : Type} (d : A) (l : list A) :
  forall s, (s < length l)%nat -> skipn s l = nth s l d :: skipn (S s) l.
Proof.
  induction l as [|x l IH]; intros [|s] H; simpl in H; try lia; [reflexivity|].
  cbn [skipn nth]. apply IH. lia.
Qed.

Lemma layer_colors (indexed : ImageTracer.IndexedImage) (palette : list color)
    (n : nat) :
  forall s, (s + n = length palette)%nat ->
    Subseq (map ImageTracer.l_color
              (flat_map (ImageTracer.layer_of indexed palette) (seq s n)))
           (skipn s palette).
Proof.
  induction n as [|n IH]; intros s Hs.
  - cbn [seq flat_map map]. apply SimplifierFacts.Subseq_nil_l.
  - cbn [seq flat_map]. rewrite map_app.
    rewrite (skipn_cons_nth (mkColor 0 0 0 0) palette s) by lia.
    unfold ImageTracer.layer_of at 1.
    destruct (snd (ImageTracer.build_layer indexed s)); cbn [map app].
    + apply Subseq_take. apply IH. lia.
    + apply Subseq_skip. apply IH. lia.
Qed.

Lemma layerSeparation_colors (indexed : ImageTracer.IndexedImage)
    (palette : list color) :
  Subseq (map ImageTracer.l_color (ImageTracer.layerSeparation indexed palette))
         palette.
Proof.
  unfold ImageTracer.layerSeparation.
  apply (layer_colors indexed palette (length palette) 0). lia.
Qed.

End TransparencyFacts.

Module EmitterFacts.

Import ImageTracer.

Lemma trace_unfold (host : JsHost) (imgd : ImageData) (options : Options) :
  snd (trace host imgd options)
  = match quantize (trace_image host imgd options) (trace_options options) with
    | None => OutOfFuel
    | Some palette =>
        generateSvg host (trace_layers host imgd options palette)
          (width imgd) (height imgd) (trace_options options)
    end.
Proof. reflexivity. Qed.

Lemma layerSeparation_length (indexed : IndexedImage) (palette : list color) :
  (length (layerSeparation indexed palette) <= length palette)%nat.
Proof.
  pose proof (TransparencyFacts.layerSeparation_colors indexed palette) as H.
  apply SimplifierFacts.Subseq_length in H. rewrite length_map in H. exact H.
Qed.

Lemma trace_options_colors (options : Options) :
  numberofcolors (trace_options options)
  = match colorMode options with
    | ModeMonochrome => 2
    | _ => numberofcolors options
    end.
Proof. unfold trace_options. destruct (colorMode options); reflexivity. Qed.

(** *** The serializer keeps the paths of two or more points *)

Lemma pathToSvg_drawable (host : JsHost) (options : Options)
    (path : list point) (d : string) :
  pathToSvg host path options = Returns d ->
  (String.length d =? 0)%nat = negb (drawable path).
Proof.
  unfold pathToSvg, drawable.
  destruct (Nat.eqb_spec (length path) 0) as [E0|E0].
  { intros H; inversion H; subst. rewrite E0. reflexivity. }
  destruct (simplifyPath path (ltres options)) as [simplified|] eqn:Es;
    [|discriminate].
  apply ImageTracerFacts.simplifyPath_fuel_sound in Es as (S1 & S2 & S3).
  destruct (Nat.ltb_spec (length simplified) 2) as [Hs|Hs].
  - intros H; inversion H; subst.
    destruct (Nat.leb_spec 2 (length path)) as [Hp|Hp]; [|reflexivity].
    destruct (S3 Hp) as (S4 & _). lia.
  - destruct ((roundcoords options <? 0) || (100 <? roundcoords options));
      [discriminate|].
    intros H; inversion H; subst; clear H.
    destruct (Nat.leb_spec 2 (length path)) as [Hp|Hp]; [|lia].
    cbn [negb]. apply Nat.eqb_neq.
    cbn [String.length]. lia.
Qed.

Lemma layer_elements_count (host : JsHost) (options : Options) (fill : string)
    (paths : list (list point)) :
  forall elems,
    layer_elements host fill paths options = Returns elems ->
    length elems = length (filter drawable paths).
Proof.
  induction paths as [|path paths IH]; intros elems; cbn [layer_elements].
  - intros H; inversion H; subst. reflexivity.
  - destruct (pathToSvg host path options) as [d| |] eqn:Ed; cbn [bind];
      try discriminate.
    destruct (layer_elements host fill paths options) as [rest| |]; cbn [bind];
      try discriminate.
    intros H; inversion H; subst; clear H.
    rewrite (pathToSvg_drawable host options path d Ed). cbn [filter].
    destruct (drawable path); cbn [negb length]; rewrite (IH rest eq_refl);
      reflexivity.
Qed.

Lemma tracePaths_drawable (layer : Layer) (options : Options) :
  2 <= pathomit options ->
  filter drawable (tracePaths layer options) = tracePaths layer options.
Proof.
  intros H. apply forallb_filter_id. apply forallb_forall. intros path Hin.
  apply ContourFacts.tracePaths_contours in Hin as (_ & _ & _ & Hl & _).
  unfold drawable. apply Nat.leb_le. lia.
Qed.

End EmitterFacts.

Module ConverterFacts.

Import Converter.

Lemma or_default_float_tolerance (v : option float) :
  (forall x, v = Some x -> PrimFloat.ltb x 0 = false) ->
  PrimFloat.ltb (or_default_float v 1) 0 = false.
Proof.
  intros H. unfold or_default_float. destruct v as [x|]; [|reflexivity].
  destruct (PrimFloat.eqb x 0 || negb (PrimFloat.eqb x x)); [reflexivity|].
  apply H. reflexivity.
Qed.

(** A number that is not NaN, not zero and not below zero is above
    zero. *)
Lemma positive_float (x : float) :
  PrimFloat.eqb x 0 = false -> PrimFloat.eqb x x = true ->
  PrimFloat.ltb x 0 = false -> PrimFloat.ltb 0 x = true.
Proof.
  rewrite !FloatAxioms.eqb_spec, !FloatAxioms.ltb_spec.
  change (Prim2SF 0) with (S754_zero false).
  unfold SFeqb, SFltb.
  destruct (Prim2SF x) as [s|s| |s m e]; cbn; try discriminate;
    destruct s; cbn; try discriminate; reflexivity.
Qed.

Lemma or_default_float_positive (v : option float) :
  (forall x, v = Some x -> PrimFloat.ltb x 0 = false) ->
  PrimFloat.ltb 0 (or_default_float v 1) = true.
Proof.
  intros H. unfold or_default_float. destruct v as [x|]; [|reflexivity].
  destruct (PrimFloat.eqb x 0 || negb (PrimFloat.eqb x x)) eqn:E; [reflexivity|].
  apply orb_false_elim in E as [E0 En]. apply negb_false_iff in En.
  apply positive_float; auto.
Qed.

Lemma traceOptions_colors (options : Options) :
  Z.max 1 (ImageTracer.numberofcolors (trace_options (traceOptions options)))
  <= match traceMode options with
     | NameMonochrome => 2
     | NamePosterize => 8
     | _ => Z.max 1 (or_default (colorCount options) 16)
     end.
Proof.
  rewrite EmitterFacts.trace_options_colors.
  unfold traceOptions. cbn [ImageTracer.colorMode ImageTracer.numberofcolors].
  destruct (traceMode options); lia.
Qed.

End ConverterFacts.

Module EscapeFacts.

Import NodeConverter.

Lemma append_assoc (s1 s2 s3 : string) :
  (s1 ++ (s2 ++ s3) = (s1 ++ s2) ++ s3)%string.
Proof.
  induction s1 as [|a s1 IH]; [reflexivity|].
  cbn [append]. rewrite IH. reflexivity.
Qed.

Lemma replace_all_app (c : ascii) (r s1 s2 : string) :
  replace_all c r (s1 ++ s2)
  = (replace_all c r s1 ++ replace_all c r s2)%string.
Proof.
  induction s1 as [|a s1 IH]; [reflexivity|].
  cbn [append replace_all]. rewrite IH.
  destruct (Ascii.eqb a c); [apply append_assoc | reflexivity].
Qed.

Lemma entity_cases (a : ascii) :
  (a = "&"%char /\ entity a = "&amp;"%string) \/
  (a = "<"%char /\ entity a = "&lt;"%string) \/
  (a = ">"%char /\ entity a = "&gt;"%string) \/
  (a = quote_char /\ entity a = "&quot;"%string) \/
  (a <> "&"%char /\ a <> "<"%char /\ a <> ">"%char /\ a <> quote_char /\
   entity a = String a EmptyString).
Proof.
  unfold entity.
  destruct (Ascii.eqb_spec a "&"); [left; auto|].
  destruct (Ascii.eqb_spec a "<"); [right; left; auto|].
  destruct (Ascii.eqb_spec a ">"); [right; right; left; auto|].
  destruct (Ascii.eqb_spec a quote_char); [right; right; right; left; auto|].
  right; right; right; right. auto.
Qed.

Lemma escaped_text_cons (a : ascii) (s : string) :
  escaped_text (String a s) = (entity a ++ escaped_text s)%string.
Proof.
  unfold escaped_text, entity. cbn [replace_all].
  destruct (Ascii.eqb_spec a "&") as [->|N1].
  { rewrite !replace_all_app. reflexivity. }
  cbn [replace_all].
  destruct (Ascii.eqb_spec a "<") as [->|N2].
  { rewrite !replace_all_app. reflexivity. }
  cbn [replace_all].
  destruct (Ascii.eqb_spec a ">") as [->|N3].
  { rewrite !replace_all_app. reflexivity. }
  cbn [replace_all].
  destruct (Ascii.eqb_spec a quote_char) as [->|N4]; reflexivity.
Qed.

Lemma escaped_text_chars (s : string) :
  escaped_text s = flat_chars entity s.
Proof.
  induction s as [|a s IH]; [reflexivity|].
  rewrite escaped_text_cons, IH. reflexivity.
Qed.

Lemma occurs_app (c : ascii) (s1 s2 : string) :
  occurs c (s1 ++ s2) = occurs c s1 || occurs c s2.
Proof.
  induction s1 as [|a s1 IH]; [reflexivity|].
  cbn [append occurs]. rewrite IH, orb_assoc. reflexivity.
Qed.

Lemma entity_clean (a c : ascii) :
  c = "<"%char \/ c = ">"%char \/ c = quote_char -> occurs c (entity a) = false.
Proof.
  intros Hc.
  destruct (entity_cases a)
    as [[A E]|[[A E]|[[A E]|[[A E]|(N1 & N2 & N3 & N4 & E)]]]];
    rewrite E;
    try (destruct Hc as [Hc|[Hc|Hc]]; rewrite Hc; reflexivity).
  cbn [occurs]. rewrite orb_false_r.
  destruct (Ascii.eqb_spec a c); [|reflexivity].
  subst c. destruct Hc as [Hc|[Hc|Hc]]; congruence.
Qed.

Lemma escaped_text_clean (s : string) (c : ascii) :
  c = "<"%char \/ c = ">"%char \/ c = quote_char ->
  occurs c (escaped_text s) = false.
Proof.
  intros Hc. rewrite escaped_text_chars.
  induction s as [|a s IH]; [reflexivity|].
  cbn [flat_chars]. rewrite occurs_app, IH, (entity_clean a c Hc). reflexivity.
Qed.

Lemma escaped_text_injective (s1 : string) :
  forall s2, escaped_text s1 = escaped_text s2 -> s1 = s2.
Proof.
  induction s1 as [|a1 s1 IH]; intros [|a2 s2] H.
  - reflexivity.
  - rewrite escaped_text_cons in H. exfalso.
    destruct (entity_cases a2) as [[_ E]|[[_ E]|[[_ E]|[[_ E]|(_ & _ & _ & _ & E)]]]];
      rewrite E in H; discriminate.
  - rewrite escaped_text_cons in H. exfalso.
    destruct (entity_cases a1) as [[_ E]|[[_ E]|[[_ E]|[[_ E]|(_ & _ & _ & _ & E)]]]];
      rewrite E in H; discriminate.
  - rewrite !escaped_text_cons in H.
    destruct (entity_cases a1)
      as [[A1 E1]|[[A1 E1]|[[A1 E1]|[[A1 E1]|(N1 & N2 & N3 & N4 & E1)]]]];
    destruct (entity_cases a2)
      as [[A2 E2]|[[A2 E2]|[[A2 E2]|[[A2 E2]|(M1 & M2 & M3 & M4 & E2)]]]];
      rewrite E1, E2 in H; cbn [append] in H;
      try discriminate;
      inversion H; subst;
      try congruence;
      f_equal; apply IH; assumption.
Qed.

End EscapeFacts.


Module MoreQuantizerFacts.

Import QuantizerFacts.

Lemma quantizeColors_one_colour (pixels : list color) (c : color) (N : Z) :
  pixels <> [] -> 1 <= N -> (forall p, In p pixels -> p = c) ->
  NodeTracer.quantizeColors (map pixel_of_color pixels) N
  = Some [NodeTracer.mkEntry (col_r c) (col_g c) (col_b c)
            (Z.of_nat (length pixels))].
Proof.
  intros Hne HN Hall.
  destruct (quantizers_agree pixels N) as (palette & palette' & E & E' & Ergb).
  rewrite (medianCut_one_colour pixels N c Hne HN Hall) in E.
  inversion E; subst palette. rewrite E'. f_equal.
  assert (Hne' : map pixel_of_color pixels <> [])
    by (destruct pixels; [congruence | discriminate]).
  destruct (quantizeColors_counts _ _ _ Hne' HN E') as [Hsum _].
  destruct palette' as [|e [|e' rest]]; try discriminate.
  cbn [map fold_right] in Hsum, Ergb. rewrite length_map in Hsum.
  destruct e as [er eg eb ec].
  unfold rgb_of_entry, rgb_of in Ergb.
  cbn [NodeTracer.e_r NodeTracer.e_g NodeTracer.e_b NodeTracer.count] in Ergb, Hsum.
  injection Ergb as H1 H2 H3. subst er eg eb.
  replace ec with (Z.of_nat (length pixels)) by lia. reflexivity.
Qed.

Lemma pixel_index_transparent (d : list Z) (palette : list NodeTracer.entry)
    (i : nat) :
  NodeTracer.pixel_index d palette i = -1 <->
  exists a, nth_error d (i + 3) = Some a /\ a < 128.
Proof.
  unfold NodeTracer.pixel_index, rd.
  destruct (nth_error d (i + 3)) as [a|] eqn:E.
  - destruct (Z.ltb_spec a 128).
    + split; [intros _; eauto | reflexivity].
    + split; [lia|]. intros (a' & Ea & La). inversion Ea; subst. lia.
  - split; [lia|]. intros (a' & Ea & _). discriminate.
Qed.

End MoreQuantizerFacts.

Module BlurFacts.

Import ImageTracer.

Lemma kernel_length (host : JsHost) (radius : Z) :
  length (blur_kernel host radius) = Z.to_nat (radius * 2 + 1).
Proof. unfold blur_kernel. rewrite !length_map, length_seq. reflexivity. Qed.

Lemma nth_map_seq {A : Type} (f : nat -> A) (n j : nat) (d : A) :
  (j < n)%nat -> nth j (map f (seq 0 n)) d = f j.
Proof.
  intros H. rewrite (nth_indep _ d (f 0%nat)) by (rewrite length_map, length_seq; exact H).
  rewrite map_nth, seq_nth by exact H. reflexivity.
Qed.

(** The four stores of one pixel, read back. *)
Lemma store_pixel_nth (dst src : list Z) (kernel : list float) (idxs : list Z)
    (p j : nat) :
  (j < length dst)%nat ->
  nth j (store_pixel dst src kernel idxs (Z.of_nat p * 4)) 0
  = if (j / 4 =? p)%nat
    then toUint8Clamp (weighted src kernel idxs (Z.of_nat (j mod 4)))
    else nth j dst 0.
Proof.
  intros Hj. unfold store_pixel, wrZ.
  pose proof (Nat.div_mod_eq j 4) as Ed.
  pose proof (Nat.mod_upper_bound j 4 ltac:(lia)) as Hm.
  destruct (Z.ltb_spec (Z.of_nat p * 4) 0); [lia|].
  destruct (Z.ltb_spec (Z.of_nat p * 4 + 1) 0); [lia|].
  destruct (Z.ltb_spec (Z.of_nat p * 4 + 2) 0); [lia|].
  destruct (Z.ltb_spec (Z.of_nat p * 4 + 3) 0); [lia|].
  replace (Z.to_nat (Z.of_nat p * 4)) with (4 * p)%nat by lia.
  replace (Z.to_nat (Z.of_nat p * 4 + 1)) with (4 * p + 1)%nat by lia.
  replace (Z.to_nat (Z.of_nat p * 4 + 2)) with (4 * p + 2)%nat by lia.
  replace (Z.to_nat (Z.of_nat p * 4 + 3)) with (4 * p + 3)%nat by lia.
  rewrite !ImageTracerFacts.nth_wr, !ImageTracerFacts.wr_length.
  destruct (Nat.eqb_spec (j / 4) p) as [E|E].
  - destruct (Nat.eqb_spec j (4 * p + 3)) as [E3|E3].
    { destruct (Nat.ltb_spec (4 * p + 3) (length dst)); [|lia]. cbn [andb].
      replace (j mod 4)%nat with 3%nat by lia. reflexivity. }
    destruct (Nat.eqb_spec j (4 * p + 2)) as [E2|E2].
    { destruct (Nat.ltb_spec (4 * p + 2) (length dst)); [|lia]. cbn [andb].
      replace (j mod 4)%nat with 2%nat by lia. reflexivity. }
    destruct (Nat.eqb_spec j (4 * p + 1)) as [E1|E1].
    { destruct (Nat.ltb_spec (4 * p + 1) (length dst)); [|lia]. cbn [andb].
      replace (j mod 4)%nat with 1%nat by lia. reflexivity. }
    destruct (Nat.eqb_spec j (4 * p)) as [E0|E0]; [|lia].
    destruct (Nat.ltb_spec (4 * p) (length dst)); [|lia]. cbn [andb].
    replace (j mod 4)%nat with 0%nat by lia. reflexivity.
  - destruct (Nat.eqb_spec j (4 * p + 3)); [lia|].
    destruct (Nat.eqb_spec j (4 * p + 2)); [lia|].
    destruct (Nat.eqb_spec j (4 * p + 1)); [lia|].
    destruct (Nat.eqb_spec j (4 * p)); [lia|]. reflexivity.
Qed.

Lemma store_pixel_length (dst src : list Z) (kernel : list float)
    (idxs : list Z) (idx : Z) :
  length (store_pixel dst src kernel idxs idx) = length dst.
Proof. unfold store_pixel. rewrite !ImageTracerFacts.wrZ_length. reflexivity. Qed.

Lemma pixel_of_number (w : nat) (xy : Z * Z) (j : nat) :
  0 <= fst xy < Z.of_nat w -> 0 <= snd xy ->
  number w xy = (j / 4)%nat -> pixel_of w j = xy.
Proof.
  intros Hx Hy E. unfold pixel_of. rewrite <- E. unfold number.
  destruct xy as [x y]. cbn [fst snd] in *.
  assert (En : Z.to_nat (y * Z.of_nat w + x) = (w * Z.to_nat y + Z.to_nat x)%nat).
  { rewrite Z2Nat.inj_add, Z2Nat.inj_mul, Nat2Z.id by nia. lia. }
  rewrite En.
  assert (Hw : (Z.to_nat x < w)%nat) by lia.
  rewrite <- (Nat.mod_unique _ w (Z.to_nat y) (Z.to_nat x) Hw eq_refl).
  rewrite <- (Nat.div_unique _ w (Z.to_nat y) (Z.to_nat x) Hw eq_refl).
  f_equal; lia.
Qed.

Section Pass.

Variable w : nat.
Variable src : list Z.
Variable kernel : list float.
Variable taps : Z * Z -> list Z.

Lemma pass_fold (l : list (Z * Z)) (j : nat) :
  (forall xy, In xy l -> 0 <= fst xy < Z.of_nat w /\ 0 <= snd xy) ->
  forall dst,
    (j < length dst)%nat ->
    nth j (fold_left (pass_at w src kernel taps) l dst) 0
    = if existsb (fun xy => (number w xy =? j / 4)%nat) l
      then toUint8Clamp (weighted src kernel (taps (pixel_of w j))
                           (Z.of_nat (j mod 4)))
      else nth j dst 0.
Proof.
  induction l as [|xy l IH]; intros Hin dst Hj; cbn [fold_left existsb];
    [reflexivity|].
  destruct (Hin xy (or_introl eq_refl)) as [Hx Hy].
  rewrite IH;
    [|intros; apply Hin; right; assumption
     |unfold pass_at; rewrite store_pixel_length; exact Hj].
  unfold pass_at at 1.
  replace ((snd xy * Z.of_nat w + fst xy) * 4) with (Z.of_nat (number w xy) * 4)
    by (unfold number; nia).
  rewrite store_pixel_nth by exact Hj.
  rewrite Nat.eqb_sym.
  destruct (Nat.eqb_spec (number w xy) (j / 4)) as [E|E]; cbn [orb].
  - rewrite (pixel_of_number w xy j Hx Hy E).
    destruct (existsb _ l); reflexivity.
  - reflexivity.
Qed.

End Pass.

Lemma grid_numbers (w h p : nat) :
  existsb (fun xy => (number w xy =? p)%nat) (grid w h) = (p <? w * h)%nat.
Proof.
  destruct (Nat.ltb_spec p (w * h)) as [H|H].
  - apply existsb_exists.
    assert (Hw : (0 < w)%nat) by nia.
    exists (Z.of_nat (p mod w), Z.of_nat (p / w)). split.
    + apply ContourFacts.in_grid.
      pose proof (Nat.mod_upper_bound p w ltac:(lia)).
      assert ((p / w < h)%nat) by (apply Nat.Div0.div_lt_upper_bound; lia).
      lia.
    + apply Nat.eqb_eq. unfold number; cbn [fst snd].
      pose proof (Nat.div_mod_eq p w). nia.
  - destruct (existsb _ (grid w h)) eqn:E; [|reflexivity].
    apply existsb_exists in E as ([x y] & Hin & E).
    apply ContourFacts.in_grid in Hin. apply Nat.eqb_eq in E.
    unfold number in E; cbn [fst snd] in E. nia.
Qed.

(** Either pass over the whole grid, as a list. *)
Lemma pass_grid (host : JsHost) (w h : nat) (radius : Z) (src dst : list Z)
    (taps : Z * Z -> list Z) :
  fold_left (pass_at w src (blur_kernel host radius) taps) (grid w h) dst
  = blur_pass host taps w h radius src dst.
Proof.
  assert (L : length (fold_left (pass_at w src (blur_kernel host radius) taps)
                        (grid w h) dst) = length dst).
  { apply ImageTracerFacts.fold_left_length. intros d xy.
    apply store_pixel_length. }
  apply (nth_ext _ _ 0 0).
  - rewrite L. unfold blur_pass. rewrite length_map, length_seq. reflexivity.
  - intros j Hj. rewrite L in Hj.
    rewrite pass_fold by
      (try exact Hj; intros [x y] Hin; apply ContourFacts.in_grid in Hin;
       cbn [fst snd]; lia).
    rewrite grid_numbers. unfold blur_pass.
    rewrite nth_map_seq by exact Hj. reflexivity.
Qed.

(** blur, byte by byte. *)
Lemma blur_blurred (host : JsHost) (imgd : ImageData) (radius : Z) :
  1 <= radius -> blur host imgd radius = blurred host imgd radius.
Proof.
  intros Hr. unfold blur, blurred.
  destruct (Z.ltb_spec radius 1); [lia|].
  rewrite <- !pass_grid.
  unfold blur_h_at, blur_v_at, pass_at, row_taps, column_taps.
  rewrite kernel_length. reflexivity.
Qed.

End BlurFacts.

Module PathomitFacts.

Import ImageTracer.

(** tracePaths reads the options only for the minimum path length, and
    that only to decide whether a walked path is kept: the paths traced at
    a minimum of [pathomit options] are those traced at a minimum of 0 or
    less that are long enough. *)
Lemma tracePaths_pathomit (layer : Layer) (options options0 : Options) :
  pathomit options0 <= 0 ->
  tracePaths layer options
  = filter (fun path => pathomit options <=? Z.of_nat (length path))
      (tracePaths layer options0).
Proof.
  intros H0. unfold tracePaths.
  set (keep := fun path : list point => pathomit options <=? Z.of_nat (length path)).
  assert (Hstep : forall paths visited xy,
            trace_at layer options (filter keep paths, visited) xy
            = (filter keep (fst (trace_at layer options0 (paths, visited) xy)),
               snd (trace_at layer options0 (paths, visited) xy))).
  { intros paths visited xy. unfold trace_at; cbn [fst snd].
    destruct (truthy (getPixel layer (fst xy) (snd xy))
              && negb (truthy (rdZ visited
                                 (snd xy * Z.of_nat (l_width layer) + fst xy)))
              && isEdge layer (fst xy) (snd xy)); [|reflexivity].
    set (res := walk layer (fst xy) (snd xy)
                  (l_width layer * l_height layer * 4) (fst xy) (snd xy) 0 []
                  visited).
    destruct (Z.leb_spec (pathomit options0) (Z.of_nat (length (fst res))));
      [|lia].
    cbn [fst snd]. rewrite filter_app. subst keep. cbn [filter].
    destruct (pathomit options <=? Z.of_nat (length (fst res)));
      [reflexivity | rewrite app_nil_r; reflexivity]. }
  assert (G : forall g paths visited,
            fold_left (trace_at layer options) g (filter keep paths, visited)
            = (filter keep
                 (fst (fold_left (trace_at layer options0) g (paths, visited))),
               snd (fold_left (trace_at layer options0) g (paths, visited)))).
  { induction g as [|xy g IH]; intros paths visited; cbn [fold_left];
      [reflexivity|].
    rewrite Hstep.
    destruct (trace_at layer options0 (paths, visited) xy) as [paths' visited'].
    cbn [fst snd]. apply IH. }
  specialize (G (grid (l_width layer) (l_height layer)) []
                (repeat 0 (l_width layer * l_height layer)%nat)).
  cbn [filter] in G. rewrite G. reflexivity.
Qed.

End PathomitFacts.

Module MismatchFacts.

Import ImageTracer.

(** A search with a colour byte missing compares NaN distances only and
    keeps its initial index. *)
Lemma closest_undefined (palette : list color) (r g b : option Z) :
  r = None \/ g = None \/ b = None -> closest palette r g b = 0%nat.
Proof.
  intros H. unfold closest.
  assert (D : forall p, dist2 r g b p = None).
  { intros p. unfold dist2. destruct H as [->|[->| ->]]; [reflexivity| |];
      destruct r; try reflexivity; destruct g; reflexivity. }
  generalize (combine (seq 0 (length palette)) palette).
  intros l. induction l as [|jp l IH]; [reflexivity|].
  cbn [fold_left]. unfold closest_step at 2. rewrite D. exact IH.
Qed.

Lemma index_of_pixel_missing (d : list Z) (palette : list color) (i : nat) :
  ((length d <= i * 4 + 3)%nat -> 0 <= index_of_pixel d palette i) /\
  ((length d <= i * 4 + 2)%nat -> index_of_pixel d palette i = 0).
Proof.
  unfold index_of_pixel, rd. split; intros H.
  - assert (E : nth_error d (i * 4 + 3) = None) by (apply nth_error_None; lia).
    rewrite E. lia.
  - assert (E : nth_error d (i * 4 + 3) = None) by (apply nth_error_None; lia).
    assert (E2 : nth_error d (i * 4 + 2) = None) by (apply nth_error_None; lia).
    rewrite E, E2, closest_undefined by auto. reflexivity.
Qed.

(** The indexer reads the first width x height x 4 bytes only. *)
Lemma createIndexedImage_reads (imgd : ImageData) (palette : list color) :
  createIndexedImage
    (mkImageData (firstn (width imgd * height imgd * 4) (data imgd))
       (width imgd) (height imgd)) palette
  = createIndexedImage imgd palette.
Proof.
  unfold createIndexedImage. cbn [data width height]. f_equal.
  apply map_ext_in. intros i Hi. apply in_seq in Hi.
  unfold index_of_pixel, rd. rewrite !nth_error_firstn.
  destruct (Nat.ltb_spec (i * 4 + 3) (width imgd * height imgd * 4)); [|lia].
  destruct (Nat.ltb_spec (i * 4 + 2) (width imgd * height imgd * 4)); [|lia].
  destruct (Nat.ltb_spec (i * 4 + 1) (width imgd * height imgd * 4)); [|lia].
  destruct (Nat.ltb_spec (i * 4) (width imgd * height imgd * 4)); [|lia].
  reflexivity.
Qed.

(** Whatever trace returns carries the declared dimensions. *)
Lemma trace_document (host : JsHost) (imgd : ImageData) (options : Options)
    (s : string) :
  snd (trace host imgd options) = Returns s ->
  exists elems,
    s = (svg_header host (width imgd) (height imgd) (trace_options options)
           ++ sconcat elems ++ "</svg>")%string.
Proof.
  rewrite EmitterFacts.trace_unfold.
  destruct (quantize _ _) as [palette|]; [|discriminate].
  unfold generateSvg.
  destruct (document_elements _ _ _) as [elems| |]; cbn [bind]; try discriminate.
  intros H; inversion H; subst. exists elems. reflexivity.
Qed.

(** A position of the grid past the indexed array is under no
    rectangle. *)
Lemma createColorRects_past (indexed : list Z) (width height colorIdx : nat)
    (x y : Z) :
  Z.of_nat (length indexed) <= y * Z.of_nat width + x ->
  cover_count (NodeTracer.createColorRects indexed width height colorIdx) x y
  = 0%nat.
Proof.
  intros H. rewrite RectFacts.createColorRects_spec.
  unfold cell_in, cell, hits.
  destruct (Z.leb_spec 0 x), (Z.leb_spec 0 y); cbn [andb]; try reflexivity.
  assert (E : nth_error indexed (Z.to_nat y * width + Z.to_nat x) = None)
    by (apply nth_error_None; nia).
  rewrite E, !andb_false_r. reflexivity.
Qed.

End MismatchFacts.

(** * The claims *)

(** C1 (as stated, refuted): a buffer whose length differs from
    width x height x 4 is traced like any other; no error is raised.  Here a
    1x1 image with 8 bytes and a 2x2 image with 4 bytes both yield a
    document, in both tracers. *)
Lemma C1_mismatched_buffer_is_traced :
  length (ImageTracer.data long_image)
    <> (ImageTracer.width long_image * ImageTracer.height long_image * 4)%nat /\
  snd (ImageTracer.trace host0 long_image ImageTracer.defaultOptions)
    = Returns (ImageTracer.svg_header host0 1 1 ImageTracer.defaultOptions
               ++ "</svg>")%string /\
  length (ImageTracer.data short_image)
    <> (ImageTracer.width short_image * ImageTracer.height short_image * 4)%nat /\
  snd (ImageTracer.trace host0 short_image ImageTracer.defaultOptions)
    = Returns (ImageTracer.svg_header host0 2 2 ImageTracer.defaultOptions
               ++ "</svg>")%string /\
  exists s,
    snd (NodeTracer.trace host0 red_px 2 2
           (NodeTracer.mkOptions 16 128%float NodeTracer.TraceColor))
    = Returns s.
Proof.
  split; [vm_compute; discriminate|].
  split; [vm_compute; reflexivity|].
  split; [vm_compute; discriminate|].
  split; [vm_compute; reflexivity|].
  eexists. vm_compute. reflexivity.
Qed.

(** C1 (amended): neither tracer compares the buffer length with the
    dimensions; a mismatched buffer is processed like any other.  In
    imagetrace.js the palette is computed from the buffer whatever the
    dimensions say; the indexed image has width x height entries whatever
    the buffer holds; a pixel of the grid whose alpha byte lies past the
    end of the buffer is never marked transparent, and one with a colour
    byte past the end gets palette index 0; the indexer ignores the bytes
    past the grid; and any document trace returns carries the declared
    width and height.  In usage.js the palette ignores the dimensions too,
    the indexed array has one entry per four bytes of the buffer, and a
    position of the grid past it lies under no rectangle. *)
Theorem trace_has_no_dimension_check (host : JsHost)
    (imgd : ImageTracer.ImageData) (options : ImageTracer.Options)
    (palette : list color) (d : list Z) (width height : nat) (N : Z)
    (entries : list NodeTracer.entry) :
  let n := (ImageTracer.width imgd * ImageTracer.height imgd)%nat in
  let indexed := ImageTracer.array (ImageTracer.createIndexedImage imgd palette) in
  (forall w h,
     ImageTracer.quantize (ImageTracer.mkImageData (ImageTracer.data imgd) w h)
       options
     = ImageTracer.quantize imgd options) /\
  length indexed = n /\
  (forall i, (i < n)%nat ->
     ((length (ImageTracer.data imgd) <= i * 4 + 3)%nat -> 0 <= nth i indexed 0) /\
     ((length (ImageTracer.data imgd) <= i * 4 + 2)%nat -> nth i indexed 0 = 0)) /\
  ImageTracer.createIndexedImage
    (ImageTracer.mkImageData (firstn (n * 4) (ImageTracer.data imgd))
       (ImageTracer.width imgd) (ImageTracer.height imgd)) palette
  = ImageTracer.createIndexedImage imgd palette /\
  (forall s,
     snd (ImageTracer.trace host imgd options) = Returns s ->
     exists elems,
       s = (ImageTracer.svg_header host (ImageTracer.width imgd)
              (ImageTracer.height imgd) (trace_options options)
            ++ sconcat elems ++ "</svg>")%string) /\
  (forall w h,
     NodeTracer.getPalette d w h N = NodeTracer.getPalette d width height N) /\
  length (NodeTracer.mapToPalette d entries) = (length d / 4)%nat /\
  (forall colorIdx x y,
     Z.of_nat (length d / 4) <= y * Z.of_nat width + x ->
     cover_count
       (NodeTracer.createColorRects (NodeTracer.mapToPalette d entries)
          width height colorIdx) x y
     = 0%nat).
Proof.
  intros n indexed.
  destruct (ImageTracerFacts.createIndexedImage_array imgd palette) as [Len Nth].
  fold indexed in Len, Nth. fold n in Len, Nth.
  split; [reflexivity|]. split; [exact Len|]. split.
  { intros i Hi.
    rewrite (nth_error_nth _ _ 0 (Nth i Hi)).
    apply MismatchFacts.index_of_pixel_missing. }
  split; [apply MismatchFacts.createIndexedImage_reads|].
  split; [intros s; apply MismatchFacts.trace_document|].
  split; [reflexivity|].
  destruct (IndexerFacts.mapToPalette_spec d entries) as [L _].
  split; [exact L|].
  intros colorIdx x y H. apply MismatchFacts.createColorRects_past.
  rewrite L. exact H.
Qed.

(** C2 (as stated, refuted): in the scenario the palette is blue then red,
    not red then blue, and the document of imagetrace.js has no path
    element at all. *)
Lemma C2_scenario_differs :
  ImageTracer.quantize scenario_image scenario_options = Some [blue; red] /\
  [blue; red] <> [red; blue] /\
  ImageTracer.document_elements host0
    (ImageTracer.layerSeparation
       (ImageTracer.createIndexedImage scenario_image [blue; red]) [blue; red])
    scenario_options
  = Returns [].
Proof.
  split; [vm_compute; reflexivity|].
  split; [discriminate|]. vm_compute. reflexivity.
Qed.

(** C2 (amended): for the 2x2 red-left, blue-right buffer with
    colorCount 2, scale 1, precision 0, the palette is [blue; red] (the
    split sorts ascending on the red channel), there are exactly two
    layers, the right column for blue and the left column for red, each
    yielding one two-point contour down its column.  The minimum path
    length being 8 by default, both contours are omitted and the document
    of imagetrace.js holds no filled region, and so it is at every minimum
    above 2; at every minimum of 2 or less each layer yields its contour
    and the document holds the two path elements, blue then red.  The
    rectangle strategy of usage.js has the palette in the same order with
    2 pixels each and emits one 1x2 rectangle per colour, the two tiling
    the canvas. *)
Theorem scenario_trace :
  ImageTracer.quantize scenario_image scenario_options = Some [blue; red] /\
  ImageTracer.layerSeparation
    (ImageTracer.createIndexedImage scenario_image [blue; red]) [blue; red]
  = [blue_layer; red_layer] /\
  ImageTracer.tracePaths blue_layer (scenario_with 2) = [[(1, 0); (1, 1)]] /\
  ImageTracer.tracePaths red_layer (scenario_with 2) = [[(0, 0); (0, 1)]] /\
  ImageTracer.tracePaths blue_layer scenario_options = [] /\
  ImageTracer.tracePaths red_layer scenario_options = [] /\
  (forall host,
     snd (ImageTracer.trace host scenario_image scenario_options)
     = Returns (ImageTracer.svg_header host 2 2 scenario_options ++ "</svg>")%string) /\
  (forall pathomit, pathomit <= 2 ->
     ImageTracer.tracePaths blue_layer (scenario_with pathomit)
       = [[(1, 0); (1, 1)]] /\
     ImageTracer.tracePaths red_layer (scenario_with pathomit)
       = [[(0, 0); (0, 1)]] /\
     forall host,
       snd (ImageTracer.trace host scenario_image (scenario_with pathomit))
       = Returns
           (ImageTracer.svg_header host 2 2 (scenario_with pathomit)
              ++ sconcat
                   [ImageTracer.path_element (ImageTracer.fill_of host blue)
                      (column_contour host (scenario_with pathomit) 1);
                    ImageTracer.path_element (ImageTracer.fill_of host red)
                      (column_contour host (scenario_with pathomit) 0)]
              ++ "</svg>")%string) /\
  (forall pathomit, 2 < pathomit ->
     ImageTracer.tracePaths blue_layer (scenario_with pathomit) = [] /\
     ImageTracer.tracePaths red_layer (scenario_with pathomit) = [] /\
     forall host,
       snd (ImageTracer.trace host scenario_image (scenario_with pathomit))
       = Returns (ImageTracer.svg_header host 2 2 (scenario_with pathomit)
                    ++ "</svg>")%string) /\
  column_contour host0 scenario_options 1 = "M 1 0 L 1 1 Z"%string /\
  column_contour host0 scenario_options 0 = "M 0 0 L 0 1 Z"%string /\
  NodeTracer.getPalette (ImageTracer.data scenario_image) 2 2 2
  = Some [NodeTracer.mkEntry 0 0 255 2; NodeTracer.mkEntry 255 0 0 2] /\
  NodeTracer.createColorRects
    (NodeTracer.mapToPalette (ImageTracer.data scenario_image)
       [NodeTracer.mkEntry 0 0 255 2; NodeTracer.mkEntry 255 0 0 2]) 2 2 0
  = [NodeTracer.mkRect 1 0 1 2] /\
  NodeTracer.createColorRects
    (NodeTracer.mapToPalette (ImageTracer.data scenario_image)
       [NodeTracer.mkEntry 0 0 255 2; NodeTracer.mkEntry 255 0 0 2]) 2 2 1
  = [NodeTracer.mkRect 0 0 1 2].
Proof.
  assert (B : forall pathomit,
            ImageTracer.tracePaths blue_layer (scenario_with pathomit)
            = if pathomit <=? 2 then [[(1, 0); (1, 1)]] else []).
  { intros p.
    rewrite (PathomitFacts.tracePaths_pathomit blue_layer (scenario_with p)
               (scenario_with 0)) by (cbn; lia).
    reflexivity. }
  assert (R : forall pathomit,
            ImageTracer.tracePaths red_layer (scenario_with pathomit)
            = if pathomit <=? 2 then [[(0, 0); (0, 1)]] else []).
  { intros p.
    rewrite (PathomitFacts.tracePaths_pathomit red_layer (scenario_with p)
               (scenario_with 0)) by (cbn; lia).
    reflexivity. }
  assert (T : forall host pathomit,
            snd (ImageTracer.trace host scenario_image (scenario_with pathomit))
            = ImageTracer.generateSvg host [blue_layer; red_layer] 2 2
                (scenario_with pathomit)).
  { intros host p. vm_compute. reflexivity. }
  split; [vm_compute; reflexivity|]. split; [vm_compute; reflexivity|].
  split; [vm_compute; reflexivity|]. split; [vm_compute; reflexivity|].
  split; [vm_compute; reflexivity|]. split; [vm_compute; reflexivity|].
  split; [intros host; vm_compute; reflexivity|].
  split; [|split].
  - intros p Hp. apply Z.leb_le in Hp.
    split; [rewrite B, Hp; reflexivity|]. split; [rewrite R, Hp; reflexivity|].
    intros host. rewrite T. unfold ImageTracer.generateSvg.
    cbn [ImageTracer.document_elements].
    rewrite B, R, Hp. vm_compute. reflexivity.
  - intros p Hp. apply Z.leb_gt in Hp.
    split; [rewrite B, Hp; reflexivity|]. split; [rewrite R, Hp; reflexivity|].
    intros host. rewrite T. unfold ImageTracer.generateSvg.
    cbn [ImageTracer.document_elements].
    rewrite B, R, Hp. vm_compute. reflexivity.
  - repeat match goal with |- _ /\ _ => split end; vm_compute; reflexivity.
Qed.

(** C3: for every buffer and every requested count N >= 1 the palette has
    at least 1 and at most N entries, in both quantizers. *)
Theorem palette_size_bounds (imgd : ImageTracer.ImageData)
    (options : ImageTracer.Options) (d : list Z) (width height : nat) (N : Z) :
  1 <= ImageTracer.numberofcolors options ->
  1 <= N ->
  (exists palette,
     ImageTracer.quantize imgd options = Some palette /\
     (1 <= length palette)%nat /\
     Z.of_nat (length palette) <= ImageTracer.numberofcolors options) /\
  (exists palette,
     NodeTracer.getPalette d width height N = Some palette /\
     (1 <= length palette)%nat /\
     Z.of_nat (length palette) <= N).
Proof.
  intros H1 H2. split.
  - destruct (ImageTracerFacts.quantize_some imgd options) as [palette E].
    exists palette. split; [exact E|].
    apply ImageTracerFacts.quantize_length in E. lia.
  - unfold NodeTracer.getPalette.
    destruct (NodeTracerFacts.quantizeColors_some
                (NodeTracer.getPalette_pixels d) N) as [palette E].
    exists palette. split; [exact E|].
    apply NodeTracerFacts.quantizeColors_length in E. lia.
Qed.

Lemma palette_size_bounds_witness :
  1 <= ImageTracer.numberofcolors scenario_options /\
  1 <= 2 /\
  (exists palette,
     ImageTracer.quantize scenario_image scenario_options = Some palette /\
     (1 <= length palette)%nat /\
     Z.of_nat (length palette) <= ImageTracer.numberofcolors scenario_options) /\
  (exists palette,
     NodeTracer.getPalette (ImageTracer.data scenario_image) 2 2 2 = Some palette /\
     (1 <= length palette)%nat /\
     Z.of_nat (length palette) <= 2).
Proof.
  split; [cbn; lia|]. split; [lia|].
  apply (palette_size_bounds scenario_image scenario_options
           (ImageTracer.data scenario_image) 2 2 2); [cbn; lia | lia].
Defined.

(** C4 (as stated, refuted): on a fully transparent image quantize
    returns the transparent black entry, not neutral gray; and a count of 0
    gives the gray entry where a count of 1 gives the average colour. *)
Lemma C4_fallbacks_differ :
  ImageTracer.quantize transparent_image ImageTracer.defaultOptions
    = Some [mkColor 0 0 0 0] /\
  mkColor 0 0 0 0 <> ImageTracer.gray /\
  ImageTracer.medianCut [red] 0 = Some [ImageTracer.gray] /\
  ImageTracer.medianCut [red] 1 = Some [red] /\
  ImageTracer.gray <> red.
Proof.
  repeat match goal with |- _ /\ _ => split end;
    try (vm_compute; reflexivity); discriminate.
Qed.

(** C4 (amended): when no pixel is collected, quantize of imagetrace.js
    returns the single entry (0, 0, 0, 0), transparent black; medianCut
    itself, and quantizeColors of usage.js, return a single neutral gray
    entry on an empty pixel list.  For a requested count below 1 both
    return that single gray entry without raising an error, whatever the
    pixels are. *)
Theorem quantizer_fallbacks (imgd : ImageTracer.ImageData)
    (options : ImageTracer.Options) (pixels : list color)
    (pixels' : list NodeTracer.pixel) (N : Z) :
  (ImageTracer.quantize_pixels (ImageTracer.data imgd) = [] ->
   ImageTracer.quantize imgd options = Some [mkColor 0 0 0 0]) /\
  ImageTracer.medianCut [] N = Some [ImageTracer.gray] /\
  NodeTracer.quantizeColors [] N = Some [NodeTracer.mkEntry 128 128 128 0] /\
  (N < 1 ->
   ImageTracer.medianCut pixels N = Some [ImageTracer.gray] /\
   NodeTracer.quantizeColors pixels' N
   = Some [NodeTracer.mkEntry 128 128 128 0]).
Proof.
  split; [|split; [reflexivity | split; [reflexivity|]]].
  - intros E. unfold ImageTracer.quantize. rewrite E. reflexivity.
  - intros HN. apply Z.ltb_lt in HN.
    unfold ImageTracer.medianCut, NodeTracer.quantizeColors.
    rewrite HN, !orb_true_r. split; reflexivity.
Qed.

Lemma quantizer_fallbacks_witness :
  ImageTracer.quantize_pixels (ImageTracer.data transparent_image) = [] /\
  0 < 1 /\
  ImageTracer.quantize transparent_image ImageTracer.defaultOptions
    = Some [mkColor 0 0 0 0] /\
  ImageTracer.medianCut [red] 0 = Some [ImageTracer.gray] /\
  NodeTracer.quantizeColors [NodeTracer.mkPixel 255 0 0] 0
    = Some [NodeTracer.mkEntry 128 128 128 0].
Proof.
  pose proof (quantizer_fallbacks transparent_image ImageTracer.defaultOptions
                [red] [NodeTracer.mkPixel 255 0 0] 0) as (A & _ & _ & B).
  split; [reflexivity|]. split; [lia|].
  split; [apply A; reflexivity|]. apply B. lia.
Defined.

(** C5 (as stated, refuted): a pixel of alpha 64 is clustered by quantize
    (it is the whole palette) although it is below the 128 cutoff and the
    indexer marks it transparent. *)
Lemma C5_translucent_pixel_is_clustered :
  ImageTracer.quantize_pixels (ImageTracer.data translucent_image)
    = [mkColor 10 20 30 64] /\
  pixels_above 128 (ImageTracer.data translucent_image) = [] /\
  ImageTracer.quantize translucent_image ImageTracer.defaultOptions
    = Some [mkColor 10 20 30 64] /\
  ImageTracer.index_of_pixel (ImageTracer.data translucent_image)
    [mkColor 10 20 30 64] 0 = -1.
Proof.
  repeat match goal with |- _ /\ _ => split end; vm_compute; reflexivity.
Qed.

(** C5 (amended): quantize of imagetrace.js clusters exactly the pixels
    whose alpha is above 0, in buffer order, while the indexer marks a pixel
    transparent exactly when its alpha is below 128: pixels of alpha 1..127
    contribute to the palette and belong to no layer.  getPalette of
    usage.js clusters the pixels whose alpha is above 128, so there no pixel
    of alpha below the cutoff contributes. *)
Theorem clustered_pixels (d : list Z) (palette : list color) (i : nat) :
  ImageTracer.quantize_pixels d = pixels_above 0 d /\
  (ImageTracer.index_of_pixel d palette i = -1 <->
   exists a, rd d (i * 4 + 3) = Some a /\ a < 128) /\
  NodeTracer.getPalette_pixels d = map pixel_of_color (pixels_above 128 d).
Proof.
  split; [apply ImageTracerFacts.quantize_pixels_above|].
  split; [apply ImageTracerFacts.index_of_pixel_transparent|].
  apply NodeTracerFacts.getPalette_pixels_above.
Qed.

(** C6 (as stated, refuted): three black pixels and a red one hold two
    distinct colours; with 3 colours requested the palette has 3 entries,
    black twice. *)
Lemma C6_more_entries_than_colours :
  distinct_colors three_black_one_red = 2%nat /\
  ImageTracer.medianCut three_black_one_red 3
    = Some [mkColor 0 0 0 255; mkColor 0 0 0 255; mkColor 255 0 0 255].
Proof. split; vm_compute; reflexivity. Qed.

(** C6 (amended): when the requested count exceeds the number of distinct
    colours, the splitting loop terminates and the palette has at least as
    many entries as there are distinct colours, and no more than the
    requested count or the pixel count (one entry for no pixel); equal
    pixels can be split apart, so entries can repeat.  This holds for both
    quantizers. *)
Theorem palette_covers_distinct_colours (pixels : list color)
    (pixels' : list NodeTracer.pixel) (N N' : Z) :
  Z.of_nat (distinct_colors pixels) < N ->
  Z.of_nat (distinct_by rgb_of_pixel pixels') < N' ->
  (exists palette,
     ImageTracer.medianCut pixels N = Some palette /\
     (distinct_colors pixels <= length palette)%nat /\
     Z.of_nat (length palette) <= N /\
     (length palette <= Nat.max 1 (length pixels))%nat) /\
  (exists palette,
     NodeTracer.quantizeColors pixels' N' = Some palette /\
     (distinct_by rgb_of_pixel pixels' <= length palette)%nat /\
     Z.of_nat (length palette) <= N' /\
     (length palette <= Nat.max 1 (length pixels'))%nat).
Proof.
  intros H1 H2. split.
  - destruct pixels as [|p0 pixels0].
    + exists [ImageTracer.gray]. split; [reflexivity|].
      cbn in *. lia.
    + destruct (ImageTracerFacts.medianCut_some (p0 :: pixels0) N) as [palette E].
      exists palette. split; [exact E|].
      pose proof (ImageTracerFacts.medianCut_distinct (p0 :: pixels0) palette N
                    ltac:(discriminate) H1 E).
      lia.
  - destruct pixels' as [|p0 pixels0].
    + exists [NodeTracer.mkEntry 128 128 128 0]. split; [reflexivity|].
      cbn in *. lia.
    + destruct (NodeTracerFacts.quantizeColors_some (p0 :: pixels0) N')
        as [palette E].
      exists palette. split; [exact E|].
      pose proof (NodeTracerFacts.quantizeColors_distinct (p0 :: pixels0)
                    N' palette ltac:(discriminate) H2 E).
      lia.
Qed.

Lemma palette_covers_distinct_colours_witness :
  Z.of_nat (distinct_colors three_black_one_red) < 3 /\
  Z.of_nat (distinct_by rgb_of_pixel
              [NodeTracer.mkPixel 0 0 0; NodeTracer.mkPixel 9 9 9]) < 5 /\
  (exists palette,
     ImageTracer.medianCut three_black_one_red 3 = Some palette /\
     (distinct_colors three_black_one_red <= length palette)%nat /\
     Z.of_nat (length palette) <= 3 /\
     (length palette <= Nat.max 1 (length three_black_one_red))%nat) /\
  (exists palette,
     NodeTracer.quantizeColors
       [NodeTracer.mkPixel 0 0 0; NodeTracer.mkPixel 9 9 9] 5 = Some palette /\
     (distinct_by rgb_of_pixel
        [NodeTracer.mkPixel 0 0 0; NodeTracer.mkPixel 9 9 9] <= length palette)%nat /\
     Z.of_nat (length palette) <= 5 /\
     (length palette
      <= Nat.max 1 (length [NodeTracer.mkPixel 0 0 0; NodeTracer.mkPixel 9 9 9]))%nat).
Proof.
  split; [vm_compute; reflexivity|]. split; [vm_compute; reflexivity|].
  apply (palette_covers_distinct_colours three_black_one_red
           [NodeTracer.mkPixel 0 0 0; NodeTracer.mkPixel 9 9 9] 3 5);
    vm_compute; reflexivity.
Defined.

(** C7: every pixel's indexed value is either -1, exactly when its alpha
    is below 128, or a valid index into the palette; a pixel indexed -1 is
    in no layer mask and every other pixel is in exactly one, so the layer
    masks and the transparent set partition the pixel grid; and every
    emitted layer has a mask of the grid's size with at least one pixel
    set.  This holds for every buffer and every non-empty palette, and the
    palette createIndexedImage receives is never empty: the function is
    private to the engine and trace hands it the palette quantize
    returned, which has at least one entry. *)
Theorem indexed_layers_partition (imgd : ImageTracer.ImageData)
    (palette : list color) :
  palette <> [] ->
  let indexed := ImageTracer.createIndexedImage imgd palette in
  let layers := ImageTracer.layerSeparation indexed palette in
  let n := (ImageTracer.width imgd * ImageTracer.height imgd)%nat in
  length (ImageTracer.array indexed) = n /\
  (forall i, (i < n)%nat ->
     let v := nth i (ImageTracer.array indexed) 0 in
     (v = -1 <->
      exists a, rd (ImageTracer.data imgd) (i * 4 + 3) = Some a /\ a < 128) /\
     (v = -1 \/ 0 <= v < Z.of_nat (length palette)) /\
     length (filter (in_layer i) layers) = (if v =? -1 then 0%nat else 1%nat)) /\
  (forall L, In L layers ->
     length (ImageTracer.l_array L) = n /\
     exists i, (i < n)%nat /\ in_layer i L = true) /\
  (forall img options quantized,
     ImageTracer.quantize img options = Some quantized -> quantized <> []).
Proof.
  intros Hne indexed layers n.
  destruct (ImageTracerFacts.createIndexedImage_array imgd palette) as [Len Nth].
  fold indexed in Len, Nth. fold n in Len, Nth.
  split; [exact Len|]. split; [|split].
  - intros i Hi v. specialize (Nth i Hi).
    assert (Ev : v = ImageTracer.index_of_pixel (ImageTracer.data imgd) palette i)
      by (subst v; apply nth_error_nth; exact Nth).
    destruct (ImageTracerFacts.index_of_pixel_spec (ImageTracer.data imgd)
                palette i Hne) as [S1 S2].
    rewrite <- Ev in S1, S2. split; [exact S1|]. split; [exact S2|].
    subst layers. unfold ImageTracer.layerSeparation.
    assert (Hv : nth_error (ImageTracer.array indexed) i = Some v)
      by (rewrite Ev; exact Nth).
    rewrite (ImageTracerFacts.count_layers indexed palette i v Hi Hv).
    destruct S2 as [->|S2]; [reflexivity|].
    destruct (Z.eqb_spec v (-1)); [lia|].
    destruct (Z.leb_spec (Z.of_nat 0) v), (Z.ltb_spec v (Z.of_nat (0 + length palette)));
      try reflexivity; lia.
  - intros L HL. apply (ImageTracerFacts.layerSeparation_layers indexed palette L);
      assumption.
  - intros img options quantized E.
    apply ImageTracerFacts.quantize_length in E as [E _].
    destruct quantized; [cbn in E; lia | discriminate].
Qed.

Lemma indexed_layers_partition_witness :
  [blue; red] <> [] /\
  length (ImageTracer.array
            (ImageTracer.createIndexedImage scenario_image [blue; red])) = 4%nat /\
  length (filter (in_layer 1)
            (ImageTracer.layerSeparation
               (ImageTracer.createIndexedImage scenario_image [blue; red])
               [blue; red])) = 1%nat.
Proof.
  split; [discriminate|].
  destruct (indexed_layers_partition scenario_image [blue; red])
    as (A & B & _); [discriminate|].
  split; [exact A|].
  destruct (B 1%nat) as (_ & _ & C); [vm_compute; lia|]. exact C.
Defined.

(** C8 (code defect): simplifyPath of imagetrace.js does not return for
    every tolerance.  On three collinear points and tolerance -1 the scan
    leaves maxIdx at 0 while 0 > -1 takes the recursive branch, so the
    right-hand call is the call itself: no depth of recursion returns, and
    tracing a 5x1 opaque row with ltres -1 ends in the call-stack
    RangeError.  simplifyPath of usage.js returns on the same input. *)
Theorem simplifyPath_negative_tolerance :
  (forall fuel,
     ImageTracer.simplifyPath_fuel fuel collinear3 (-1)%float = None) /\
  snd (ImageTracer.trace host0 row5_image negative_tolerance_options)
    = Throws RangeError_callStack /\
  NodeTracer.simplifyPath collinear3 (-1)%float = Some [(0, 0); (2, 0)].
Proof.
  split; [|split; vm_compute; reflexivity].
  apply ImageTracerFacts.simplifyPath_fuel_stuck;
    [vm_compute; lia | vm_compute; reflexivity | vm_compute; reflexivity].
Qed.

(** X1: whatever simplifyPath of imagetrace.js returns has no more points
    than the path, leaves a path of at most two points unchanged and keeps
    the first and the last point; it returns for every path when the
    tolerance is not negative; and when the model yields [None] no depth of
    recursion returns. *)
Theorem simplifyPath_shape (points : list point) (tolerance : float) :
  (forall r, ImageTracer.simplifyPath points tolerance = Some r ->
             simplified_of points r) /\
  (PrimFloat.ltb tolerance 0 = false ->
   exists r, ImageTracer.simplifyPath points tolerance = Some r
             /\ simplified_of points r) /\
  (ImageTracer.simplifyPath points tolerance = None ->
   forall fuel, ImageTracer.simplifyPath_fuel fuel points tolerance = None).
Proof.
  split; [|split].
  - intros r H. eapply ImageTracerFacts.simplifyPath_fuel_sound. exact H.
  - intros Ht.
    destruct (ImageTracerFacts.simplifyPath_total tolerance Ht points) as [r E].
    exists r. split; [exact E|].
    eapply ImageTracerFacts.simplifyPath_fuel_sound. exact E.
  - intros Hn fuel.
    destruct (ImageTracer.simplifyPath_fuel fuel points tolerance) as [r|] eqn:E;
      [|reflexivity].
    apply ImageTracerFacts.simplifyPath_fuel_enough in E. congruence.
Qed.

Lemma simplifyPath_shape_witness :
  PrimFloat.ltb 1%float 0 = false /\
  exists r, ImageTracer.simplifyPath collinear3 1%float = Some r
            /\ simplified_of collinear3 r.
Proof.
  split; [reflexivity|].
  apply (simplifyPath_shape collinear3 1%float). reflexivity.
Defined.

(** X2: simplifyPath of usage.js returns for every path and every
    tolerance, with no more points than the path, a path of at most two
    points unchanged, and the first and the last point kept. *)
Theorem node_simplifyPath_shape (path : list point) (tolerance : float) :
  exists r, NodeTracer.simplifyPath path tolerance = Some r
            /\ simplified_of path r.
Proof. apply NodeTracerFacts.simplifyPath_spec. Qed.

(** C9 (as stated, refuted): after tracing the scenario image with blur
    radius 1 the caller's buffer holds the blurred bytes. *)
Lemma C9_blur_overwrites_input :
  fst (ImageTracer.trace host0 scenario_image blur_options)
    = [185; 0; 70; 255; 70; 0; 185; 255; 185; 0; 70; 255; 70; 0; 185; 255] /\
  fst (ImageTracer.trace host0 scenario_image blur_options)
    <> ImageTracer.data scenario_image.
Proof. split; [vm_compute; reflexivity | vm_compute; discriminate]. Qed.

(** C9 (amended): blur keeps a scratch copy for its horizontal pass and
    writes the vertical pass back into the input buffer.  In colour mode,
    after trace with a positive blur radius the caller's buffer holds the
    blurred image: every byte of a pixel of the grid is the clamped
    weighted sum, down the pixel's column, of the clamped weighted sums
    along the rows of the original bytes, and the bytes past the grid are
    as they were; the document is the one trace returns without blur on
    that overwritten image.  With a radius of 0 or less the buffer is
    unchanged; in every mode the buffer keeps its length. *)
Theorem trace_buffer_after (host : JsHost) (imgd : ImageTracer.ImageData)
    (options : ImageTracer.Options) :
  ImageTracer.colorMode options = ImageTracer.ModeColor ->
  (0 < ImageTracer.blurradius options ->
   fst (ImageTracer.trace host imgd options)
   = blurred host imgd (ImageTracer.blurradius options) /\
   snd (ImageTracer.trace host imgd options)
   = snd (ImageTracer.trace host
            (ImageTracer.mkImageData
               (blurred host imgd (ImageTracer.blurradius options))
               (ImageTracer.width imgd) (ImageTracer.height imgd))
            (without_blur options))) /\
  (ImageTracer.blurradius options <= 0 ->
   fst (ImageTracer.trace host imgd options) = ImageTracer.data imgd) /\
  (forall options',
     length (fst (ImageTracer.trace host imgd options'))
     = length (ImageTracer.data imgd)).
Proof.
  intros Hm. split; [|split].
  - intros H.
    rewrite <- (BlurFacts.blur_blurred host imgd (ImageTracer.blurradius options))
      by lia.
    split; [|apply ImageTracerFacts.trace_reads_blurred; assumption].
    unfold ImageTracer.trace; cbn [fst]. rewrite Hm.
    apply Z.ltb_lt in H. rewrite H. reflexivity.
  - intros H. unfold ImageTracer.trace; cbn [fst]. rewrite Hm.
    destruct (Z.ltb_spec 0 (ImageTracer.blurradius options)); [lia|].
    reflexivity.
  - intros options'. unfold ImageTracer.trace; cbn [fst].
    assert (L1 : length (if 0 <? ImageTracer.blurradius options'
                         then ImageTracer.blur host imgd
                                (ImageTracer.blurradius options')
                         else ImageTracer.data imgd)
                 = length (ImageTracer.data imgd)).
    { destruct (0 <? ImageTracer.blurradius options');
        [apply ImageTracerFacts.blur_length | reflexivity]. }
    destruct (ImageTracer.colorMode options');
      rewrite ?ImageTracerFacts.toGrayscale_length,
              ?ImageTracerFacts.toMonochrome_length; exact L1.
Qed.

Lemma trace_buffer_after_witness :
  ImageTracer.colorMode blur_options = ImageTracer.ModeColor /\
  0 < ImageTracer.blurradius blur_options /\
  fst (ImageTracer.trace host0 scenario_image blur_options)
  = blurred host0 scenario_image (ImageTracer.blurradius blur_options) /\
  snd (ImageTracer.trace host0 scenario_image blur_options)
  = snd (ImageTracer.trace host0
           (ImageTracer.mkImageData
              (blurred host0 scenario_image
                 (ImageTracer.blurradius blur_options))
              (ImageTracer.width scenario_image)
              (ImageTracer.height scenario_image))
           (without_blur blur_options)).
Proof.
  split; [reflexivity|]. split; [cbn; lia|].
  apply (trace_buffer_after host0 scenario_image blur_options);
    [reflexivity | cbn; lia].
Defined.

(** C10: a set pixel none of whose four neighbours is set contributes no
    path element, whatever the options.  The walk started at it pushes that
    single point; every traced path through it is that single point; the
    serializer returns the empty string for a path whose simplified form
    has fewer than two points, and so for this one; and the emitter, which
    skips an empty [d], emits for the layer exactly what it emits for the
    traced paths that do not pass through the pixel. *)
Theorem isolated_pixel_emits_nothing (host : JsHost)
    (layer : ImageTracer.Layer) (options : ImageTracer.Options) (x y : Z) :
  isolated layer x y = true ->
  (forall k dir visited,
     fst (ImageTracer.walk layer x y k x y dir [] visited) = [(x, y)]) /\
  (forall path, In path (ImageTracer.tracePaths layer options) ->
     In (x, y) path -> path = [(x, y)]) /\
  (forall path simplified,
     ImageTracer.simplifyPath path (ImageTracer.ltres options) = Some simplified ->
     (length simplified < 2)%nat ->
     ImageTracer.pathToSvg host path options = Returns EmptyString) /\
  ImageTracer.pathToSvg host [(x, y)] options = Returns EmptyString /\
  (forall fill,
     ImageTracer.layer_elements host fill
       (ImageTracer.tracePaths layer options) options
     = ImageTracer.layer_elements host fill
         (filter (fun path => negb (passes_through x y path))
            (ImageTracer.tracePaths layer options)) options).
Proof.
  intros Hiso. split; [|split; [|split; [|split]]].
  - intros k dir visited.
    apply (ImageTracerFacts.walk_isolated layer x y k dir [] visited Hiso).
  - apply ImageTracerFacts.tracePaths_isolated. exact Hiso.
  - intros path simplified. apply ImageTracerFacts.pathToSvg_short.
  - apply ImageTracerFacts.pathToSvg_single.
  - intros fill. apply ImageTracerFacts.layer_elements_without.
    apply ImageTracerFacts.tracePaths_isolated. exact Hiso.
Qed.

Lemma isolated_pixel_emits_nothing_witness :
  isolated dot_layer 1 1 = true /\
  ImageTracer.tracePaths dot_layer (scenario_with 1) = [[(1, 1)]] /\
  ImageTracer.pathToSvg host0 [(1, 1)] (scenario_with 1) = Returns EmptyString /\
  ImageTracer.layer_elements host0 "f"
    (ImageTracer.tracePaths dot_layer (scenario_with 1)) (scenario_with 1)
  = ImageTracer.layer_elements host0 "f"
      (filter (fun path => negb (passes_through 1 1 path))
         (ImageTracer.tracePaths dot_layer (scenario_with 1)))
      (scenario_with 1).
Proof.
  split; [reflexivity|]. split; [vm_compute; reflexivity|].
  destruct (isolated_pixel_emits_nothing host0 dot_layer (scenario_with 1) 1 1)
    as (_ & _ & _ & A & B); [reflexivity|].
  split; [exact A | apply B].
Defined.


(** * Further properties of the code *)

(** X3: medianCut of imagetrace.js averages within the pixels' range.  For
    a non-empty pixel list and a requested count of 1 or more, every
    channel (r, g, b and a) of every palette entry lies between the least
    and the greatest value that channel takes among the pixels. *)
Theorem palette_within_pixel_range (pixels : list color) (N : Z)
    (f : color -> Z) (lo hi : Z) :
  In f color_fields -> pixels <> [] -> 1 <= N ->
  (forall p, In p pixels -> lo <= f p <= hi) ->
  exists palette,
    ImageTracer.medianCut pixels N = Some palette /\
    forall c, In c palette -> lo <= f c <= hi.
Proof.
  intros Hf Hne HN Hb.
  destruct (ImageTracerFacts.medianCut_some pixels N) as [palette E].
  exists palette. split; [exact E|].
  exact (QuantizerFacts.medianCut_within pixels palette N f lo hi Hf Hne HN Hb E).
Qed.

Lemma palette_within_pixel_range_witness :
  exists palette,
    ImageTracer.medianCut three_black_one_red 3 = Some palette /\
    forall c, In c palette -> 0 <= col_r c <= 255.
Proof.
  apply (palette_within_pixel_range three_black_one_red 3 col_r 0 255).
  - left. reflexivity.
  - discriminate.
  - lia.
  - intros p [<-|[<-|[<-|[<-|[]]]]]; cbn; lia.
Defined.

(** X4: when the buffer holds bytes, every channel of every entry of the
    palette quantize returns is a byte, the two fallback entries
    included. *)
Theorem quantize_palette_bytes (imgd : ImageTracer.ImageData)
    (options : ImageTracer.Options) :
  bytes (ImageTracer.data imgd) ->
  exists palette,
    ImageTracer.quantize imgd options = Some palette /\
    forall c f, In c palette -> In f color_fields -> 0 <= f c <= 255.
Proof. apply QuantizerFacts.quantize_bytes. Qed.

Lemma quantize_palette_bytes_witness :
  exists palette,
    ImageTracer.quantize scenario_image scenario_options = Some palette /\
    forall c f, In c palette -> In f color_fields -> 0 <= f c <= 255.
Proof.
  apply (quantize_palette_bytes scenario_image scenario_options).
  unfold bytes. cbn. repeat constructor; lia.
Defined.

(** X5: a pixel list of one single colour is never split.  For every
    requested count of 1 or more, medianCut returns the one-entry palette
    of that colour, and quantizeColors the one entry of that colour whose
    count is the number of pixels. *)
Theorem one_colour_palette (pixels : list color) (c : color) (N : Z) :
  pixels <> [] -> 1 <= N -> (forall p, In p pixels -> p = c) ->
  ImageTracer.medianCut pixels N = Some [c] /\
  NodeTracer.quantizeColors (map pixel_of_color pixels) N
  = Some [NodeTracer.mkEntry (col_r c) (col_g c) (col_b c)
            (Z.of_nat (length pixels))].
Proof.
  intros Hne HN Hall. split.
  - apply QuantizerFacts.medianCut_one_colour; assumption.
  - apply MoreQuantizerFacts.quantizeColors_one_colour; assumption.
Qed.

Lemma one_colour_palette_witness :
  ImageTracer.medianCut [red; red; red] 16 = Some [red] /\
  NodeTracer.quantizeColors (map pixel_of_color [red; red; red]) 16
  = Some [NodeTracer.mkEntry 255 0 0 3].
Proof.
  apply (one_colour_palette [red; red; red] red 16).
  - discriminate.
  - lia.
  - intros p [<-|[<-|[<-|[]]]]; reflexivity.
Defined.

(** X6: the palette of quantizeColors accounts for every pixel.  For a
    non-empty pixel list and a requested count of 1 or more, the counts of
    the entries add up to the number of pixels, every count is positive,
    and each of r, g, b of every entry lies within the range that channel
    takes among the pixels. *)
Theorem palette_counts (pixels : list NodeTracer.pixel) (N : Z) :
  pixels <> [] -> 1 <= N ->
  exists palette,
    NodeTracer.quantizeColors pixels N = Some palette /\
    fold_right Z.add 0 (map NodeTracer.count palette) = Z.of_nat (length pixels) /\
    (forall c, In c palette -> 1 <= NodeTracer.count c) /\
    (forall fp fe lo hi,
       In (fp, fe) pixel_fields ->
       (forall p, In p pixels -> lo <= fp p <= hi) ->
       forall c, In c palette -> lo <= fe c <= hi).
Proof.
  intros Hne HN.
  destruct (NodeTracerFacts.quantizeColors_some pixels N) as [palette E].
  exists palette. split; [exact E|].
  destruct (QuantizerFacts.quantizeColors_counts pixels palette N Hne HN E)
    as [Hs Hc].
  split; [exact Hs|]. split; [exact Hc|].
  intros fp fe lo hi Hf Hb.
  exact (QuantizerFacts.quantizeColors_within pixels palette N fp fe lo hi
           Hf Hne HN Hb E).
Qed.

Lemma palette_counts_witness :
  exists palette,
    NodeTracer.quantizeColors
      [NodeTracer.mkPixel 0 0 0; NodeTracer.mkPixel 9 9 9] 5 = Some palette /\
    fold_right Z.add 0 (map NodeTracer.count palette) = 2.
Proof.
  destruct (palette_counts [NodeTracer.mkPixel 0 0 0; NodeTracer.mkPixel 9 9 9] 5)
    as (palette & E & Hs & _); [discriminate | lia |].
  exists palette. split; [exact E | exact Hs].
Defined.

(** X7: the two median-cut implementations compute the same colours.
    Given the same pixels (their alpha dropped for usage.js) and the same
    requested count, medianCut and quantizeColors both return, and their
    palettes hold the same (r, g, b) triples in the same order. *)
Theorem quantizers_agree_on_rgb (pixels : list color) (N : Z) :
  exists palette palette',
    ImageTracer.medianCut pixels N = Some palette /\
    NodeTracer.quantizeColors (map pixel_of_color pixels) N = Some palette' /\
    map rgb_of palette = map rgb_of_entry palette'.
Proof. apply QuantizerFacts.quantizers_agree. Qed.

(** X8: createIndexedImage maps an opaque pixel to the nearest palette
    colour.  For a non-empty palette and a pixel of the grid whose four
    bytes exist and whose alpha is 128 or more, the stored value is the
    first index of the palette at the least squared RGB distance from the
    pixel; when the palette holds the pixel's exact colour, the entry at
    that index has that colour. *)
Theorem indexed_pixel_is_nearest (imgd : ImageTracer.ImageData)
    (palette : list color) (i : nat) (r g b a : Z) :
  palette <> [] ->
  (i < ImageTracer.width imgd * ImageTracer.height imgd)%nat ->
  nth_error (ImageTracer.data imgd) (4 * i) = Some r ->
  nth_error (ImageTracer.data imgd) (4 * i + 1) = Some g ->
  nth_error (ImageTracer.data imgd) (4 * i + 2) = Some b ->
  nth_error (ImageTracer.data imgd) (4 * i + 3) = Some a ->
  128 <= a ->
  exists j,
    nth_error (ImageTracer.array (ImageTracer.createIndexedImage imgd palette)) i
      = Some (Z.of_nat j) /\
    first_nearest r g b (map rgb_of palette) j /\
    (In (r, g, b) (map rgb_of palette) ->
     nth j (map rgb_of palette) (0, 0, 0) = (r, g, b)).
Proof.
  intros Hne Hi Er Eg Eb Ea Ha.
  exists (ImageTracer.closest palette (Some r) (Some g) (Some b)).
  destruct (ImageTracerFacts.createIndexedImage_array imgd palette) as [_ N].
  pose proof (IndexerFacts.closest_first_nearest palette r g b Hne) as Hn.
  split; [|split; [exact Hn | apply IndexerFacts.first_nearest_exact; exact Hn]].
  rewrite (N i Hi). f_equal.
  apply (IndexerFacts.index_of_opaque_pixel _ palette i r g b a);
    unfold rd; rewrite 1?(Nat.mul_comm i 4); assumption.
Qed.

Lemma indexed_pixel_is_nearest_witness :
  exists j,
    nth_error (ImageTracer.array
                 (ImageTracer.createIndexedImage scenario_image [blue; red])) 1
      = Some (Z.of_nat j) /\
    first_nearest 0 0 255 (map rgb_of [blue; red]) j /\
    (In (0, 0, 255) (map rgb_of [blue; red]) ->
     nth j (map rgb_of [blue; red]) (0, 0, 0) = (0, 0, 255)).
Proof.
  apply (indexed_pixel_is_nearest scenario_image [blue; red] 1 0 0 255 255);
    try reflexivity; try discriminate; cbn; lia.
Defined.

(** X9: mapToPalette maps an opaque pixel to the nearest palette colour.
    For a non-empty palette of at most 32768 entries (the indices an
    Int16Array keeps) and a complete pixel whose alpha is 128 or more, the
    stored value is the first index of the palette at the least squared
    RGB distance from the pixel; when the palette holds the pixel's exact
    colour, the entry at that index has that colour. *)
Theorem mapped_pixel_is_nearest (d : list Z) (palette : list NodeTracer.entry)
    (i : nat) (r g b a : Z) :
  palette <> [] -> Z.of_nat (length palette) <= 32768 ->
  nth_error d (4 * i) = Some r -> nth_error d (4 * i + 1) = Some g ->
  nth_error d (4 * i + 2) = Some b -> nth_error d (4 * i + 3) = Some a ->
  128 <= a ->
  exists j,
    nth_error (NodeTracer.mapToPalette d palette) i = Some (Z.of_nat j) /\
    first_nearest r g b (map rgb_of_entry palette) j /\
    (In (r, g, b) (map rgb_of_entry palette) ->
     nth j (map rgb_of_entry palette) (0, 0, 0) = (r, g, b)).
Proof.
  intros Hne Hl Er Eg Eb Ea Ha.
  exists (NodeTracer.nearest palette (Some r) (Some g) (Some b)).
  pose proof (IndexerFacts.nearest_first_nearest palette r g b Hne) as Hn.
  split; [|split; [exact Hn | apply IndexerFacts.first_nearest_exact; exact Hn]].
  destruct (IndexerFacts.mapToPalette_spec d palette) as [_ N].
  assert (Hi : (i < length d / 4)%nat).
  { assert (4 * i + 3 < length d)%nat
      by (apply nth_error_Some; rewrite Ea; discriminate).
    apply Nat.div_le_lower_bound; lia. }
  rewrite (N i Hi). f_equal.
  unfold NodeTracer.pixel_index, rd. rewrite Er, Eg, Eb, Ea.
  destruct (Z.ltb_spec a 128); [lia|].
  apply IndexerFacts.store16_small.
  destruct Hn as (Hj & _). rewrite length_map in Hj. lia.
Qed.

Lemma mapped_pixel_is_nearest_witness :
  exists j,
    nth_error (NodeTracer.mapToPalette (ImageTracer.data scenario_image)
                 scenario_entries) 0
      = Some (Z.of_nat j) /\
    first_nearest 255 0 0 (map rgb_of_entry scenario_entries) j /\
    (In (255, 0, 0) (map rgb_of_entry scenario_entries) ->
     nth j (map rgb_of_entry scenario_entries) (0, 0, 0) = (255, 0, 0)).
Proof.
  apply (mapped_pixel_is_nearest (ImageTracer.data scenario_image)
           scenario_entries 0 255 0 0 255);
    try reflexivity; try discriminate; cbn; lia.
Defined.

(** X10: the two indexers agree.  On a buffer of exactly width x height
    x 4 bytes and palettes holding the same (r, g, b) triples, at most
    32768 of them, mapToPalette of usage.js returns the very array
    createIndexedImage of imagetrace.js builds. *)
Theorem indexers_agree_on_complete_buffers (d : list Z) (w h : nat)
    (palette : list color) (palette' : list NodeTracer.entry) :
  length d = (4 * (w * h))%nat ->
  Z.of_nat (length palette) <= 32768 ->
  map rgb_of_entry palette' = map rgb_of palette ->
  NodeTracer.mapToPalette d palette'
  = ImageTracer.array
      (ImageTracer.createIndexedImage (ImageTracer.mkImageData d w h) palette).
Proof. apply IndexerFacts.indexers_agree. Qed.

Lemma indexers_agree_on_complete_buffers_witness :
  NodeTracer.mapToPalette (ImageTracer.data scenario_image) scenario_entries
  = ImageTracer.array
      (ImageTracer.createIndexedImage
         (ImageTracer.mkImageData (ImageTracer.data scenario_image) 2 2)
         [blue; red]).
Proof.
  apply (indexers_agree_on_complete_buffers (ImageTracer.data scenario_image)
           2 2 [blue; red] scenario_entries);
    [reflexivity | cbn; lia | reflexivity].
Defined.

(** X11: the rectangles createColorRects returns tile the colour.  For
    every indexed array, grid size and colour index, a pixel position is
    covered by exactly one rectangle when it lies in the grid and the
    array holds that index there, and by none otherwise (rectangles never
    overlap and never leave the grid); and every rectangle is at least
    one pixel wide and high. *)
Theorem createColorRects_tiles (indexed : list Z) (width height colorIdx : nat) :
  (forall x y,
     cover_count (NodeTracer.createColorRects indexed width height colorIdx) x y
     = if cell_in indexed width height (Z.of_nat colorIdx) x y
       then 1%nat else 0%nat) /\
  Forall (fun rc => 1 <= NodeTracer.rc_w rc /\ 1 <= NodeTracer.rc_h rc)
    (NodeTracer.createColorRects indexed width height colorIdx).
Proof.
  split.
  - intros x y. apply RectFacts.createColorRects_spec.
  - apply RectFacts.createColorRects_positive.
Qed.

(** X12: mergeRects changes the rectangles, not what they cover.  For
    rectangles of non-negative height, every position is covered by as
    many rectangles after the merge as before; the result is never longer
    than the input, and it is empty only for an empty input. *)
Theorem mergeRects_preserves_cover (rects : list NodeTracer.rect) :
  Forall (fun rc => 0 <= NodeTracer.rc_h rc) rects ->
  (forall x y,
     cover_count (NodeTracer.mergeRects rects) x y = cover_count rects x y) /\
  (length (NodeTracer.mergeRects rects) <= length rects)%nat /\
  (rects = [] <-> NodeTracer.mergeRects rects = []).
Proof. apply RectFacts.mergeRects_spec. Qed.

Lemma mergeRects_preserves_cover_witness :
  NodeTracer.mergeRects stacked_rects = [NodeTracer.mkRect 0 0 2 2] /\
  (forall x y,
     cover_count (NodeTracer.mergeRects stacked_rects) x y
     = cover_count stacked_rects x y).
Proof.
  split; [reflexivity|].
  apply (mergeRects_preserves_cover stacked_rects).
  repeat constructor; cbn; lia.
Defined.

(** X13: the rectangle groups of usage.js partition the opaque pixels.
    For a non-empty palette of at most 32768 entries and a pixel of the
    grid that the buffer holds, the value mapToPalette stores is -1,
    exactly when the alpha is below 128, or a palette index; and the
    rectangles emitted for colour i cover the pixel exactly once when i is
    that value and not at all otherwise.  So a transparent pixel is under
    no rectangle and an opaque one under exactly one, of its nearest
    colour. *)
Theorem rect_groups_partition (d : list Z) (palette : list NodeTracer.entry)
    (width height x y : nat) :
  palette <> [] -> Z.of_nat (length palette) <= 32768 ->
  (x < width)%nat -> (y < height)%nat -> (y * width + x < length d / 4)%nat ->
  let p := NodeTracer.pixel_index d palette (4 * (y * width + x)) in
  (p = -1 \/ 0 <= p < Z.of_nat (length palette)) /\
  (p = -1 <->
   exists a, nth_error d (4 * (y * width + x) + 3) = Some a /\ a < 128) /\
  forall i,
    cover_count
      (NodeTracer.createColorRects (NodeTracer.mapToPalette d palette)
         width height i)
      (Z.of_nat x) (Z.of_nat y)
    = if p =? Z.of_nat i then 1%nat else 0%nat.
Proof.
  intros Hne Hl Hx Hy Hk p.
  pose proof (TransparencyFacts.pixel_index_range d palette
                (4 * (y * width + x)) Hne) as Hr.
  fold p in Hr. split; [exact Hr|].
  split; [apply MoreQuantizerFacts.pixel_index_transparent|].
  intros i. apply TransparencyFacts.rects_of_pixel; try assumption.
  fold p. lia.
Qed.

Lemma rect_groups_partition_witness :
  cover_count
    (NodeTracer.createColorRects
       (NodeTracer.mapToPalette (ImageTracer.data scenario_image) scenario_entries)
       2 2 1)
    (Z.of_nat 0) (Z.of_nat 1)
  = if NodeTracer.pixel_index (ImageTracer.data scenario_image) scenario_entries
         (4 * (1 * 2 + 0)) =? Z.of_nat 1
    then 1%nat else 0%nat.
Proof.
  destruct (rect_groups_partition (ImageTracer.data scenario_image)
              scenario_entries 2 2 0 1) as (_ & _ & H);
    [discriminate | cbn; lia | lia | lia | cbn; lia |].
  apply H.
Defined.

(** X14: what tracePaths returns.  Every traced path is non-empty; each
    of its points is a set pixel inside the grid with a four-neighbour
    that is unset or outside; consecutive points share a side; the path
    has at least pathomit points and at most 4 x width x height; and the
    layer yields at most one path per pixel of the grid. *)
Theorem traced_paths_are_contours (layer : ImageTracer.Layer)
    (options : ImageTracer.Options) :
  (forall path, In path (ImageTracer.tracePaths layer options) ->
     path <> [] /\
     Forall (fun q => on_edge layer q = true /\ set_inside layer q) path /\
     connected path = true /\
     ImageTracer.pathomit options <= Z.of_nat (length path) /\
     (length path
      <= ImageTracer.l_width layer * ImageTracer.l_height layer * 4)%nat) /\
  (length (ImageTracer.tracePaths layer options)
   <= ImageTracer.l_width layer * ImageTracer.l_height layer)%nat.
Proof.
  split; [|apply ContourFacts.tracePaths_count].
  intros path Hin.
  destruct (ContourFacts.tracePaths_contours layer options path Hin)
    as (A & B & C & D & E).
  repeat split; try assumption.
  eapply Forall_impl; [|exact B]. intros q Hq.
  split; [exact Hq | apply ContourFacts.on_edge_inside; exact Hq].
Qed.

(** X15: both simplifiers only drop points.  Whatever simplifyPath of
    imagetrace.js returns is the path with some points left out, the
    others in their order, and it does return when the tolerance is not
    negative; simplifyPath of usage.js returns such a path for every
    tolerance. *)
Theorem simplifyPath_drops_points (points : list point) (tolerance : float) :
  (forall r, ImageTracer.simplifyPath points tolerance = Some r ->
             Subseq r points) /\
  (PrimFloat.ltb tolerance 0 = false ->
   exists r, ImageTracer.simplifyPath points tolerance = Some r /\
             Subseq r points) /\
  (exists r, NodeTracer.simplifyPath points tolerance = Some r /\
             Subseq r points).
Proof.
  split; [|split].
  - intros r H. eapply SimplifierFacts.simplifyPath_fuel_subseq. exact H.
  - intros Ht.
    destruct (ImageTracerFacts.simplifyPath_total tolerance Ht points) as [r E].
    exists r. split; [exact E|].
    eapply SimplifierFacts.simplifyPath_fuel_subseq. exact E.
  - destruct (NodeTracerFacts.simplifyPath_spec points tolerance) as (r & E & _).
    exists r. split; [exact E|].
    eapply SimplifierFacts.node_simplifyPath_subseq. exact E.
Qed.

(** X16: toGrayscale of imagetrace.js, although it overwrites the buffer
    it reads, computes every pixel from the original bytes.  The buffer
    keeps its length; the alpha byte of every pixel is left as it was; the
    three colour bytes that exist receive the gray level of the original
    pixel, a byte; and applying the conversion twice gives what applying
    it once gives. *)
Theorem toGrayscale_pixelwise (d : list Z) :
  length (ImageTracer.toGrayscale d) = length d /\
  (forall k c, (c < 4)%nat ->
     nth_error (ImageTracer.toGrayscale d) (4 * k + c)
     = recoloured d (gray_level d) k c) /\
  (forall k, 0 <= gray_level d k <= 255) /\
  ImageTracer.toGrayscale (ImageTracer.toGrayscale d) = ImageTracer.toGrayscale d.
Proof.
  destruct (PreprocessFacts.toGrayscale_spec d) as [L N].
  split; [exact L|]. split; [exact N|].
  split; [intros k; apply PixelLoopFacts.toUint8Clamp_range|].
  apply PreprocessFacts.toGrayscale_twice.
Qed.

(** X17: the two grayscale conversions agree.  On a buffer of bytes, the
    fresh array toGrayscale of usage.js returns holds exactly the bytes
    toGrayscale of imagetrace.js leaves in the buffer it overwrites. *)
Theorem grayscales_agree_on_bytes (d : list Z) :
  bytes d -> NodeTracer.toGrayscale d = ImageTracer.toGrayscale d.
Proof. apply PreprocessFacts.grayscales_agree. Qed.

Lemma grayscales_agree_on_bytes_witness :
  NodeTracer.toGrayscale (ImageTracer.data scenario_image)
  = ImageTracer.toGrayscale (ImageTracer.data scenario_image).
Proof.
  apply (grayscales_agree_on_bytes (ImageTracer.data scenario_image)).
  unfold bytes. cbn. repeat constructor; lia.
Defined.

(** X18: both monochrome conversions are pixel-wise.  Each keeps the
    length of the buffer and the alpha byte of every pixel (read back
    through the clamped array in usage.js) and stores in the colour bytes
    that exist 255 or 0, decided from the original pixel alone: 255 when
    the weighted sum is at least the threshold in imagetrace.js, and when
    it is strictly above the threshold in usage.js. *)
Theorem toMonochrome_pixelwise (d : list Z) (thr : float) :
  (length (ImageTracer.toMonochrome d thr) = length d /\
   forall k c, (c < 4)%nat ->
     nth_error (ImageTracer.toMonochrome d thr) (4 * k + c)
     = recoloured d (fun k => white_if (PrimFloat.leb thr (luma d k))) k c) /\
  (length (NodeTracer.toMonochrome d thr) = length d /\
   forall k c, (c < 4)%nat ->
     nth_error (NodeTracer.toMonochrome d thr) (4 * k + c)
     = filled d (fun k => white_if (PrimFloat.ltb thr (luma d k))) k c).
Proof.
  split.
  - apply PreprocessFacts.toMonochrome_spec.
  - apply PreprocessFacts.node_toMonochrome_spec.
Qed.

(** X19: the two monochrome conversions differ only at the threshold.
    On a buffer of bytes none of whose pixels has a weighted sum equal to
    the threshold, toMonochrome of usage.js returns the bytes toMonochrome
    of imagetrace.js leaves; a white pixel at threshold 255 shows the
    difference: imagetrace.js keeps it white, usage.js turns it black. *)
Theorem monochromes_agree_off_threshold :
  (forall d thr,
     bytes d ->
     (forall k, (4 * k < length d)%nat -> PrimFloat.eqb thr (luma d k) = false) ->
     NodeTracer.toMonochrome d thr = ImageTracer.toMonochrome d thr) /\
  ImageTracer.toMonochrome white_px 255%float = [255; 255; 255; 255] /\
  NodeTracer.toMonochrome white_px 255%float = [0; 0; 0; 255].
Proof.
  split; [exact PreprocessFacts.monochromes_agree|].
  split; vm_compute; reflexivity.
Qed.

(** X20: the background removal of both converters is pixel-wise and
    only clears alpha.  The two functions compute the same buffer; it has
    the length of the input; the colour bytes are unchanged; the alpha
    byte of a pixel becomes 0 when its three colour bytes exist and each is
    at least 255 - tolerance, and is unchanged otherwise; removing again
    with the same tolerance changes nothing; and a pixel cleared at one
    tolerance is cleared at every larger one. *)
Theorem removeWhiteBackground_pixelwise (d : list Z) (tolerance : Z) :
  NodeConverter.removeWhiteBackgroundSharp d tolerance
    = Converter.removeWhiteBackground d tolerance /\
  length (Converter.removeWhiteBackground d tolerance) = length d /\
  (forall k c, (c < 4)%nat ->
     nth_error (Converter.removeWhiteBackground d tolerance) (4 * k + c)
     = cleared d (255 - tolerance) k c) /\
  Converter.removeWhiteBackground
    (Converter.removeWhiteBackground d tolerance) tolerance
    = Converter.removeWhiteBackground d tolerance /\
  (forall tolerance' k,
     tolerance <= tolerance' ->
     whitish d (255 - tolerance) k = true ->
     whitish d (255 - tolerance') k = true).
Proof.
  split; [reflexivity|].
  destruct (BackgroundFacts.clear_white_spec d (255 - tolerance)) as [L N].
  split; [exact L|]. split; [exact N|].
  split; [apply BackgroundFacts.clear_white_twice|].
  intros t' k Ht. apply BackgroundFacts.whitish_mono. lia.
Qed.

(** X21: a pixel the background removal clears is transparent to both
    tracers.  When the cleared buffer is what the tracer is handed, a
    complete pixel whose three colour bytes are each at least
    255 - tolerance has alpha 0 there, and both createIndexedImage's and
    mapToPalette's index for it is -1, whatever the palette: it belongs to
    no layer and lies under no rectangle. *)
Theorem cleared_pixels_are_transparent (d : list Z) (tolerance : Z) (k : nat) :
  (4 * k + 3 < length d)%nat ->
  whitish d (255 - tolerance) k = true ->
  nth_error (Converter.removeWhiteBackground d tolerance) (4 * k + 3) = Some 0 /\
  (forall palette,
     ImageTracer.index_of_pixel (Converter.removeWhiteBackground d tolerance)
       palette k = -1) /\
  (forall palette,
     NodeTracer.pixel_index
       (NodeConverter.removeWhiteBackgroundSharp d tolerance) palette (4 * k)
     = -1).
Proof.
  intros Hk Hw.
  destruct (BackgroundFacts.clear_white_spec d (255 - tolerance)) as [_ N].
  assert (E : nth_error (Converter.removeWhiteBackground d tolerance) (4 * k + 3)
              = Some 0).
  { unfold Converter.removeWhiteBackground. rewrite (N k 3%nat) by lia.
    unfold cleared. rewrite Hw. cbn [Nat.eqb andb].
    destruct (Nat.ltb_spec (4 * k + 3) (length d)); [reflexivity | lia]. }
  split; [exact E|].
  apply (BackgroundFacts.cleared_is_transparent _ k 0 E). lia.
Qed.

Lemma cleared_pixels_are_transparent_witness :
  nth_error (Converter.removeWhiteBackground white_px 20) (4 * 0 + 3) = Some 0 /\
  (forall palette,
     ImageTracer.index_of_pixel (Converter.removeWhiteBackground white_px 20)
       palette 0 = -1) /\
  (forall palette,
     NodeTracer.pixel_index
       (NodeConverter.removeWhiteBackgroundSharp white_px 20) palette (4 * 0)
     = -1).
Proof.
  apply (cleared_pixels_are_transparent white_px 20 0);
    [cbn; lia | reflexivity].
Defined.

(** X22: imagetrace.js traces a fully transparent image to an empty
    document.  With the blur off, when every pixel of the grid has an alpha
    byte below 128, trace returns the header followed by the closing tag
    and no path, in every colour mode and for every tolerance, precision
    and colour count. *)
Theorem transparent_image_traces_empty (host : JsHost)
    (imgd : ImageTracer.ImageData) (options : ImageTracer.Options) :
  no_blur options ->
  (forall i, (i < ImageTracer.width imgd * ImageTracer.height imgd)%nat ->
     exists a, nth_error (ImageTracer.data imgd) (4 * i + 3) = Some a /\ a < 128) ->
  snd (ImageTracer.trace host imgd options)
  = Returns (ImageTracer.svg_header host (ImageTracer.width imgd)
               (ImageTracer.height imgd) options ++ "</svg>")%string.
Proof. apply TransparencyFacts.trace_transparent. Qed.

Lemma transparent_image_traces_empty_witness :
  snd (ImageTracer.trace host0 faint_image negative_tolerance_options)
  = Returns (ImageTracer.svg_header host0 2 1 negative_tolerance_options
             ++ "</svg>")%string.
Proof.
  apply (transparent_image_traces_empty host0 faint_image
           negative_tolerance_options).
  - unfold no_blur. cbn. lia.
  - intros [|[|i]] Hi; [exists 127 | exists 0 | cbn in Hi; lia];
      (split; [reflexivity | lia]).
Defined.

(** X23: usage.js traces a fully transparent buffer to an empty document.
    For a buffer of bytes all of whose alpha bytes are below 128, trace
    returns the header, the title and the closing tag, with no group, in
    every trace mode and for every colour count. *)
Theorem transparent_buffer_traces_empty (host : JsHost) (d : list Z)
    (width height : nat) (opts : NodeTracer.Options) :
  bytes d -> all_transparent d ->
  snd (NodeTracer.trace host d width height opts)
  = Returns (node_empty_document host width height).
Proof. apply TransparencyFacts.node_trace_transparent. Qed.

Lemma transparent_buffer_traces_empty_witness :
  snd (NodeTracer.trace host0 (ImageTracer.data faint_image) 2 1
         (NodeTracer.mkOptions 16 128%float NodeTracer.TraceGrayscale))
  = Returns (node_empty_document host0 2 1).
Proof.
  apply (transparent_buffer_traces_empty host0 (ImageTracer.data faint_image) 2 1
           (NodeTracer.mkOptions 16 128%float NodeTracer.TraceGrayscale)).
  - unfold bytes. cbn. repeat constructor; lia.
  - intros k a E.
    assert (Hk : (4 * k + 3 < 8)%nat)
      by (apply (nth_error_Some (ImageTracer.data faint_image)); rewrite E;
          discriminate).
    destruct k as [|[|k]]; [| |lia]; cbn in E; inversion E; lia.
Defined.

(** X24: the layers trace hands to the emitter.  trace quantizes the
    preprocessed image with its options (two colours in monochrome mode);
    the palette has at least one entry and at most the requested count (or
    one); there are no more layers than palette entries, and the layers'
    colours are palette entries in palette order. *)
Theorem trace_layers_bound (host : JsHost) (imgd : ImageTracer.ImageData)
    (options : ImageTracer.Options) :
  exists palette,
    ImageTracer.quantize (trace_image host imgd options) (trace_options options)
      = Some palette /\
    snd (ImageTracer.trace host imgd options)
      = ImageTracer.generateSvg host (trace_layers host imgd options palette)
          (ImageTracer.width imgd) (ImageTracer.height imgd)
          (trace_options options) /\
    (1 <= length palette)%nat /\
    Z.of_nat (length palette)
      <= Z.max 1 (match ImageTracer.colorMode options with
                  | ImageTracer.ModeMonochrome => 2
                  | _ => ImageTracer.numberofcolors options
                  end) /\
    (length (trace_layers host imgd options palette) <= length palette)%nat /\
    Subseq (map ImageTracer.l_color (trace_layers host imgd options palette))
           palette.
Proof.
  destruct (ImageTracerFacts.quantize_some (trace_image host imgd options)
              (trace_options options)) as [palette E].
  exists palette. split; [exact E|].
  split; [rewrite EmitterFacts.trace_unfold, E; reflexivity|].
  pose proof (ImageTracerFacts.quantize_length _ _ _ E) as [L1 L2].
  rewrite EmitterFacts.trace_options_colors in L2.
  split; [exact L1|]. split; [exact L2|].
  split; [apply EmitterFacts.layerSeparation_length|].
  apply TransparencyFacts.layerSeparation_colors.
Qed.

(** X25: the serializer drops exactly the single points.  When the
    tolerance is not negative and the precision is one toFixed accepts,
    the emitter returns, for any list of paths, one path element per path
    of two or more points; so with a minimum path length of 2 or more,
    every path tracePaths returns for a layer gets its element. *)
Theorem serializer_keeps_drawable_paths (host : JsHost)
    (options : ImageTracer.Options) (fill : string) :
  PrimFloat.ltb (ImageTracer.ltres options) 0 = false ->
  0 <= ImageTracer.roundcoords options <= 100 ->
  (forall paths,
     exists elems,
       ImageTracer.layer_elements host fill paths options = Returns elems /\
       length elems = length (filter drawable paths)) /\
  (2 <= ImageTracer.pathomit options ->
   forall layer,
     exists elems,
       ImageTracer.layer_elements host fill
         (ImageTracer.tracePaths layer options) options = Returns elems /\
       length elems = length (ImageTracer.tracePaths layer options)).
Proof.
  intros Ht Hp.
  assert (A : forall paths,
            exists elems,
              ImageTracer.layer_elements host fill paths options = Returns elems /\
              length elems = length (filter drawable paths)).
  { intros paths.
    destruct (ImageTracerFacts.layer_elements_returns host options Ht Hp fill paths)
      as [elems E].
    exists elems. split; [exact E|].
    apply (EmitterFacts.layer_elements_count host options fill paths elems E). }
  split; [exact A|].
  intros Ho layer. destruct (A (ImageTracer.tracePaths layer options))
    as (elems & E & L).
  exists elems. split; [exact E|].
  rewrite L, EmitterFacts.tracePaths_drawable by exact Ho. reflexivity.
Qed.

Lemma serializer_keeps_drawable_paths_witness :
  exists elems,
    ImageTracer.layer_elements host0 "f"
      (ImageTracer.tracePaths blue_layer (scenario_with 2)) (scenario_with 2)
      = Returns elems /\
    length elems = length (ImageTracer.tracePaths blue_layer (scenario_with 2)).
Proof.
  destruct (serializer_keeps_drawable_paths host0 (scenario_with 2) "f")
    as [_ H]; [reflexivity | cbn; lia |].
  apply H. cbn. lia.
Defined.

(** X26: the contours of a trace through converter.js.  The converter
    never sets the precision or the minimum path length and replaces a
    simplification of 0 or NaN by 1; so when pathSimplify is absent or not
    below 0, the tolerance the engine simplifies with is above 0, the
    precision is 1 and the minimum path length 8, every path traced for a
    layer has 8 points or more, and the serializer emits one path element
    for each of them. *)
Theorem traceToSVG_keeps_contours (host : JsHost) (options : Converter.Options) :
  (forall x, Converter.pathSimplify options = Some x ->
             PrimFloat.ltb x 0 = false) ->
  let opts := Converter.traceOptions options in
  PrimFloat.ltb 0 (ImageTracer.ltres opts) = true /\
  ImageTracer.pathomit opts = 8 /\
  ImageTracer.roundcoords opts = 1 /\
  forall layer,
    (forall path, In path (ImageTracer.tracePaths layer opts) ->
                  (8 <= length path)%nat) /\
    forall fill,
      exists elems,
        ImageTracer.layer_elements host fill
          (ImageTracer.tracePaths layer opts) opts = Returns elems /\
        length elems = length (ImageTracer.tracePaths layer opts).
Proof.
  intros H opts.
  assert (Hpos : PrimFloat.ltb 0 (ImageTracer.ltres opts) = true)
    by (apply ConverterFacts.or_default_float_positive; exact H).
  split; [exact Hpos|]. split; [reflexivity|]. split; [reflexivity|].
  intros layer. split.
  - intros path Hin.
    apply ContourFacts.tracePaths_contours in Hin as (_ & _ & _ & Hl & _).
    change (ImageTracer.pathomit opts) with 8 in Hl. lia.
  - intros fill.
    destruct (ImageTracerFacts.layer_elements_returns host opts
                (ConverterFacts.or_default_float_tolerance _ H)
                ltac:(cbn; lia) fill (ImageTracer.tracePaths layer opts))
      as [elems E].
    exists elems. split; [exact E|].
    rewrite (EmitterFacts.layer_elements_count host opts fill _ elems E).
    rewrite EmitterFacts.tracePaths_drawable by (cbn; lia). reflexivity.
Qed.

Lemma traceToSVG_keeps_contours_witness :
  PrimFloat.ltb 0 (ImageTracer.ltres (Converter.traceOptions posterize_options))
  = true /\
  exists elems,
    ImageTracer.layer_elements host0 "f"
      (ImageTracer.tracePaths row5_layer (Converter.traceOptions posterize_options))
      (Converter.traceOptions posterize_options) = Returns elems /\
    length elems = 1%nat.
Proof.
  destruct (traceToSVG_keeps_contours host0 posterize_options) as (A & _ & _ & B).
  - intros x E. inversion E; subst. reflexivity.
  - split; [exact A|].
    destruct (B row5_layer) as [_ C]. destruct (C "f"%string) as (elems & E & L).
    exists elems. split; [exact E|]. rewrite L. vm_compute. reflexivity.
Defined.

(** X27: the colours a trace through converter.js can use.  For every
    canvas and options the palette the engine computes, and so the number
    of layers, is at most 2 in monochrome mode, at most 8 in posterize
    mode, and otherwise at most the requested colorCount, with 16 standing
    for an absent or zero count and 1 for a negative one. *)
Theorem traceToSVG_palette_bound (host : JsHost)
    (canvas : ImageTracer.ImageData) (options : Converter.Options) :
  let opts := Converter.traceOptions options in
  exists palette,
    ImageTracer.quantize (trace_image host canvas opts) (trace_options opts)
      = Some palette /\
    snd (Converter.traceToSVG host canvas options)
      = ImageTracer.generateSvg host (trace_layers host canvas opts palette)
          (ImageTracer.width canvas) (ImageTracer.height canvas)
          (trace_options opts) /\
    (length (trace_layers host canvas opts palette) <= length palette)%nat /\
    Z.of_nat (length palette)
      <= match Converter.traceMode options with
         | Converter.NameMonochrome => 2
         | Converter.NamePosterize => 8
         | _ => Z.max 1 (Converter.or_default (Converter.colorCount options) 16)
         end.
Proof.
  intros opts.
  destruct (ImageTracerFacts.quantize_some (trace_image host canvas opts)
              (trace_options opts)) as [palette E].
  exists palette. split; [exact E|].
  split; [unfold Converter.traceToSVG; fold opts;
          rewrite EmitterFacts.trace_unfold, E; reflexivity|].
  split; [apply EmitterFacts.layerSeparation_length|].
  pose proof (ImageTracerFacts.quantize_length _ _ _ E) as [_ L].
  pose proof (ConverterFacts.traceOptions_colors options). fold opts in H. lia.
Qed.

(** X28: the text renderPDFPage writes is escaped character by
    character.  The four chained replacements amount to replacing every
    ampersand, less-than, greater-than and double quote of the string by
    its entity, once, and leaving every other character; the result holds
    no less-than, greater-than or double quote; and two different strings
    never escape to the same text. *)
Theorem escaped_text_is_safe (s : string) :
  NodeConverter.escaped_text s = flat_chars entity s /\
  occurs "<" (NodeConverter.escaped_text s) = false /\
  occurs ">" (NodeConverter.escaped_text s) = false /\
  occurs NodeConverter.quote_char (NodeConverter.escaped_text s) = false /\
  (forall s', NodeConverter.escaped_text s = NodeConverter.escaped_text s' ->
              s = s').
Proof.
  split; [apply EscapeFacts.escaped_text_chars|].
  split; [apply EscapeFacts.escaped_text_clean; auto|].
  split; [apply EscapeFacts.escaped_text_clean; auto|].
  split; [apply EscapeFacts.escaped_text_clean; auto|].
  apply EscapeFacts.escaped_text_injective.
Qed.
